(** * Console memory match game: a shallow embedding of [memory.js]

    The development follows the source file top to bottom.  Part I holds the
    embedding (every definition names the source function it renders),
    Part II the properties.

    Conventions.
    - A JS string is the list of its UTF-16 code units ([list N]).  The
      literals of the program that are only displayed or compared (board
      symbols, validation messages) are kept as [string].
    - The counters [moves] and [matches] and the scores are integers ([Z]);
      they stay far below 2^53, where JS numbers are exact.
    - Arrays are lists, read with [!!]; what JS does outside the range is
      written out next to each access. *)

From Stdlib Require Import ZArith QArith Qround Lia List Sorted Permutation Ascii String.
From stdpp Require Import base numbers option list sorting strings gmap sets.

Local Open Scope Z_scope.

(* ===================================================================== *)
(** * Part I.  The embedding                                              *)
(* ===================================================================== *)

(** ** JS strings *)

Abbreviation jsstring := (list N).

(** A literal of the program text as a JS string. *)
Fixpoint str (s : string) : jsstring :=
  match s with
  | EmptyString => []
  | String a s' => N_of_ascii a :: str s'
  end.

(** ** Scoring (memory.js line 164)

    [const score = Math.max(100 - moves * 5, 10);] *)

Definition computeScore (moves : Z) : Z := Z.max (100 - moves * 5) 10.

(** ** The leaderboard (memory.js lines 25-31) *)

(** The object literal [{ name, score, date: new Date().toISOString() }]. *)
Record ScoreRecord := mkScoreRecord {
  name : jsstring;
  score : Z;
  date : jsstring
}.

(** The comparator [(a, b) => b.score - a.score]. *)
Definition by_score_desc (a b : ScoreRecord) : Z := score b - score a.

(** [Array.prototype.sort(comparefn)]: the sort is stable, and [comparefn a b]
    being positive puts [a] after [b].  With a consistent comparator every
    stable sort returns the same array, here the one built by insertion:
    the head goes in front of the first element it does not have to follow. *)
Fixpoint sort_insert {A} (comparefn : A -> A -> Z) (x : A) (l : list A) : list A :=
  match l with
  | [] => [x]
  | y :: l' => if 0 <? comparefn x y then y :: sort_insert comparefn x l' else x :: l
  end.

Fixpoint array_sort {A} (comparefn : A -> A -> Z) (l : list A) : list A :=
  match l with
  | [] => []
  | x :: l' => sort_insert comparefn x (array_sort comparefn l')
  end.

(** [highScores.splice(5)] removes everything from index 5 on. *)
Definition splice_from {A} (n : nat) (l : list A) : list A := take n l.

(** Lines 27-29 of [saveHighScore]: push, sort, splice. *)
Definition merge (highScores : list ScoreRecord) (entry : ScoreRecord) : list ScoreRecord :=
  splice_from 5 (array_sort by_score_desc (highScores ++ [entry])).

(** ** A store of arrays

    [shuffle] works in place on the array it is handed, and [symbols] is a
    module-level array shared by every call of [createBoard]; arrays of
    symbols therefore live in a store and are passed by reference.  The
    state also counts the calls of [Math.random()]: the n-th call returns
    [random n]. *)

Abbreviation ref := nat (only parsing).

Record world := mkWorld {
  heap : gmap nat (list string);
  random_calls : nat
}.

(** Computations over the world.  [None] stands for the executions that
    leave the model: a read or a write outside an array (JS would produce
    [undefined], or grow the array), or a dangling reference. *)
Definition M (A : Type) : Type := world -> option (A * world).

Definition ret {A} (a : A) : M A := fun w => Some (a, w).

Definition bind {A B} (m : M A) (k : A -> M B) : M B :=
  fun w => match m w with
           | Some (a, w') => k a w'
           | None => None
           end.

Notation "'do' x <- m ; k" := (bind m (fun x => k))
  (at level 10, x name, m at level 100, k at level 200).
Notation "m ;; k" := (bind m (fun _ => k))
  (at level 100, k at level 200, right associativity).

(** [array.length] *)
Definition array_length (array : ref) : M nat :=
  fun w => match heap w !! array with
           | Some l => Some (length l, w)
           | None => None
           end.

(** [array[i]], for an index that is an integer. *)
Definition array_get (array : ref) (i : Z) : M string :=
  fun w => match heap w !! array with
           | Some l => if 0 <=? i
                       then match l !! Z.to_nat i with
                            | Some x => Some (x, w)
                            | None => None
                            end
                       else None
           | None => None
           end.

(** [array[i] = x], for an index that is an integer. *)
Definition array_set (array : ref) (i : Z) (x : string) : M unit :=
  fun w => match heap w !! array with
           | Some l => if (0 <=? i) && (i <? Z.of_nat (length l))
                       then Some (tt, mkWorld (<[array := <[Z.to_nat i := x]> l]> (heap w))
                                              (random_calls w))
                       else None
           | None => None
           end.

(** [[...array]]: a new array with the same elements. *)
Definition array_spread (array : ref) : M ref :=
  fun w => match heap w !! array with
           | Some l => let a := fresh (dom (heap w)) in
                       Some (a, mkWorld (<[a := l]> (heap w)) (random_calls w))
           | None => None
           end.

(** [array.slice(start, end)] for [0 <= start <= end]; the result is a new
    array, which nothing ever writes to: it is returned by value. *)
Definition array_slice (array : ref) (start end_ : nat) : M (list string) :=
  fun w => match heap w !! array with
           | Some l => Some (take (end_ - start) (drop start l), w)
           | None => None
           end.

(** ** Board generation (memory.js lines 12, 53-69) *)

(** [const symbols = ['A', 'A', 'B', 'B', ..., 'H', 'H'];] the binding, the
    array literal, and the store the module starts with. *)
Definition symbols : nat := 0%nat.

Definition symbols_literal : list string :=
  ["A"; "A"; "B"; "B"; "C"; "C"; "D"; "D";
   "E"; "E"; "F"; "F"; "G"; "G"; "H"; "H"]%string.

Definition module_world : world :=
  mkWorld {[ symbols := symbols_literal ]} 0.

Section BoardGenerator.

(** The results of the successive calls of [Math.random()]. *)
Variable random : nat -> Q.

Definition Math_random : M Q :=
  fun w => Some (random (random_calls w), mkWorld (heap w) (S (random_calls w))).

Definition Math_floor (x : Q) : Z := Qfloor x.

(** Line 55: [Math.floor(Math.random() * (i + 1))], the product taken
    exactly. *)
Definition random_index (r : Q) (i : nat) : Z :=
  Math_floor (r * inject_Z (Z.of_nat i + 1)).

(** Line 56: [[array[i], array[j]] = [array[j], array[i]];] the right-hand
    side is read first, then the two writes happen left to right. *)
Definition swap (array : ref) (i j : Z) : M unit :=
  do x <- array_get array j;
  do y <- array_get array i;
  array_set array i x;;
  array_set array j y.

(** Lines 54-57: the loop [for (let i = ...; i > 0; i--)], entered with
    the current value of [i]. *)
Fixpoint shuffle_loop (array : ref) (i : nat) : M unit :=
  match i with
  | O => ret tt
  | S i' =>
      do r <- Math_random;
      let j := random_index r i in
      swap array (Z.of_nat i) j;;
      shuffle_loop array i'
  end.

Definition shuffle (array : ref) : M ref :=
  do len <- array_length array;
  shuffle_loop array (len - 1);;
  ret array.

(** Lines 65-67: the loop of [createBoard], entered at row [i] with [n]
    iterations to go; the rows are pushed in order. *)
Fixpoint createBoard_loop (shuffled : ref) (i n : nat) : M (list (list string)) :=
  match n with
  | O => ret []
  | S n' =>
      do row <- array_slice shuffled (i * 4) ((i + 1) * 4);
      do board <- createBoard_loop shuffled (S i) n';
      ret (row :: board)
  end.

Definition createBoard : M (list (list string)) :=
  do copy <- array_spread symbols;
  do shuffled <- shuffle copy;
  createBoard_loop shuffled 0 4.

End BoardGenerator.

(** ** Values, errors and the coordinate parser (memory.js lines 85-91) *)

(** What a function call ends in: a returned value or a thrown error. *)
Inductive completion (A : Type) : Type :=
  | Return (a : A)
  | Throw (message : string).
Arguments Return {A} a.
Arguments Throw {A} message.

(** The JS values the coordinate parser can hand out. *)
Inductive value : Type :=
  | Undefined
  | NaN
  | Num (z : Z).

#[global] Instance value_eq_dec : EqDecision value.
Proof. solve_decision. Defined.

(** [a === b] on these values: [NaN] is not equal to itself. *)
Definition strict_eq (a b : value) : bool :=
  match a, b with
  | Undefined, Undefined => true
  | Num x, Num y => x =? y
  | _, _ => false
  end.

(** [v - 1] *)
Definition minus_one (v : value) : value :=
  match v with
  | Num z => Num (z - 1)
  | _ => NaN
  end.

(** A regular expression without repetition: a sequence of atoms, anchored
    at both ends ([^...$] without flags: [$] matches at the very end of the
    input only). *)
Inductive atom : Type :=
  | Range (lo hi : N)
  | Char (c : N).

Definition atom_matches (a : atom) (c : N) : bool :=
  match a with
  | Range lo hi => ((lo <=? c) && (c <=? hi))%N
  | Char c' => (c =? c')%N
  end.

Fixpoint regexp_test (re : list atom) (s : jsstring) : bool :=
  match re, s with
  | [], [] => true
  | a :: re', c :: s' => atom_matches a c && regexp_test re' s'
  | _, _ => false
  end.

(** [/^[1-4],[1-4]$/] *)
Definition coordinates_regexp : list atom :=
  [Range 49 52; Char 44; Range 49 52].

(** [input.split(',')] *)
Fixpoint split (sep : N) (s : jsstring) : list jsstring :=
  match s with
  | [] => [[]]
  | c :: s' =>
      if (c =? sep)%N then [] :: split sep s'
      else match split sep s' with
           | piece :: pieces => (c :: piece) :: pieces
           | [] => [[c]]
           end
  end.

(** [parseInt(string)] with no radix: leading white space is skipped, then
    an optional sign, an optional [0x] prefix, and the longest run of
    digits of the radix; [NaN] when that run is empty. *)
Definition is_white_space (c : N) : bool :=
  ((9 <=? c) && (c <=? 13) || (c =? 32) || (c =? 160) || (c =? 0x1680)
   || (0x2000 <=? c) && (c <=? 0x200A) || (c =? 0x2028) || (c =? 0x2029)
   || (c =? 0x202F) || (c =? 0x205F) || (c =? 0x3000) || (c =? 0xFEFF))%N.

Fixpoint skip_white_space (s : jsstring) : jsstring :=
  match s with
  | c :: s' => if is_white_space c then skip_white_space s' else s
  | [] => []
  end.

Definition digit_value (radix : N) (c : N) : option N :=
  let d := (if (48 <=? c) && (c <=? 57) then Some (c - 48)
            else if (97 <=? c) && (c <=? 122) then Some (c - 87)
            else if (65 <=? c) && (c <=? 90) then Some (c - 55)
            else None)%N in
  match d with
  | Some v => if (v <? radix)%N then Some v else None
  | None => None
  end.

Fixpoint digits_prefix (radix : N) (s : jsstring) (acc : option N) : option N :=
  match s with
  | c :: s' =>
      match digit_value radix c with
      | Some d => digits_prefix radix s'
                    (Some (match acc with Some a => a * radix + d | None => d end)%N)
      | None => acc
      end
  | [] => acc
  end.

Definition parseInt (s : jsstring) : value :=
  let s1 := skip_white_space s in
  let '(sign, s2) :=
    match s1 with
    | c :: t => if (c =? 45)%N then (-1, t) else if (c =? 43)%N then (1, t) else (1, s1)
    | [] => (1, s1)
    end in
  let '(radix, s3) :=
    match s2 with
    | c :: x :: t =>
        if ((c =? 48) && ((x =? 120) || (x =? 88)))%N then (16%N, t) else (10%N, s2)
    | _ => (10%N, s2)
    end in
  match digits_prefix radix s3 None with
  | Some n => Num (sign * Z.of_N n)
  | None => NaN
  end.

(** [const [row, col] = array]: a missing element is [undefined]. *)
Definition element (array : list value) (i : nat) : value :=
  match array !! i with
  | Some v => v
  | None => Undefined
  end.

Definition parseCoordinates (input : jsstring) : completion (value * value) :=
  if negb (regexp_test coordinates_regexp input)
  then Throw "Invalid format. Use coordinates (e.g., 1,2)."
  else
    let parts := map (fun num => minus_one (parseInt num)) (split 44 input) in
    Return (element parts 0, element parts 1).

(** The text [d,d] for the 0-based pair [(r, c)]: the digit of [r + 1], a
    comma, the digit of [c + 1]. *)
Definition coordinate_text (r c : Z) : jsstring :=
  [Z.to_N (49 + r); 44%N; Z.to_N (49 + c)].

(** ** The round (memory.js lines 94-164) *)

(** [array[v]]: only a non-negative integer is an index; any other key
    names no element, and the read gives [undefined] ([None]). *)
Definition index_of (v : value) : option nat :=
  match v with
  | Num z => if 0 <=? z then Some (Z.to_nat z) else None
  | _ => None
  end.

Definition get {A} (array : list A) (v : value) : option A :=
  match index_of v with
  | Some i => array !! i
  | None => None
  end.

(** [row[j] = b] on an array of flags: past the end the array grows, and
    the holes read as [undefined]; the program only ever tests a flag for
    truth, so a hole is rendered as [false]. *)
Definition put (row : list bool) (j : nat) (b : bool) : list bool :=
  if (j <? length row)%nat then <[j := b]> row
  else row ++ replicate (j - length row) false ++ [b].

(** [revealed[row][col] = b].  [None]: [revealed[row]] is [undefined] and
    the assignment raises a TypeError, or [col] is not an index and the
    write adds a named property, which the arrays here do not have. *)
Definition set_flag (revealed : list (list bool)) (row col : value) (b : bool)
  : option (list (list bool)) :=
  match index_of row, index_of col with
  | Some i, Some j =>
      match revealed !! i with
      | Some cells => Some (<[i := put cells j b]> revealed)
      | None => None
      end
  | _, _ => None
  end.

(** [board[row][col]]: [None] is the TypeError on an absent row, [Some None]
    the value [undefined]. *)
Definition symbol_at (board : list (list string)) (row col : value)
  : option (option string) :=
  match get board row with
  | Some cells => Some (get cells col)
  | None => None
  end.

(** What a [validate] callback returns: [true], or the message shown before
    the prompt asks again. *)
Inductive validation : Type :=
  | Valid
  | Invalid (message : string).

(** Lines 112-119.  The [try] block covers the parse and the read of the
    flag, so a TypeError on an absent row ends in the [catch] as well. *)
Definition validate_first (revealed : list (list bool)) (input : jsstring) : validation :=
  match parseCoordinates input with
  | Throw _ => Invalid "Invalid format. Use coordinates (e.g., 1,2)."
  | Return (row, col) =>
      match get revealed row with
      | None => Invalid "Invalid format. Use coordinates (e.g., 1,2)."
      | Some cells =>
          if negb (default false (get cells col)) then Valid
          else Invalid "Card already revealed!"
      end
  end.

(** Lines 132-141. *)
Definition validate_second (revealed : list (list bool)) (row1 col1 : value)
    (input : jsstring) : validation :=
  match parseCoordinates input with
  | Throw _ => Invalid "Invalid format. Use coordinates (e.g., 2,3)."
  | Return (row, col) =>
      match get revealed row with
      | None => Invalid "Invalid format. Use coordinates (e.g., 2,3)."
      | Some cells =>
          if negb (default false (get cells col)
                   || (strict_eq row row1 && strict_eq col col1))
          then Valid
          else Invalid "Invalid or already revealed card!"
      end
  end.

(** Where [playGame] is waiting: at the first prompt of a turn, at the
    second one (with [row1] and [col1] in scope), or past the loop. *)
Inductive control : Type :=
  | FirstPrompt
  | SecondPrompt (row1 col1 : value)
  | Finished.

(** The locals of [playGame]. *)
Record RoundState := mkRound {
  board : list (list string);
  revealed : list (list bool);
  moves : Z;
  matches : Z;
  control_at : control
}.

(** Line 96: [Array(4).fill().map(() => Array(4).fill(false))]; the arrow
    function builds a new row at each call, so no two rows are the same
    array and the mask is a plain list of lists. *)
Definition fresh_mask : list (list bool) := replicate 4 (replicate 4 false).

(** Lines 95-98 and the first test of [while (matches < 8)]. *)
Definition start (board : list (list string)) : RoundState :=
  mkRound board fresh_mask 0 0 (if 0 <? 8 then FirstPrompt else Finished).

(** Lines 148-161, after the second card is turned. *)
Definition resolve (st : RoundState) (revealed2 : list (list bool))
    (row1 col1 row2 col2 : value) : option RoundState :=
  let moves' := moves st + 1 in
  match symbol_at (board st) row1 col1, symbol_at (board st) row2 col2 with
  | Some s1, Some s2 =>
      if bool_decide (s1 = s2) then
        let matches' := matches st + 1 in
        Some (mkRound (board st) revealed2 moves' matches'
                (if matches' <? 8 then FirstPrompt else Finished))
      else
        match set_flag revealed2 row1 col1 false with
        | Some revealed3 =>
            match set_flag revealed3 row2 col2 false with
            | Some revealed4 =>
                Some (mkRound (board st) revealed4 moves' (matches st)
                        (if matches st <? 8 then FirstPrompt else Finished))
            | None => None
            end
        | None => None
        end
  | _, _ => None
  end.

(** One line typed by the player.  A prompt whose [validate] callback does
    not return [true] shows the message and keeps waiting; an accepted
    answer lets [playGame] run to its next prompt.  [None]: an error that
    nothing catches. *)
Definition step (st : RoundState) (input : jsstring) : option RoundState :=
  match control_at st with
  | FirstPrompt =>
      match validate_first (revealed st) input with
      | Invalid _ => Some st
      | Valid =>
          match parseCoordinates input with
          | Throw _ => None
          | Return (row1, col1) =>
              match set_flag (revealed st) row1 col1 true with
              | Some revealed1 =>
                  Some (mkRound (board st) revealed1 (moves st) (matches st)
                          (SecondPrompt row1 col1))
              | None => None
              end
          end
      end
  | SecondPrompt row1 col1 =>
      match validate_second (revealed st) row1 col1 input with
      | Invalid _ => Some st
      | Valid =>
          match parseCoordinates input with
          | Throw _ => None
          | Return (row2, col2) =>
              match set_flag (revealed st) row2 col2 true with
              | Some revealed2 => resolve st revealed2 row1 col1 row2 col2
              | None => None
              end
          end
      end
  | Finished => Some st
  end.

(** The lines typed during a round, in order. *)
Fixpoint run (st : RoundState) (inputs : list jsstring) : option RoundState :=
  match inputs with
  | [] => Some st
  | input :: inputs' =>
      match step st input with
      | Some st' => run st' inputs'
      | None => None
      end
  end.

(** Line 164, once the loop is left. *)
Definition final_score (st : RoundState) : Z := computeScore (moves st).

(** ** JSON text (the built-ins behind lines 18 and 30)

    Values as [JSON.parse] builds them and [JSON.stringify] reads them.
    Numbers are exact decimals, [mantissa / 10^scale] with the least
    possible [scale]; the rounding of doubles, the infinities and the sign
    of zero are not represented.  An object is the list of its properties
    in enumeration order. *)

Record number := mkNumber {
  mantissa : Z;
  scale : nat
}.

#[warnings="-register-all"]
Inductive json : Type :=
  | JNull
  | JBool (b : bool)
  | JNumber (n : number)
  | JString (s : jsstring)
  | JArray (elements : list json)
  | JObject (members : list (jsstring * json)).

(** *** Decimal digits *)

Definition digit_char (d : N) : N := (48 + d)%N.

Definition is_digit (c : N) : bool := ((48 <=? c) && (c <=? 57))%N.

(** The decimal digits of [n], most significant first; [fuel] bounds their
    number. *)
Fixpoint digits_from (fuel : nat) (n : N) (acc : list N) : list N :=
  match fuel with
  | O => acc
  | S fuel' =>
      let acc' := (n mod 10)%N :: acc in
      if (n / 10 =? 0)%N then acc' else digits_from fuel' (n / 10)%N acc'
  end.

Definition decimal_digits (n : N) : list N :=
  digits_from (S (N.to_nat (N.size n))) n [].

Definition digits_value (ds : list N) : N :=
  fold_left (fun a d => a * 10 + d)%N ds 0%N.

(** The longest run of digit characters in front of [s]: the digits and
    the rest. *)
Fixpoint take_digits (s : jsstring) : list N * jsstring :=
  match s with
  | c :: s' =>
      if is_digit c
      then let '(ds, rest) := take_digits s' in ((c - 48)%N :: ds, rest)
      else ([], s)
  | [] => ([], [])
  end.

(** *** Number to text: [Number::toString] in radix 10 *)

Fixpoint strip_zeros (rev_digits : list N) : list N :=
  match rev_digits with
  | d :: ds => if (d =? 0)%N then strip_zeros ds else rev_digits
  | [] => []
  end.

Definition Number_toString (x : number) : jsstring :=
  if mantissa x =? 0 then [48%N]
  else
    let sign := if mantissa x <? 0 then [45%N] else [] in
    let all := decimal_digits (Z.abs_N (mantissa x)) in
    let ds := rev (strip_zeros (rev all)) in
    let k := Z.of_nat (length ds) in
    let n := Z.of_nat (length all) - Z.of_nat (scale x) in
    let chars := map digit_char in
    sign ++
    (if (k <=? n) && (n <=? 21) then
       chars ds ++ replicate (Z.to_nat (n - k)) 48%N
     else if (0 <? n) && (n <=? 21) then
       chars (take (Z.to_nat n) ds) ++ [46%N] ++ chars (drop (Z.to_nat n) ds)
     else if (-6 <? n) && (n <=? 0) then
       [48%N; 46%N] ++ replicate (Z.to_nat (- n)) 48%N ++ chars ds
     else
       let e := n - 1 in
       let exponent := [101%N] ++ (if e <? 0 then [45%N] else [43%N])
                         ++ chars (decimal_digits (Z.abs_N e)) in
       match ds with
       | [d] => chars [d] ++ exponent
       | d :: ds' => chars [d] ++ [46%N] ++ chars ds' ++ exponent
       | [] => exponent
       end).

(** *** Text to number: the JSON number grammar

    An optional minus sign; then a single zero, or a digit from 1 to 9
    followed by any digits; then, optionally, a point and at least one
    digit; then, optionally, [e] or [E], an optional sign and at least one
    digit. *)

(** [mantissa / 10^scale] brought to the least scale. *)
Fixpoint normalize (m : Z) (scale : nat) : number :=
  match scale with
  | O => mkNumber m 0
  | S scale' =>
      if m mod 10 =? 0 then normalize (m / 10) scale' else mkNumber m scale
  end.

Definition make_number (negative : bool) (int_digits frac_digits : list N) (e : Z)
  : number :=
  let d := Z.of_N (digits_value (int_digits ++ frac_digits)) in
  let m := if negative then - d else d in
  let k := Z.of_nat (length frac_digits) in
  if k <=? e then mkNumber (m * 10 ^ (e - k)) 0
  else normalize m (Z.to_nat (k - e)).

Definition parse_exponent (s : jsstring) : option (Z * jsstring) :=
  match s with
  | c :: s1 =>
      if ((c =? 101) || (c =? 69))%N then
        let '(negative, s2) :=
          match s1 with
          | c1 :: t => if (c1 =? 45)%N then (true, t)
                       else if (c1 =? 43)%N then (false, t) else (false, s1)
          | [] => (false, s1)
          end in
        match take_digits s2 with
        | ([], _) => None
        | (ds, rest) =>
            let e := Z.of_N (digits_value ds) in
            Some (if negative then - e else e, rest)
        end
      else Some (0, s)
  | [] => Some (0, s)
  end.

Definition parse_fraction (s : jsstring) : option (list N * jsstring) :=
  match s with
  | c :: s1 =>
      if (c =? 46)%N then
        match take_digits s1 with
        | ([], _) => None
        | (ds, rest) => Some (ds, rest)
        end
      else Some ([], s)
  | [] => Some ([], s)
  end.

Definition parse_number (s : jsstring) : option (number * jsstring) :=
  let '(negative, s1) :=
    match s with
    | c :: t => if (c =? 45)%N then (true, t) else (false, s)
    | [] => (false, s)
    end in
  let int_part :=
    match s1 with
    | c :: t =>
        if (c =? 48)%N then Some ([0%N], t)
        else if is_digit c then Some (take_digits s1)
        else None
    | [] => None
    end in
  match int_part with
  | Some (int_digits, s2) =>
      match parse_fraction s2 with
      | Some (frac_digits, s3) =>
          match parse_exponent s3 with
          | Some (e, s4) => Some (make_number negative int_digits frac_digits e, s4)
          | None => None
          end
      | None => None
      end
  | None => None
  end.

(** *** String to text: [QuoteJSONString] *)

Definition hex_char (d : N) : N := (if d <? 10 then 48 + d else 87 + d)%N.

(** A backslash, [u] and four lower-case hexadecimal digits. *)
Definition unicode_escape (c : N) : jsstring :=
  [92; 117; hex_char (c / 4096 mod 16); hex_char (c / 256 mod 16);
   hex_char (c / 16 mod 16); hex_char (c mod 16)]%N.

Definition is_leading_surrogate (c : N) : bool := ((0xD800 <=? c) && (c <=? 0xDBFF))%N.
Definition is_trailing_surrogate (c : N) : bool := ((0xDC00 <=? c) && (c <=? 0xDFFF))%N.

(** A code unit that is not a surrogate. *)
Definition quote_unit (c : N) : jsstring :=
  (if c =? 8 then [92; 98]
   else if c =? 9 then [92; 116]
   else if c =? 10 then [92; 110]
   else if c =? 12 then [92; 102]
   else if c =? 13 then [92; 114]
   else if c =? 34 then [92; 34]
   else if c =? 92 then [92; 92]
   else if c <? 32 then unicode_escape c
   else [c])%N.

(** A surrogate pair is copied; a surrogate on its own is escaped. *)
Fixpoint quote_units (s : jsstring) : jsstring :=
  match s with
  | [] => []
  | c :: s1 =>
      if is_leading_surrogate c then
        match s1 with
        | d :: s2 =>
            if is_trailing_surrogate d then c :: d :: quote_units s2
            else unicode_escape c ++ quote_units s1
        | [] => unicode_escape c
        end
      else if is_trailing_surrogate c then unicode_escape c ++ quote_units s1
      else quote_unit c ++ quote_units s1
  end.

Definition quote (s : jsstring) : jsstring := [34%N] ++ quote_units s ++ [34%N].

(** *** Text to string: a JSON string after its opening quote *)

Definition hex_value (c : N) : option N :=
  (if (48 <=? c) && (c <=? 57) then Some (c - 48)
   else if (97 <=? c) && (c <=? 102) then Some (c - 87)
   else if (65 <=? c) && (c <=? 70) then Some (c - 55)
   else None)%N.

Definition simple_escape (c : N) : option N :=
  (if c =? 34 then Some 34
   else if c =? 92 then Some 92
   else if c =? 47 then Some 47
   else if c =? 98 then Some 8
   else if c =? 102 then Some 12
   else if c =? 110 then Some 10
   else if c =? 114 then Some 13
   else if c =? 116 then Some 9
   else None)%N.

Definition cons_unit (c : N) (r : option (jsstring * jsstring))
  : option (jsstring * jsstring) :=
  match r with
  | Some (units, rest) => Some (c :: units, rest)
  | None => None
  end.

(** The units up to the closing quote, and the text after it. *)
Fixpoint parse_string (s : jsstring) : option (jsstring * jsstring) :=
  match s with
  | [] => None
  | c :: s1 =>
      if (c =? 34)%N then Some ([], s1)
      else if (c =? 92)%N then
        match s1 with
        | e :: s2 =>
            if (e =? 117)%N then
              match s2 with
              | h1 :: h2 :: h3 :: h4 :: s3 =>
                  match hex_value h1, hex_value h2, hex_value h3, hex_value h4 with
                  | Some x1, Some x2, Some x3, Some x4 =>
                      cons_unit (x1 * 4096 + x2 * 256 + x3 * 16 + x4)%N (parse_string s3)
                  | _, _, _, _ => None
                  end
              | _ => None
              end
            else
              match simple_escape e with
              | Some u => cons_unit u (parse_string s2)
              | None => None
              end
        | [] => None
        end
      else if (c <? 32)%N then None
      else cons_unit c (parse_string s1)
  end.

(** *** Objects

    Property order: array-index keys first, in ascending order, then the
    other keys in the order of their creation; defining a key again
    replaces its value where it stands. *)

Definition array_index (key : jsstring) : option N :=
  match take_digits key with
  | (d :: ds, []) =>
      if (d =? 0)%N && negb (bool_decide (ds = [])) then None
      else let i := digits_value (d :: ds) in
           if (i <? 4294967295)%N then Some i else None
  | _ => None
  end.

Definition ordered_before (key key' : jsstring) : bool :=
  match array_index key, array_index key' with
  | Some i, Some j => (i <? j)%N
  | Some _, None => true
  | None, _ => false
  end.

Fixpoint define_property (key : jsstring) (v : json) (members : list (jsstring * json))
  : list (jsstring * json) :=
  match members with
  | [] => [(key, v)]
  | (key', v') :: members' =>
      if bool_decide (key = key') then (key, v) :: members'
      else if ordered_before key key' then (key, v) :: members
      else (key', v') :: define_property key v members'
  end.

(** *** Text to value *)

Definition is_json_space (c : N) : bool :=
  ((c =? 32) || (c =? 9) || (c =? 10) || (c =? 13))%N.

Fixpoint skip_ws (s : jsstring) : jsstring :=
  match s with
  | c :: s1 => if is_json_space c then skip_ws s1 else s
  | [] => []
  end.

Fixpoint strip_prefix (prefix s : jsstring) : option jsstring :=
  match prefix, s with
  | [], _ => Some s
  | a :: prefix', c :: s1 => if (a =? c)%N then strip_prefix prefix' s1 else None
  | _ :: _, [] => None
  end.

(** A recursive-descent reading of one value in front of [s], with the
    text left over.  Every call spends one unit of [fuel]; see
    [parse_value_fuel] for the amount that is always enough. *)
Fixpoint parse_value (fuel : nat) (s : jsstring) {struct fuel}
  : option (json * jsstring) :=
  match fuel with
  | O => None
  | S fuel' =>
      match skip_ws s with
      | [] => None
      | c :: s1 =>
          if (c =? 91)%N then
            match skip_ws s1 with
            | c1 :: s2 =>
                if (c1 =? 93)%N then Some (JArray [], s2)
                else parse_elements fuel' s1 []
            | [] => None
            end
          else if (c =? 123)%N then
            match skip_ws s1 with
            | c1 :: s2 =>
                if (c1 =? 125)%N then Some (JObject [], s2)
                else parse_members fuel' s1 []
            | [] => None
            end
          else if (c =? 34)%N then
            match parse_string s1 with
            | Some (units, rest) => Some (JString units, rest)
            | None => None
            end
          else if (c =? 116)%N then
            match strip_prefix (str "rue") s1 with
            | Some rest => Some (JBool true, rest)
            | None => None
            end
          else if (c =? 102)%N then
            match strip_prefix (str "alse") s1 with
            | Some rest => Some (JBool false, rest)
            | None => None
            end
          else if (c =? 110)%N then
            match strip_prefix (str "ull") s1 with
            | Some rest => Some (JNull, rest)
            | None => None
            end
          else
            match parse_number (c :: s1) with
            | Some (n, rest) => Some (JNumber n, rest)
            | None => None
            end
      end
  end

(** The elements of an array after its bracket; [acc] holds the elements
    read so far, last first. *)
with parse_elements (fuel : nat) (s : jsstring) (acc : list json) {struct fuel}
  : option (json * jsstring) :=
  match fuel with
  | O => None
  | S fuel' =>
      match parse_value fuel' s with
      | Some (v, rest) =>
          match skip_ws rest with
          | c :: rest1 =>
              if (c =? 44)%N then parse_elements fuel' rest1 (v :: acc)
              else if (c =? 93)%N then Some (JArray (rev (v :: acc)), rest1)
              else None
          | [] => None
          end
      | None => None
      end
  end

(** The members of an object after its brace; [acc] is the object built so
    far. *)
with parse_members (fuel : nat) (s : jsstring) (acc : list (jsstring * json))
    {struct fuel} : option (json * jsstring) :=
  match fuel with
  | O => None
  | S fuel' =>
      match skip_ws s with
      | c :: s1 =>
          if (c =? 34)%N then
            match parse_string s1 with
            | Some (key, s2) =>
                match skip_ws s2 with
                | c2 :: s3 =>
                    if (c2 =? 58)%N then
                      match parse_value fuel' s3 with
                      | Some (v, rest) =>
                          let acc' := define_property key v acc in
                          match skip_ws rest with
                          | c3 :: rest1 =>
                              if (c3 =? 44)%N then parse_members fuel' rest1 acc'
                              else if (c3 =? 125)%N then Some (JObject acc', rest1)
                              else None
                          | [] => None
                          end
                      | None => None
                      end
                    else None
                | [] => None
                end
            | None => None
            end
          else None
      | [] => None
      end
  end.

(** [JSON.parse(text)]: one value, white space around it, nothing else. *)
Definition JSON_parse (text : jsstring) : completion json :=
  match parse_value (2 * length text + 1) text with
  | Some (v, rest) =>
      match skip_ws rest with
      | [] => Return v
      | _ :: _ => Throw "SyntaxError"
      end
  | None => Throw "SyntaxError"
  end.

(** *** Value to text: [JSON.stringify(value, null, 2)] *)

Definition gap : jsstring := str "  ".

Fixpoint join (separator : jsstring) (items : list jsstring) : jsstring :=
  match items with
  | [] => []
  | [item] => item
  | item :: items' => item ++ separator ++ join separator items'
  end.

Fixpoint serialize (indent : jsstring) (v : json) {struct v} : jsstring :=
  match v with
  | JNull => str "null"
  | JBool true => str "true"
  | JBool false => str "false"
  | JNumber n => Number_toString n
  | JString s => quote s
  | JArray [] => str "[]"
  | JArray elements =>
      let stepback := indent in
      let indent := indent ++ gap in
      str "[" ++ [10%N] ++ indent
        ++ join ([44%N; 10%N] ++ indent) (map (serialize indent) elements)
        ++ [10%N] ++ stepback ++ str "]"
  | JObject [] => str "{}"
  | JObject members =>
      let stepback := indent in
      let indent := indent ++ gap in
      str "{" ++ [10%N] ++ indent
        ++ join ([44%N; 10%N] ++ indent)
             (map (fun member => let '(key, x) := member in
                                 quote key ++ str ": " ++ serialize indent x)
                  members)
        ++ [10%N] ++ stepback ++ str "}"
  end.

Definition JSON_stringify (v : json) : jsstring := serialize [] v.

(** ** The high-score file (memory.js lines 9, 15-31, 47-50) *)

(** What is at [HIGHSCORE_FILE]: nothing, or a text.  The file is read and
    written as UTF-8; the encoding is left out, a file holds the text that
    was written to it. *)
Inductive file_state : Type :=
  | Absent
  | Content (data : jsstring).

(** [fs.readFile(HIGHSCORE_FILE, 'utf8')] *)
Definition readFile (file : file_state) : completion jsstring :=
  match file with
  | Content data => Return data
  | Absent => Throw "ENOENT: no such file or directory"
  end.

(** [fs.writeFile(HIGHSCORE_FILE, data)], when the write succeeds. *)
Definition writeFile (data : jsstring) : file_state := Content data.

(** [try { body } catch { handler }] *)
Definition try_catch {A} (body handler : completion A) : completion A :=
  match body with
  | Return a => Return a
  | Throw _ => handler
  end.

(** Lines 15-22. *)
Definition loadHighScores (file : file_state) : completion json :=
  try_catch
    (match readFile file with
     | Return data => JSON_parse data
     | Throw e => Throw e
     end)
    (Return (JArray [])).

(** The value [{ name, score, date }] of a record, and the array of a
    leaderboard. *)
Definition json_of_record (r : ScoreRecord) : json :=
  JObject [(str "name", JString (name r));
           (str "score", JNumber (mkNumber (score r) 0));
           (str "date", JString (date r))].

Definition json_of_leaderboard (l : list ScoreRecord) : json :=
  JArray (map json_of_record l).

(** The records a loaded value stands for, when it is an array of objects
    with a string [name], an integer [score] and a string [date], in this
    order. *)
Definition record_of_json (v : json) : option ScoreRecord :=
  match v with
  | JObject [(k1, JString n); (k2, JNumber (mkNumber z O)); (k3, JString d)] =>
      if bool_decide (k1 = str "name") && bool_decide (k2 = str "score")
         && bool_decide (k3 = str "date")
      then Some (mkScoreRecord n z d)
      else None
  | _ => None
  end.

Fixpoint records_of_json (elements : list json) : option (list ScoreRecord) :=
  match elements with
  | [] => Some []
  | v :: elements' =>
      match record_of_json v, records_of_json elements' with
      | Some r, Some l => Some (r :: l)
      | _, _ => None
      end
  end.

Definition leaderboard_of_json (v : json) : option (list ScoreRecord) :=
  match v with
  | JArray elements => records_of_json elements
  | _ => None
  end.

(** Line 30: [fs.writeFile(HIGHSCORE_FILE, JSON.stringify(highScores, null, 2))]. *)
Definition persist (highScores : list ScoreRecord) : file_state :=
  writeFile (JSON_stringify (json_of_leaderboard highScores)).

(** Lines 25-31, with [now] the result of [new Date().toISOString()].
    [None]: the loaded value is not an array of score records; what push,
    sort and splice do then (or the TypeError they raise) is not
    modelled. *)
Definition saveHighScore (now : jsstring) (score : Z) (name : jsstring)
    (file : file_state) : option file_state :=
  match loadHighScores file with
  | Return v =>
      match leaderboard_of_json v with
      | Some highScores => Some (persist (merge highScores (mkScoreRecord name score now)))
      | None => None
      end
  | Throw _ => None
  end.

(** Lines 47-50. *)
Definition resetHighScores : file_state := writeFile (JSON_stringify (JArray [])).

(** ** Vocabulary of the properties *)

(** The flag of a cell as the program tests it: [revealed[row][col]] taken
    for its truth. *)
Definition revealed_at (mask : list (list bool)) (row col : value) : bool :=
  match get mask row with
  | Some cells => default false (get cells col)
  | None => false
  end.

(** Four rows of four cells. *)
Definition grid {A} (g : list (list A)) : Prop :=
  length g = 4%nat /\ Forall (fun row => length row = 4%nat) g.

(** A 0-based row or column number. *)
Definition in_range (v : value) : Prop := exists z, v = Num z /\ 0 <= z <= 3.

(** The states [playGame] goes through: two grids; inside the loop fewer
    than 8 matches; at the second prompt the first card lies face up. *)
Definition well_formed (st : RoundState) : Prop :=
  grid (board st) /\ grid (revealed st) /\
  match control_at st with
  | FirstPrompt => matches st < 8
  | SecondPrompt row1 col1 =>
      matches st < 8 /\ in_range row1 /\ in_range col1 /\
      revealed_at (revealed st) row1 col1 = true
  | Finished => 8 <= matches st
  end.

(** The three ways a reveal attempt fails. *)
Inductive failed_attempt (st : RoundState) (input : jsstring) : Prop :=
  | out_of_range (message : string) :
      parseCoordinates input = Throw message ->
      failed_attempt st input
  | already_revealed (row col : value) :
      parseCoordinates input = Return (row, col) ->
      revealed_at (revealed st) row col = true ->
      failed_attempt st input
  | same_as_first (row1 col1 : value) :
      control_at st = SecondPrompt row1 col1 ->
      parseCoordinates input = Return (row1, col1) ->
      failed_attempt st input.

(** A cell that lies face up and is not the first card of a turn under
    way. *)
Definition settled (st : RoundState) (row col : value) : Prop :=
  revealed_at (revealed st) row col = true /\
  match control_at st with
  | SecondPrompt row1 col1 => (row, col) <> (row1, col1)
  | _ => True
  end.

(** The second reveal as the specification words it: picking the first card
    again is told apart, by what the player is answered, from picking a
    card that lies face up. *)
Definition same_as_first_distinct (st : RoundState) (row1 col1 : value) : Prop :=
  forall input other row col,
    parseCoordinates input = Return (row1, col1) ->
    parseCoordinates other = Return (row, col) ->
    (row, col) <> (row1, col1) ->
    revealed_at (revealed st) row col = true ->
    validate_second (revealed st) row1 col1 input
    <> validate_second (revealed st) row1 col1 other.

(** The Fisher-Yates shuffle as the specification words it, on a plain
    list: for [i] from the last index down to 1, the elements at [i] and at
    the chosen index [choose i] change places. *)
Definition swap_list {A} (l : list A) (i j : nat) : list A :=
  match l !! j, l !! i with
  | Some x, Some y => <[j := y]> (<[i := x]> l)
  | _, _ => l
  end.

Fixpoint fisher_yates {A} (choose : nat -> nat) (i : nat) (l : list A) : list A :=
  match i with
  | O => l
  | S i' => fisher_yates choose i' (swap_list l i (choose i))
  end.

(** The index drawn for position [i] by a shuffle that starts when
    [Math.random()] has been called [calls] times, on an array whose last
    index is [last]. *)
Definition drawn (random : nat -> Q) (calls last : nat) (i : nat) : nat :=
  Z.to_nat (random_index (random (calls + (last - i))%nat) i).


(** [n] rounds one after the other, as far as the store goes: each
    [playGame] calls [createBoard] once and touches no array of symbols
    after that. *)
Fixpoint boards_of_rounds (random : nat -> Q) (n : nat) : M (list (list (list string))) :=
  match n with
  | O => ret []
  | S n' =>
      do cards <- createBoard random;
      do rest <- boards_of_rounds random n';
      ret (cards :: rest)
  end.

(** A text that is no JSON value: however far the parser is allowed to go,
    it does not read the text as one value with only white space left. *)
Definition malformed (text : jsstring) : Prop :=
  forall fuel v rest, parse_value fuel text = Some (v, rest) -> skip_ws rest <> [].

(** What may follow a written integer: nothing, or a character that the
    number grammar cannot go on with (no digit, point or exponent mark). *)
Definition number_ends (rest : jsstring) : Prop :=
  match rest with
  | [] => True
  | c :: _ => is_digit c = false /\ c <> 46%N /\ c <> 101%N /\ c <> 69%N
  end.

(** The text of a non-empty leaderboard after its opening bracket: each
    record on a new line, two spaces in; a comma between two records; a
    new line and the closing bracket after the last one. *)
Fixpoint records_text (r : ScoreRecord) (rs : list ScoreRecord) (rest : jsstring)
  : jsstring :=
  ([10%N] ++ gap) ++ serialize gap (json_of_record r) ++
  match rs with
  | [] => 10%N :: 93%N :: rest
  | r' :: rs' => 44%N :: records_text r' rs' rest
  end.

(** An integer that a JS number holds exactly. *)
Definition safe_integer (z : Z) : Prop := Z.abs z < 2 ^ 53.

(** ** Sample data *)

Definition leaderboard_example : list ScoreRecord :=
  [mkScoreRecord (str "Ada") 90 (str "2024-01-01T00:00:00.000Z");
   mkScoreRecord (str "Bob") 80 (str "2024-01-02T00:00:00.000Z");
   mkScoreRecord (str "Cy") 70 (str "2024-01-03T00:00:00.000Z");
   mkScoreRecord (str "Di") 60 (str "2024-01-04T00:00:00.000Z");
   mkScoreRecord (str "Ed") 50 (str "2024-01-05T00:00:00.000Z")].

Definition entry_example : ScoreRecord :=
  mkScoreRecord (str "Flo") 75 (str "2024-01-06T00:00:00.000Z").

Definition sample_board : list (list string) :=
  [["A"; "B"; "A"; "B"]; ["C"; "C"; "D"; "D"];
   ["E"; "F"; "E"; "F"]; ["G"; "H"; "H"; "G"]]%string.

(** The round on [sample_board] once the two B of the first row are
    matched and the A at 1,1 is picked as the first card of the next
    turn. *)
Definition sample_turn : RoundState :=
  mkRound sample_board
    [[true; true; false; true]; [false; false; false; false];
     [false; false; false; false]; [false; false; false; false]]
    1 1 (SecondPrompt (Num 0) (Num 0)).

(** A source of randomness that always answers one half. *)
Definition midpoint (n : nat) : Q := 1 # 2.

(** ** The screen (memory.js lines 34-44, 72-82)

    [chalk] wraps a text in the escape codes of a colour, or leaves it as it
    is when the terminal has no colours: its functions are parameters. *)

Record Chalk := mkChalk {
  chalk_blue : jsstring -> jsstring;
  chalk_green : jsstring -> jsstring;
  chalk_gray : jsstring -> jsstring;
  chalk_yellow : jsstring -> jsstring
}.

(** Line 77: the text of one cell.  [None] is the TypeError on an absent
    row, of the mask or, for a cell face up, of the board; a cell absent
    from its row prints as [undefined]. *)
Definition display_cell (chalk : Chalk) (board : list (list string))
    (revealed : list (list bool)) (i j : nat) : option jsstring :=
  match revealed !! i with
  | None => None
  | Some flags =>
      if default false (flags !! j) then
        match board !! i with
        | None => None
        | Some cells =>
            Some (chalk_green chalk
                    (match cells !! j with
                     | Some symbol => str symbol
                     | None => str "undefined"
                     end))
        end
      else Some (chalk_gray chalk (str "*"))
  end.

(** Lines 76-79: the inner loop, entered at column [j] with [n] iterations
    to go and the text of the row so far. *)
Fixpoint displayBoard_cells (chalk : Chalk) (board : list (list string))
    (revealed : list (list bool)) (i j n : nat) (row : jsstring) : option jsstring :=
  match n with
  | O => Some row
  | S n' =>
      match display_cell chalk board revealed i j with
      | Some cell =>
          displayBoard_cells chalk board revealed i (S j) n' (row ++ (cell ++ str " "))
      | None => None
      end
  end.

(** Lines 74-81: the outer loop; the lines it logs, in order. *)
Fixpoint displayBoard_rows (chalk : Chalk) (board : list (list string))
    (revealed : list (list bool)) (i n : nat) : option (list jsstring) :=
  match n with
  | O => Some []
  | S n' =>
      match displayBoard_cells chalk board revealed i 0 4
              (Number_toString (mkNumber (Z.of_nat i + 1) 0) ++ str " ") with
      | Some row =>
          match displayBoard_rows chalk board revealed (S i) n' with
          | Some rows => Some (row :: rows)
          | None => None
          end
      | None => None
      end
  end.

(** Lines 72-82: what [displayBoard] logs.  [None]: a TypeError ends it
    (the lines logged before the error are not kept). *)
Definition displayBoard (chalk : Chalk) (board : list (list string))
    (revealed : list (list bool)) : option (list jsstring) :=
  match displayBoard_rows chalk board revealed 0 4 with
  | Some rows => Some (chalk_blue chalk (str "  1 2 3 4") :: rows)
  | None => None
  end.

(** Line 42: the template literal of one entry. *)
Definition entry_line (index : nat) (entry : ScoreRecord) : jsstring :=
  Number_toString (mkNumber (Z.of_nat index + 1) 0) ++ str ". " ++ name entry
    ++ str " - " ++ Number_toString (mkNumber (score entry) 0)
    ++ str " points (" ++ date entry ++ str ")".

(** Lines 34-44: what [showHighScores] logs.  [None]: the loaded value is
    not an array of score records, as for [saveHighScore]. *)
Definition showHighScores (chalk : Chalk) (file : file_state) : option (list jsstring) :=
  match loadHighScores file with
  | Return v =>
      match leaderboard_of_json v with
      | Some highScores =>
          if bool_decide (length highScores = 0%nat)
          then Some [chalk_yellow chalk (str "No high scores yet.")]
          else Some (chalk_blue chalk (str "High Scores:") :: imap entry_line highScores)
      | None => None
      end
  | Throw _ => None
  end.

(** ** Vocabulary of the further properties *)

(** Several scores saved one after the other; each entry carries the name,
    the score and the date of its save. *)
Fixpoint save_all (entries : list ScoreRecord) (file : file_state) : option file_state :=
  match entries with
  | [] => Some file
  | entry :: entries' =>
      match saveHighScore (date entry) (score entry) (name entry) file with
      | Some file' => save_all entries' file'
      | None => None
      end
  end.

(** The place of an element that comes last in the array to sort: behind
    every element that does not have to follow it. *)
Fixpoint insert_last {A} (comparefn : A -> A -> Z) (x : A) (l : list A) : list A :=
  match l with
  | [] => [x]
  | y :: l' => if 0 <? comparefn y x then x :: l else y :: insert_last comparefn x l'
  end.

(** The number of cards that lie face up. *)
Definition face_up (mask : list (list bool)) : nat :=
  length (filter (fun b => b = true) (concat mask)).

(** The states of a round on [cards]: those the lines of a player lead to. *)
Definition reached (cards : list (list string)) (st : RoundState) : Prop :=
  grid cards /\ exists inputs, run (start cards) inputs = Some st.

(** A second sample board, equal to [sample_board] on its first row only. *)
Definition other_board : list (list string) :=
  [["A"; "B"; "A"; "B"]; ["D"; "D"; "C"; "C"];
   ["F"; "E"; "F"; "E"]; ["H"; "G"; "G"; "H"]]%string.

(** A terminal without colours. *)
Definition plain : Chalk := mkChalk id id id id.

(** The card turned and not yet answered: one at the second prompt. *)
Definition card_in_hand (st : RoundState) : Z :=
  match control_at st with
  | SecondPrompt _ _ => 1
  | _ => 0
  end.

(** Every settled card has a partner: another settled card, of the same
    symbol. *)
Definition paired (st : RoundState) : Prop :=
  forall row col, in_range row -> in_range col -> settled st row col ->
    exists row' col',
      in_range row' /\ in_range col' /\ (row', col') <> (row, col) /\
      settled st row' col' /\
      symbol_at (board st) row' col' = symbol_at (board st) row col.

(** A whole round on [sample_board] without a miss, and the state it
    ends in. *)
Definition sample_game : list jsstring :=
  map str ["1,1"; "1,3"; "1,2"; "1,4"; "2,1"; "2,2"; "2,3"; "2,4";
           "3,1"; "3,3"; "3,2"; "3,4"; "4,1"; "4,4"; "4,2"; "4,3"]%string.

Definition sample_end : RoundState :=
  mkRound sample_board (replicate 4 (replicate 4 true)) 8 8 Finished.

(** The state of [sample_turn] one turn earlier, at the first prompt. *)
Definition sample_first : RoundState :=
  mkRound sample_board
    [[false; true; false; true]; [false; false; false; false];
     [false; false; false; false]; [false; false; false; false]]
    1 1 FirstPrompt.

(* ===================================================================== *)
(** * Part II.  Properties                                                *)
(* ===================================================================== *)

(** ** Scoring *)

Lemma computeScore_floor (moves : Z) : 10 <= computeScore moves.
Proof. unfold computeScore. lia. Qed.

Lemma computeScore_antitone (m1 m2 : Z) :
  m1 <= m2 -> computeScore m2 <= computeScore m1.
Proof. unfold computeScore. lia. Qed.

(** C1.  The score of a round is [max(100 - moves*5, 10)]; it does not
    increase when the number of moves does, it is never below 10, and it
    is 100, 60 and 10 after 0, 8 and 30 moves. *)
Theorem score_of_round (st : RoundState) (m1 m2 : Z) (Hle : m1 <= m2) :
  final_score st = Z.max (100 - moves st * 5) 10 /\
  computeScore m2 <= computeScore m1 /\
  10 <= computeScore m1 /\
  computeScore 0 = 100 /\ computeScore 8 = 60 /\ computeScore 30 = 10.
Proof.
  split; [reflexivity|].
  split; [now apply computeScore_antitone|].
  split; [apply computeScore_floor|].
  repeat split.
Qed.

(** The score is 10 from the 18th move on, and only then. *)
Lemma computeScore_floor_reached (moves : Z) :
  computeScore moves = 10 <-> 18 <= moves.
Proof. unfold computeScore. lia. Qed.

(** ** The leaderboard *)

Section Sorting.

Context {A : Type} (key : A -> Z).

(** The comparator of line 28 for any field: descending by [key]. *)
Let descending (a b : A) : Z := key b - key a.

Let ge_key (a b : A) : Prop := key b <= key a.

Lemma sort_insert_Permutation (x : A) (l : list A) :
  sort_insert descending x l ≡ₚ x :: l.
Proof.
  induction l as [|y l IH]; simpl; [done|].
  destruct (0 <? descending x y); [|done].
  rewrite IH. apply Permutation_swap.
Qed.

Lemma array_sort_Permutation (l : list A) : array_sort descending l ≡ₚ l.
Proof.
  induction l as [|x l IH]; simpl; [done|].
  by rewrite sort_insert_Permutation, IH.
Qed.

Lemma sort_insert_sorted (x : A) (l : list A) :
  StronglySorted ge_key l -> StronglySorted ge_key (sort_insert descending x l).
Proof.
  induction 1 as [|y l Hl IH Hy]; simpl.
  - repeat constructor.
  - destruct (Z.ltb_spec 0 (descending x y)) as [Hlt|Hge].
    + constructor; [exact IH|].
      rewrite sort_insert_Permutation. constructor; [|exact Hy].
      unfold ge_key, descending in *. lia.
    + constructor; [by constructor|].
      constructor; [unfold ge_key, descending in *; lia|].
      eapply Forall_impl; [exact Hy|].
      unfold ge_key, descending in *. intros z Hz. simpl in Hz. lia.
Qed.

Lemma array_sort_sorted (l : list A) : StronglySorted ge_key (array_sort descending l).
Proof.
  induction l as [|x l IH]; simpl; [constructor|].
  by apply sort_insert_sorted.
Qed.

(** Stability: the elements with a given key keep their order. *)
Lemma sort_insert_stable (k : Z) (x : A) (l : list A) :
  StronglySorted ge_key l ->
  filter (fun a => key a = k) (sort_insert descending x l)
  = filter (fun a => key a = k) (x :: l).
Proof.
  induction 1 as [|y l Hl IH Hy]; simpl; [done|].
  destruct (Z.ltb_spec 0 (descending x y)) as [Hlt|Hge]; [|done].
  rewrite (filter_cons _ y), IH, !filter_cons.
  unfold descending in Hlt.
  destruct (decide (key y = k)), (decide (key x = k)); try done. lia.
Qed.

Lemma array_sort_stable (k : Z) (l : list A) :
  filter (fun a => key a = k) (array_sort descending l)
  = filter (fun a => key a = k) l.
Proof.
  induction l as [|x l IH]; simpl; [done|].
  rewrite sort_insert_stable by apply array_sort_sorted.
  by rewrite !filter_cons, IH.
Qed.

(** Sorting by a field and reading the field commute. *)
Lemma sort_insert_keys (x : A) (l : list A) :
  map key (sort_insert descending x l)
  = sort_insert (fun a b => b - a) (key x) (map key l).
Proof.
  induction l as [|y l IH]; simpl; [done|].
  unfold descending at 1. destruct (0 <? key y - key x); simpl; [|done].
  by rewrite IH.
Qed.

Lemma array_sort_keys (l : list A) :
  map key (array_sort descending l) = array_sort (fun a b => b - a) (map key l).
Proof.
  induction l as [|x l IH]; simpl; [done|].
  by rewrite sort_insert_keys, IH.
Qed.

End Sorting.

Lemma StronglySorted_take {A} (R : relation A) (n : nat) (l : list A) :
  StronglySorted R l -> StronglySorted R (take n l).
Proof.
  intros Hl. rewrite <- (take_drop n l) in Hl.
  by apply StronglySorted_app_1_l in Hl.
Qed.

Lemma merge_length (highScores : list ScoreRecord) (entry : ScoreRecord) :
  (length (merge highScores entry) <= 5)%nat.
Proof. unfold merge, splice_from. rewrite length_take. lia. Qed.

Lemma merge_sorted (highScores : list ScoreRecord) (entry : ScoreRecord) :
  StronglySorted (fun a b => score b <= score a) (merge highScores entry).
Proof. apply StronglySorted_take, (array_sort_sorted score). Qed.

(** Nothing is invented: the result is part of the old list and the entry. *)
Lemma merge_submseteq (highScores : list ScoreRecord) (entry : ScoreRecord) :
  merge highScores entry ⊆+ highScores ++ [entry].
Proof.
  unfold merge, splice_from.
  etransitivity; [apply submseteq_take|].
  by rewrite (array_sort_Permutation score).
Qed.

Lemma merge_scores (highScores : list ScoreRecord) (entry : ScoreRecord) :
  map score (merge highScores entry)
  = take 5 (array_sort (fun a b => b - a) (map score highScores ++ [score entry])).
Proof.
  unfold merge, splice_from.
  change (map score (take 5 ?l)) with (score <$> take 5 l).
  rewrite fmap_take. f_equal.
  change (score <$> ?l) with (map score l).
  rewrite (array_sort_keys score), map_app. reflexivity.
Qed.

(** C2.  Whatever the list and the entry, the merged list has at most 5
    records and is sorted by descending score; scores 90, 80, 70, 60, 50
    and a new 75 give 90, 80, 75, 70, 60. *)
Theorem merge_top_five (highScores : list ScoreRecord) (entry : ScoreRecord) :
  (length (merge highScores entry) <= 5)%nat /\
  StronglySorted (fun a b => score b <= score a) (merge highScores entry) /\
  (map score highScores = [90; 80; 70; 60; 50] -> score entry = 75 ->
   map score (merge highScores entry) = [90; 80; 75; 70; 60]).
Proof.
  split; [apply merge_length|].
  split; [apply merge_sorted|].
  intros Hscores Hentry. rewrite merge_scores, Hscores, Hentry. reflexivity.
Qed.

Lemma merge_top_five_witness :
  map score (merge leaderboard_example entry_example) = [90; 80; 75; 70; 60].
Proof.
  apply (merge_top_five leaderboard_example entry_example); reflexivity.
Defined.

Lemma score_of_round_witness :
  computeScore 8 <= computeScore 3 /\ final_score (start []) = 100.
Proof.
  split.
  - apply (score_of_round (start []) 3 8). lia.
  - reflexivity.
Defined.

(** ** The coordinate parser *)

Lemma regexp_test_coordinates (input : jsstring) :
  regexp_test coordinates_regexp input = true <->
  exists a b : N, (49 <= a <= 52)%N /\ (49 <= b <= 52)%N /\ input = [a; 44%N; b].
Proof.
  split.
  - destruct input as [|a [|c [|b [|? ?]]]]; simpl;
      rewrite ?andb_false_r; try discriminate.
    rewrite andb_true_r. intros H.
    apply andb_prop in H as [Ha H]. apply andb_prop in H as [Hc Hb].
    apply andb_prop in Ha as [Ha1 Ha2]. apply andb_prop in Hb as [Hb1 Hb2].
    apply N.leb_le in Ha1, Ha2, Hb1, Hb2. apply N.eqb_eq in Hc. subst c.
    exists a, b. repeat split; assumption.
  - intros (a & b & [Ha1 Ha2] & [Hb1 Hb2] & ->). simpl.
    apply N.leb_le in Ha1, Ha2, Hb1, Hb2.
    by rewrite Ha1, Ha2, Hb1, Hb2.
Qed.

Lemma digit_1_to_4 (a : N) :
  (49 <= a <= 52)%N -> a = 49%N \/ a = 50%N \/ a = 51%N \/ a = 52%N.
Proof. lia. Qed.

Lemma coordinate_text_inv (input : jsstring) (a b : N) :
  (49 <= a <= 52)%N -> (49 <= b <= 52)%N -> input = [a; 44%N; b] ->
  exists r c, 0 <= r <= 3 /\ 0 <= c <= 3 /\ input = coordinate_text r c /\
              parseCoordinates input = Return (Num r, Num c).
Proof.
  intros Ha Hb ->.
  exists (Z.of_N a - 49), (Z.of_N b - 49).
  split; [lia|]. split; [lia|].
  apply digit_1_to_4 in Ha, Hb.
  destruct Ha as [-> | [-> | [-> | ->]]], Hb as [-> | [-> | [-> | ->]]];
    split; reflexivity.
Qed.

(** C10.  [parseCoordinates] returns exactly on the sixteen texts [d,d]
    with both digits between 1 and 4, and then gives the two digits less
    one, both between 0 and 3; on any other text it throws.  The texts
    with a space, a leading zero or a 5 are among the rejected ones. *)
Theorem parseCoordinates_exact (input : jsstring) :
  ((exists r c, 0 <= r <= 3 /\ 0 <= c <= 3 /\ input = coordinate_text r c /\
                parseCoordinates input = Return (Num r, Num c))
   \/
   (~ (exists r c, 0 <= r <= 3 /\ 0 <= c <= 3 /\ input = coordinate_text r c) /\
    parseCoordinates input = Throw "Invalid format. Use coordinates (e.g., 1,2).")) /\
  parseCoordinates (str "1,2") = Return (Num 0, Num 1) /\
  Forall (fun text => parseCoordinates (str text)
                      = Throw "Invalid format. Use coordinates (e.g., 1,2).")
         [" 1,2"; "1, 2"; "01,2"; "5,1"; "1,2 "; "1;2"; "0,1"; "1,2,3"]%string.
Proof.
  split; [|split; [reflexivity | repeat constructor]].
  destruct (regexp_test coordinates_regexp input) eqn:Htest.
  - left. apply regexp_test_coordinates in Htest as (a & b & Ha & Hb & Hin).
    by apply (coordinate_text_inv input a b).
  - right. split.
    + intros (r & c & Hr & Hc & Hin).
      assert (regexp_test coordinates_regexp input = true) as Hyes; [|congruence].
      apply regexp_test_coordinates.
      exists (Z.to_N (49 + r)), (Z.to_N (49 + c)).
      split; [lia|]. split; [lia|]. exact Hin.
    + unfold parseCoordinates. by rewrite Htest.
Qed.

(** What the round needs of the parser. *)
Lemma parseCoordinates_Return (input : jsstring) (row col : value) :
  parseCoordinates input = Return (row, col) ->
  exists r c, 0 <= r <= 3 /\ 0 <= c <= 3 /\ row = Num r /\ col = Num c.
Proof.
  intros Hp.
  destruct (parseCoordinates_exact input) as [[(r & c & Hr & Hc & _ & Hret)|[_ Hthrow]] _].
  - rewrite Hret in Hp. injection Hp as <- <-. by exists r, c.
  - congruence.
Qed.

(** ** The reveal mask *)

Lemma index_of_in_range (v : value) :
  in_range v -> exists i, index_of v = Some i /\ (i < 4)%nat /\ v = Num (Z.of_nat i).
Proof.
  intros (z & -> & Hz). exists (Z.to_nat z). simpl.
  destruct (Z.leb_spec 0 z); [|lia].
  split; [done|]. split; [lia|]. f_equal. lia.
Qed.

Lemma put_lookup_eq (row : list bool) (j : nat) (b : bool) :
  put row j b !! j = Some b.
Proof.
  unfold put. destruct (Nat.ltb_spec j (length row)) as [Hlt|Hge].
  - by apply list_lookup_insert_eq.
  - rewrite lookup_app_r by lia.
    rewrite lookup_app_r by (rewrite length_replicate; lia).
    rewrite length_replicate, Nat.sub_diag. reflexivity.
Qed.

Lemma put_lookup_ne (row : list bool) (j j' : nat) (b : bool) :
  j <> j' -> default false (put row j b !! j') = default false (row !! j').
Proof.
  intros Hne. unfold put. destruct (Nat.ltb_spec j (length row)) as [Hlt|Hge].
  - by rewrite list_lookup_insert_ne.
  - destruct (Nat.lt_ge_cases j' (length row)) as [Hlt'|Hge'].
    + by rewrite lookup_app_l.
    + rewrite (lookup_ge_None_2 row j') by lia.
      rewrite lookup_app_r by lia.
      destruct (Nat.lt_ge_cases (j' - length row) (j - length row)) as [Hl|Hg].
      * rewrite lookup_app_l by (rewrite length_replicate; lia).
        by rewrite lookup_replicate_2.
      * rewrite lookup_app_r by (rewrite length_replicate; lia).
        rewrite length_replicate.
        destruct (j' - length row - (j - length row))%nat as [|k] eqn:Hk; [lia|].
        reflexivity.
Qed.

Lemma put_length (row : list bool) (j : nat) (b : bool) :
  (j < length row)%nat -> length (put row j b) = length row.
Proof.
  intros Hlt. unfold put.
  destruct (Nat.ltb_spec j (length row)); [apply length_insert | lia].
Qed.

Lemma set_flag_grid (mask : list (list bool)) (row col : value) (b : bool) :
  grid mask -> in_range row -> in_range col ->
  exists mask', set_flag mask row col b = Some mask' /\ grid mask'.
Proof.
  intros [Hlen Hrows] Hrow Hcol.
  apply index_of_in_range in Hrow as (i & Hi & Hi4 & _).
  apply index_of_in_range in Hcol as (j & Hj & Hj4 & _).
  unfold set_flag. rewrite Hi, Hj.
  destruct (lookup_lt_is_Some_2 mask i) as [cells Hcells]; [lia|].
  rewrite Hcells. eexists. split; [reflexivity|].
  split; [by rewrite length_insert|].
  apply Forall_insert; [exact Hrows|].
  rewrite put_length; [|].
  - eapply Forall_lookup_1 in Hrows; [exact Hrows | exact Hcells].
  - eapply Forall_lookup_1 in Hrows; [|exact Hcells]. simpl in Hrows. lia.
Qed.

(** After [revealed[row][col] = b] the cell reads [b] and every other cell
    reads as before. *)
Lemma revealed_at_set_flag (mask mask' : list (list bool)) (row col row' col' : value)
    (b : bool) :
  in_range row -> in_range col -> in_range row' -> in_range col' ->
  set_flag mask row col b = Some mask' ->
  revealed_at mask' row' col'
  = if bool_decide ((row', col') = (row, col)) then b else revealed_at mask row' col'.
Proof.
  intros Hrow Hcol Hrow' Hcol'.
  apply index_of_in_range in Hrow as (i & Hi & _ & ->).
  apply index_of_in_range in Hcol as (j & Hj & _ & ->).
  apply index_of_in_range in Hrow' as (i' & Hi' & _ & ->).
  apply index_of_in_range in Hcol' as (j' & Hj' & _ & ->).
  unfold set_flag, revealed_at, get. rewrite Hi, Hj, Hi', Hj'.
  destruct (mask !! i) as [cells|] eqn:Hcells; [|discriminate].
  intros [= <-].
  destruct (decide (i' = i)) as [->|Hne].
  - rewrite list_lookup_insert_eq by (by eapply lookup_lt_Some).
    rewrite Hcells.
    destruct (decide (j' = j)) as [->|Hnej].
    + rewrite bool_decide_true by done. by rewrite put_lookup_eq.
    + rewrite bool_decide_false by (intros [= ?]; lia).
      by rewrite put_lookup_ne.
  - rewrite list_lookup_insert_ne by done.
    rewrite bool_decide_false by (intros [= ?]; lia). reflexivity.
Qed.

(** ** The round *)

Lemma in_range_parseCoordinates (input : jsstring) (row col : value) :
  parseCoordinates input = Return (row, col) -> in_range row /\ in_range col.
Proof.
  intros Hp. apply parseCoordinates_Return in Hp as (r & c & Hr & Hc & -> & ->).
  split; eexists; eauto.
Qed.

Lemma strict_eq_in_range (a b : value) :
  in_range a -> strict_eq a b = bool_decide (a = b).
Proof.
  intros (z & -> & _). destruct b as [| |w]; simpl; try done.
  destruct (Z.eqb_spec z w) as [->|Hne].
  - by rewrite bool_decide_true.
  - rewrite bool_decide_false; [done|]. intros [= ?]. contradiction.
Qed.

Lemma validate_first_Valid (mask : list (list bool)) (input : jsstring) :
  validate_first mask input = Valid ->
  exists row col,
    parseCoordinates input = Return (row, col) /\ in_range row /\ in_range col /\
    is_Some (get mask row) /\ revealed_at mask row col = false.
Proof.
  unfold validate_first, revealed_at.
  destruct (parseCoordinates input) as [[row col]|] eqn:Hp; [|discriminate].
  destruct (in_range_parseCoordinates _ _ _ Hp) as [Hrow Hcol].
  destruct (get mask row) as [cells|] eqn:Hget; [|discriminate].
  destruct (default false (get cells col)) eqn:Hflag; [discriminate|].
  intros _. exists row, col. rewrite Hget. by split_and!.
Qed.

Lemma validate_second_Valid (mask : list (list bool)) (row1 col1 : value)
    (input : jsstring) :
  validate_second mask row1 col1 input = Valid ->
  exists row col,
    parseCoordinates input = Return (row, col) /\ in_range row /\ in_range col /\
    is_Some (get mask row) /\ revealed_at mask row col = false /\
    (row, col) <> (row1, col1).
Proof.
  unfold validate_second, revealed_at.
  destruct (parseCoordinates input) as [[row col]|] eqn:Hp; [|discriminate].
  destruct (in_range_parseCoordinates _ _ _ Hp) as [Hrow Hcol].
  destruct (get mask row) as [cells|] eqn:Hget; [|discriminate].
  destruct (default false (get cells col)) eqn:Hflag; [discriminate|].
  rewrite !strict_eq_in_range by done. simpl.
  intros Hv. exists row, col. rewrite Hget. split_and!; try done.
  intros [= -> ->]. rewrite !bool_decide_true in Hv by done. discriminate.
Qed.

(** A rejected line leaves [playGame] where it was. *)
Lemma step_rejected_first (st : RoundState) (input : jsstring) (message : string) :
  control_at st = FirstPrompt ->
  validate_first (revealed st) input = Invalid message -> step st input = Some st.
Proof. intros Hc Hv. unfold step. by rewrite Hc, Hv. Qed.

Lemma step_rejected_second (st : RoundState) (row1 col1 : value) (input : jsstring)
    (message : string) :
  control_at st = SecondPrompt row1 col1 ->
  validate_second (revealed st) row1 col1 input = Invalid message ->
  step st input = Some st.
Proof. intros Hc Hv. unfold step. by rewrite Hc, Hv. Qed.

Lemma failed_attempt_rejected (st : RoundState) (input : jsstring) :
  failed_attempt st input ->
  match control_at st with
  | FirstPrompt => exists message, validate_first (revealed st) input = Invalid message
  | SecondPrompt row1 col1 =>
      exists message, validate_second (revealed st) row1 col1 input = Invalid message
  | Finished => True
  end.
Proof.
  intros [message Hp | row col Hp Hflag | row1 col1 Hc Hp].
  - destruct (control_at st); [| |done];
      unfold validate_first, validate_second; rewrite Hp; eauto.
  - unfold revealed_at in Hflag.
    destruct (control_at st); [| |done];
      unfold validate_first, validate_second; rewrite Hp;
      destruct (get (revealed st) row); try discriminate;
      rewrite Hflag; simpl; eauto.
  - rewrite Hc. unfold validate_second. rewrite Hp.
    destruct (in_range_parseCoordinates _ _ _ Hp) as [Hrow Hcol].
    destruct (get (revealed st) row1); [|eauto].
    rewrite !strict_eq_in_range, !bool_decide_true by done.
    rewrite orb_true_r. simpl. eauto.
Qed.

(** C5.  A reveal attempt that fails, for coordinates that do not parse
    (out of range included), for a cell already face up or for the first
    card picked again, leaves the whole state of the round as it was: the
    mask, the two counters, and the prompt the program is waiting at; the
    lines typed afterwards are read as if the failed one had not been. *)
Theorem failed_reveal_changes_nothing (st : RoundState) (input : jsstring)
    (Hfail : failed_attempt st input) :
  step st input = Some st /\
  forall inputs, run st (input :: inputs) = run st inputs.
Proof.
  assert (step st input = Some st) as Hstep.
  { apply failed_attempt_rejected in Hfail.
    destruct (control_at st) as [|row1 col1|] eqn:Hc.
    - destruct Hfail as [message Hv]. by eapply step_rejected_first.
    - destruct Hfail as [message Hv]. by eapply step_rejected_second.
    - unfold step. by rewrite Hc. }
  split; [exact Hstep|]. intros inputs. simpl. by rewrite Hstep.
Qed.

(** The converse on the states of a round: a line is rejected only for
    one of the three reasons. *)
Lemma rejected_failed_attempt (st : RoundState) (input : jsstring) :
  grid (revealed st) ->
  match control_at st with
  | FirstPrompt => validate_first (revealed st) input <> Valid
  | SecondPrompt row1 col1 => validate_second (revealed st) row1 col1 input <> Valid
  | Finished => False
  end ->
  failed_attempt st input.
Proof.
  intros Hgrid Hrej.
  destruct (parseCoordinates input) as [[row col]|message] eqn:Hp;
    [|by eapply out_of_range].
  destruct (in_range_parseCoordinates _ _ _ Hp) as [Hrow Hcol].
  destruct (revealed_at (revealed st) row col) eqn:Hflag;
    [by eapply already_revealed|].
  destruct (index_of_in_range _ Hrow) as (i & Hi & Hi4 & _).
  destruct (lookup_lt_is_Some_2 (revealed st) i) as [cells Hcells];
    [destruct Hgrid; lia|].
  unfold revealed_at, get in Hflag. rewrite Hi, Hcells in Hflag.
  destruct (control_at st) as [|row1 col1|] eqn:Hc; [| |done].
  - exfalso. apply Hrej. unfold validate_first, get.
    by rewrite Hp, Hi, Hcells, Hflag.
  - destruct (decide ((row, col) = (row1, col1))) as [[= <- <-]|Hne];
      [by eapply same_as_first|].
    exfalso. apply Hrej. unfold validate_second, get.
    rewrite Hp, Hi, Hcells, Hflag, !strict_eq_in_range by done. simpl.
    destruct (decide (row = row1)) as [->|?];
      [|by rewrite (bool_decide_false (row = row1))].
    rewrite (bool_decide_false (col = col1)); [by rewrite andb_false_r|].
    intros ->. by apply Hne.
Qed.

Lemma symbol_at_grid (cards : list (list string)) (row col : value) :
  grid cards -> in_range row -> in_range col ->
  exists s, symbol_at cards row col = Some (Some s).
Proof.
  intros [Hlen Hrows] Hrow Hcol.
  apply index_of_in_range in Hrow as (i & Hi & Hi4 & _).
  apply index_of_in_range in Hcol as (j & Hj & Hj4 & _).
  unfold symbol_at, get. rewrite Hi, Hj.
  destruct (lookup_lt_is_Some_2 cards i) as [cells Hcells]; [lia|].
  rewrite Hcells.
  eapply Forall_lookup_1 in Hrows; [|exact Hcells]. simpl in Hrows.
  destruct (lookup_lt_is_Some_2 cells j) as [s Hs]; [lia|].
  rewrite Hs. by exists s.
Qed.

Lemma start_well_formed (cards : list (list string)) :
  grid cards -> well_formed (start cards).
Proof.
  intros Hcards. split; [exact Hcards|]. split; [|simpl; lia].
  split; [reflexivity | repeat constructor].
Qed.

(** An accepted first card: its flag is set, nothing else moves. *)
Lemma step_accepted_first (st : RoundState) (input : jsstring) :
  grid (revealed st) -> control_at st = FirstPrompt ->
  validate_first (revealed st) input = Valid ->
  exists row1 col1 mask1,
    parseCoordinates input = Return (row1, col1) /\
    in_range row1 /\ in_range col1 /\
    revealed_at (revealed st) row1 col1 = false /\
    set_flag (revealed st) row1 col1 true = Some mask1 /\ grid mask1 /\
    step st input
    = Some (mkRound (board st) mask1 (moves st) (matches st) (SecondPrompt row1 col1)).
Proof.
  intros Hgrid Hc Hv.
  destruct (validate_first_Valid _ _ Hv) as (row1 & col1 & Hp & Hrow & Hcol & _ & Hflag).
  destruct (set_flag_grid (revealed st) row1 col1 true) as (mask1 & Hset & Hgrid1);
    try done.
  exists row1, col1, mask1. split_and!; try done.
  unfold step. by rewrite Hc, Hv, Hp, Hset.
Qed.

(** An accepted second card: the move is counted; on equal symbols the
    match is counted and both flags stay, otherwise both are cleared. *)
Lemma step_accepted_second (st : RoundState) (row1 col1 : value) (input : jsstring) :
  well_formed st -> control_at st = SecondPrompt row1 col1 ->
  validate_second (revealed st) row1 col1 input = Valid ->
  exists row2 col2 mask2 s1 s2,
    parseCoordinates input = Return (row2, col2) /\
    in_range row2 /\ in_range col2 /\ (row2, col2) <> (row1, col1) /\
    revealed_at (revealed st) row2 col2 = false /\
    set_flag (revealed st) row2 col2 true = Some mask2 /\ grid mask2 /\
    symbol_at (board st) row1 col1 = Some (Some s1) /\
    symbol_at (board st) row2 col2 = Some (Some s2) /\
    ((s1 = s2 /\
      step st input
      = Some (mkRound (board st) mask2 (moves st + 1) (matches st + 1)
                (if matches st + 1 <? 8 then FirstPrompt else Finished)))
     \/
     (s1 <> s2 /\
      exists mask3 mask4,
        set_flag mask2 row1 col1 false = Some mask3 /\
        set_flag mask3 row2 col2 false = Some mask4 /\ grid mask4 /\
        step st input
        = Some (mkRound (board st) mask4 (moves st + 1) (matches st) FirstPrompt))).
Proof.
  intros (Hboard & Hgrid & Hwf) Hc Hv. rewrite Hc in Hwf.
  destruct Hwf as (Hmatches & Hrow1 & Hcol1 & Hflag1).
  destruct (validate_second_Valid _ _ _ _ Hv)
    as (row2 & col2 & Hp & Hrow2 & Hcol2 & _ & Hflag2 & Hne).
  destruct (set_flag_grid (revealed st) row2 col2 true) as (mask2 & Hset2 & Hgrid2);
    try done.
  destruct (symbol_at_grid (board st) row1 col1) as [s1 Hs1]; try done.
  destruct (symbol_at_grid (board st) row2 col2) as [s2 Hs2]; try done.
  exists row2, col2, mask2, s1, s2. split_and!; try done.
  unfold step. rewrite Hc, Hv, Hp, Hset2. unfold resolve. rewrite Hs1, Hs2.
  destruct (decide (s1 = s2)) as [->|Hs].
  - left. split; [done|]. by rewrite bool_decide_true.
  - right. split; [done|].
    rewrite bool_decide_false by congruence.
    destruct (set_flag_grid mask2 row1 col1 false) as (mask3 & Hset3 & Hgrid3);
      try done.
    destruct (set_flag_grid mask3 row2 col2 false) as (mask4 & Hset4 & Hgrid4);
      try done.
    exists mask3, mask4. rewrite Hset3, Hset4. split_and!; try done.
    destruct (Z.ltb_spec (matches st) 8); [done | lia].
Qed.

(** No line typed by the player takes the round out of its states or
    raises an error. *)
Lemma well_formed_step (st : RoundState) (input : jsstring) :
  well_formed st -> exists st', step st input = Some st' /\ well_formed st'.
Proof.
  intros Hwf. pose proof Hwf as (Hboard & Hgrid & Hctl).
  destruct (control_at st) as [|row1 col1|] eqn:Hc.
  - destruct (validate_first (revealed st) input) as [|message] eqn:Hv.
    + destruct (step_accepted_first st input)
        as (r & c & mask1 & Hp & Hr & Hcc & _ & Hset & Hgrid1 & Hstep); try done.
      eexists. split; [exact Hstep|].
      split_and!; try done. simpl. split_and!; try done.
      by rewrite (revealed_at_set_flag _ _ _ _ _ _ _ Hr Hcc Hr Hcc Hset),
        bool_decide_true.
    + exists st. split; [by eapply step_rejected_first | done].
  - destruct (validate_second (revealed st) row1 col1 input) as [|message] eqn:Hv.
    + destruct (step_accepted_second st row1 col1 input)
        as (r & c & mask2 & s1 & s2 & Hp & Hr & Hcc & Hne & _ & Hset & Hgrid2 & _ & _
            & [[_ Hstep] | [_ (mask3 & mask4 & _ & _ & Hgrid4 & Hstep)]]); try done.
      * eexists. split; [exact Hstep|].
        split_and!; try done. simpl.
        destruct (Z.ltb_spec (matches st + 1) 8); [done | lia].
      * eexists. split; [exact Hstep|].
        split_and!; try done. simpl. tauto.
    + exists st. split; [by eapply step_rejected_second | done].
  - exists st. split; [|done]. unfold step. by rewrite Hc.
Qed.

Lemma well_formed_run (st : RoundState) (inputs : list jsstring) :
  well_formed st -> exists st', run st inputs = Some st' /\ well_formed st'.
Proof.
  revert st. induction inputs as [|input inputs IH]; intros st Hwf; simpl.
  - by exists st.
  - destruct (well_formed_step st input Hwf) as (st1 & -> & Hwf1). by apply IH.
Qed.

(** A settled cell stays settled: the cards that an accepted line turns,
    and the ones a mismatch turns back, were face down before. *)
Lemma settled_step (st st' : RoundState) (input : jsstring) (row col : value) :
  well_formed st -> in_range row -> in_range col ->
  settled st row col -> step st input = Some st' -> settled st' row col.
Proof.
  intros Hwf Hrow Hcol [Hflag Hset] Hstep.
  pose proof Hwf as (Hboard & Hgrid & Hctl).
  destruct (control_at st) as [|row1 col1|] eqn:Hc.
  - destruct (validate_first (revealed st) input) as [|message] eqn:Hv.
    + destruct (step_accepted_first st input)
        as (r & c & mask1 & Hp & Hr & Hcc & Hdown & Hset1 & _ & Hstep'); try done.
      rewrite Hstep' in Hstep. injection Hstep as <-.
      assert ((row, col) <> (r, c)) as Hne by (intros [= -> ->]; congruence).
      split; simpl; [|done].
      by rewrite (revealed_at_set_flag _ _ _ _ _ _ _ Hr Hcc Hrow Hcol Hset1),
        bool_decide_false.
    + erewrite step_rejected_first in Hstep by done. injection Hstep as <-.
      split; [done | by rewrite Hc].
  - destruct Hctl as (_ & Hr1 & Hc1 & _).
    destruct (validate_second (revealed st) row1 col1 input) as [|message] eqn:Hv.
    + destruct (step_accepted_second st row1 col1 input)
        as (r & c & mask2 & s1 & s2 & Hp & Hr & Hcc & _ & Hdown & Hset2 & _ & _ & _
            & [[_ Hstep'] | [_ (mask3 & mask4 & Hset3 & Hset4 & _ & Hstep')]]);
        try done; rewrite Hstep' in Hstep; injection Hstep as <-.
      all: assert ((row, col) <> (r, c)) as Hne by (intros [= -> ->]; congruence).
      * split; simpl; [|by destruct (matches st + 1 <? 8)].
        by rewrite (revealed_at_set_flag _ _ _ _ _ _ _ Hr Hcc Hrow Hcol Hset2),
          bool_decide_false.
      * split; simpl; [|done].
        rewrite (revealed_at_set_flag _ _ _ _ _ _ _ Hr Hcc Hrow Hcol Hset4),
          bool_decide_false by done.
        rewrite (revealed_at_set_flag _ _ _ _ _ _ _ Hr1 Hc1 Hrow Hcol Hset3),
          bool_decide_false by done.
        by rewrite (revealed_at_set_flag _ _ _ _ _ _ _ Hr Hcc Hrow Hcol Hset2),
          bool_decide_false.
    + erewrite step_rejected_second in Hstep by done. injection Hstep as <-.
      split; [done | by rewrite Hc].
  - unfold step in Hstep. rewrite Hc in Hstep. injection Hstep as <-.
    split; [done | by rewrite Hc].
Qed.

Lemma settled_run (inputs : list jsstring) (st st' : RoundState) (row col : value) :
  well_formed st -> in_range row -> in_range col ->
  settled st row col -> run st inputs = Some st' -> settled st' row col.
Proof.
  revert st. induction inputs as [|input inputs IH]; intros st Hwf Hrow Hcol Hs; simpl.
  - by intros [= <-].
  - destruct (well_formed_step st input Hwf) as (st1 & Hstep & Hwf1).
    rewrite Hstep. apply IH; try done. by apply (settled_step st st1 input).
Qed.

(** C4.  In a turn where the second card is accepted (two distinct cells,
    both face down before the turn), the move is counted and
    - on equal symbols the number of matches grows by one, and both flags
      are true in every state the round reaches afterwards, whatever is
      typed;
    - on different symbols the number of matches stays, and both flags
      are false when the program is back at the first prompt. *)
Theorem turn_outcome (st : RoundState) (row1 col1 : value) (input : jsstring)
    (Hwf : well_formed st)
    (Hctl : control_at st = SecondPrompt row1 col1)
    (Hvalid : validate_second (revealed st) row1 col1 input = Valid) :
  exists row2 col2 st',
    parseCoordinates input = Return (row2, col2) /\
    (row2, col2) <> (row1, col1) /\
    step st input = Some st' /\
    moves st' = moves st + 1 /\
    if bool_decide (symbol_at (board st) row1 col1 = symbol_at (board st) row2 col2)
    then
      matches st' = matches st + 1 /\
      forall inputs, exists st'',
        run st' inputs = Some st'' /\
        revealed_at (revealed st'') row1 col1 = true /\
        revealed_at (revealed st'') row2 col2 = true
    else
      matches st' = matches st /\
      control_at st' = FirstPrompt /\
      revealed_at (revealed st') row1 col1 = false /\
      revealed_at (revealed st') row2 col2 = false.
Proof.
  pose proof Hwf as (Hboard & Hgrid & Hinv). rewrite Hctl in Hinv.
  destruct Hinv as (_ & Hr1 & Hc1 & Hup1).
  destruct (step_accepted_second st row1 col1 input Hwf Hctl Hvalid)
    as (row2 & col2 & mask2 & s1 & s2 & Hp & Hr2 & Hc2 & Hne & Hdown & Hset2 & Hgrid2
        & Hs1 & Hs2 & [[Heq Hstep] | [Hdiff (mask3 & mask4 & Hset3 & Hset4 & _ & Hstep)]]).
  - eexists row2, col2, _. split_and!; try done.
    rewrite Hs1, Hs2, bool_decide_true by congruence. simpl. split; [done|].
    intros inputs.
    destruct (well_formed_step st input Hwf) as (st1 & Hstep1 & Hwf1).
    rewrite Hstep in Hstep1. injection Hstep1 as <-.
    destruct (well_formed_run _ inputs Hwf1) as (st2 & Hrun & _).
    exists st2. split; [exact Hrun|].
    assert (forall row col, in_range row -> in_range col ->
              revealed_at mask2 row col = true ->
              revealed_at (revealed st2) row col = true) as Hkeep.
    { intros row col Hrow Hcol Hup.
      eapply (settled_run inputs _ st2 row col Hwf1 Hrow Hcol); [|exact Hrun].
      split; simpl; [done | by destruct (matches st + 1 <? 8)]. }
    split; apply Hkeep; try done.
    + rewrite (revealed_at_set_flag _ _ _ _ _ _ _ Hr2 Hc2 Hr1 Hc1 Hset2).
      by rewrite bool_decide_false.
    + by rewrite (revealed_at_set_flag _ _ _ _ _ _ _ Hr2 Hc2 Hr2 Hc2 Hset2),
        bool_decide_true.
  - eexists row2, col2, _. split_and!; try done.
    rewrite Hs1, Hs2, bool_decide_false by congruence. simpl.
    split_and!; try done.
    + rewrite (revealed_at_set_flag _ _ _ _ _ _ _ Hr2 Hc2 Hr1 Hc1 Hset4).
      rewrite bool_decide_false by congruence.
      by rewrite (revealed_at_set_flag _ _ _ _ _ _ _ Hr1 Hc1 Hr1 Hc1 Hset3),
        bool_decide_true.
    + by rewrite (revealed_at_set_flag _ _ _ _ _ _ _ Hr2 Hc2 Hr2 Hc2 Hset4),
        bool_decide_true.
Qed.

Lemma sample_turn_reached :
  run (start sample_board) (map str ["1,2"; "1,4"; "1,1"]%string) = Some sample_turn.
Proof. reflexivity. Qed.

Lemma sample_turn_well_formed : well_formed sample_turn.
Proof.
  split; [split; [reflexivity | repeat constructor]|].
  split; [split; [reflexivity | repeat constructor]|].
  simpl. split; [lia|].
  split; [exists 0; split; [reflexivity | lia]|].
  split; [exists 0; split; [reflexivity | lia] | reflexivity].
Defined.

Lemma turn_outcome_witness :
  exists st', step sample_turn (str "1,3") = Some st' /\ moves st' = 2.
Proof.
  destruct (turn_outcome sample_turn (Num 0) (Num 0) (str "1,3")
              sample_turn_well_formed eq_refl eq_refl)
    as (row2 & col2 & st' & _ & _ & Hstep & Hmoves & _).
  exists st'. split; [exact Hstep | exact Hmoves].
Defined.

Lemma failed_reveal_changes_nothing_witness :
  step sample_turn (str "5,1") = Some sample_turn /\
  step sample_turn (str "1,2") = Some sample_turn /\
  step sample_turn (str "1,1") = Some sample_turn.
Proof.
  split; [|split].
  - apply (failed_reveal_changes_nothing sample_turn (str "5,1")).
    by eapply out_of_range.
  - apply (failed_reveal_changes_nothing sample_turn (str "1,2")).
    by eapply (already_revealed _ _ (Num 0) (Num 1)).
  - apply (failed_reveal_changes_nothing sample_turn (str "1,1")).
    by eapply (same_as_first _ _ (Num 0) (Num 0)).
Defined.

(** C6, as the code has it.  At the second prompt, the coordinates of the
    first card are rejected, the state of the round stays as it is, and
    the answer is the one message the prompt has for every card it
    refuses, the message a card already face up gets as well. *)
Theorem same_as_first_rejected (st : RoundState) (row1 col1 row col : value)
    (input other : jsstring)
    (Hwf : well_formed st)
    (Hctl : control_at st = SecondPrompt row1 col1)
    (Hsame : parseCoordinates input = Return (row1, col1))
    (Hother : parseCoordinates other = Return (row, col))
    (Hup : revealed_at (revealed st) row col = true) :
  validate_second (revealed st) row1 col1 input
  = Invalid "Invalid or already revealed card!" /\
  validate_second (revealed st) row1 col1 other
  = Invalid "Invalid or already revealed card!" /\
  step st input = Some st.
Proof.
  pose proof Hwf as (_ & Hgrid & Hinv). rewrite Hctl in Hinv.
  destruct Hinv as (_ & Hr1 & Hc1 & Hup1).
  assert (forall line r c,
            parseCoordinates line = Return (r, c) ->
            revealed_at (revealed st) r c = true ->
            validate_second (revealed st) row1 col1 line
            = Invalid "Invalid or already revealed card!") as Hmsg.
  { intros line r c Hp Hflag. unfold validate_second. rewrite Hp.
    unfold revealed_at in Hflag. destruct (get (revealed st) r); [|discriminate].
    by rewrite Hflag. }
  split; [by apply (Hmsg input row1 col1)|].
  split; [by apply (Hmsg other row col)|].
  eapply step_rejected_second; [exact Hctl|]. by apply (Hmsg input row1 col1).
Qed.

Lemma same_as_first_rejected_witness :
  validate_second (revealed sample_turn) (Num 0) (Num 0) (str "1,1")
  = validate_second (revealed sample_turn) (Num 0) (Num 0) (str "1,2").
Proof.
  destruct (same_as_first_rejected sample_turn (Num 0) (Num 0) (Num 0) (Num 1)
              (str "1,1") (str "1,2") sample_turn_well_formed eq_refl eq_refl eq_refl
              eq_refl) as (-> & -> & _).
  reflexivity.
Defined.

(** C6 as stated fails: on [sample_turn] the first card picked again and
    the card at 1,2, face up since its match, are refused in the same
    words. *)
Lemma same_as_first_not_distinct :
  ~ same_as_first_distinct sample_turn (Num 0) (Num 0).
Proof.
  intros Hdistinct.
  apply (Hdistinct (str "1,1") (str "1,2") (Num 0) (Num 1));
    [reflexivity | reflexivity | discriminate | reflexivity | reflexivity].
Qed.

(** ** Board generation *)

(** The index drawn is within [0, i]. *)
Lemma random_index_range (r : Q) (i : nat) :
  (0 <= r)%Q -> (r < 1)%Q -> 0 <= random_index r i <= Z.of_nat i.
Proof.
  intros H0 H1. unfold random_index, Math_floor.
  set (n := Z.of_nat i + 1).
  assert (0 < inject_Z n)%Q as Hn
    by (change (inject_Z 0 < inject_Z n)%Q; rewrite <- Zlt_Qlt; lia).
  split.
  - change 0 with (Qfloor (inject_Z 0)) at 1.
    apply Qfloor_resp_le. change (inject_Z 0) with (0 # 1)%Q.
    apply Qmult_le_0_compat; [exact H0 | by apply Qlt_le_weak].
  - assert (Qfloor (r * inject_Z n) < n); [|lia].
    rewrite Zlt_Qlt.
    eapply Qle_lt_trans; [apply Qfloor_le|].
    rewrite <- (Qmult_1_l (inject_Z n)) at 2.
    by apply Qmult_lt_compat_r.
Qed.


Lemma swap_list_length {A} (l : list A) (i j : nat) :
  length (swap_list l i j) = length l.
Proof.
  unfold swap_list. destruct (l !! j), (l !! i); try done.
  by rewrite !length_insert.
Qed.


Lemma fisher_yates_length {A} (choose : nat -> nat) (i : nat) (l : list A) :
  length (fisher_yates choose i l) = length l.
Proof.
  revert l. induction i as [|i IH]; intros l; simpl; [done|].
  by rewrite IH, swap_list_length.
Qed.


Lemma fisher_yates_ext {A} (f g : nat -> nat) (i : nat) (l : list A) :
  (forall k, (1 <= k <= i)%nat -> f k = g k) ->
  fisher_yates f i l = fisher_yates g i l.
Proof.
  revert l. induction i as [|i IH]; intros l Hfg; simpl; [done|].
  rewrite (Hfg (S i)) by lia. apply IH. intros k Hk. apply Hfg. lia.
Qed.

Lemma array_get_spec (array i : nat) (w : world) (l : list string) (x : string) :
  heap w !! array = Some l -> l !! i = Some x ->
  array_get array (Z.of_nat i) w = Some (x, w).
Proof.
  intros Hl Hx. unfold array_get. rewrite Hl, Nat2Z.id, Hx.
  destruct (Z.leb_spec 0 (Z.of_nat i)); [done | lia].
Qed.

Lemma array_set_spec (array i : nat) (w : world) (l : list string) (x : string) :
  heap w !! array = Some l -> (i < length l)%nat ->
  array_set array (Z.of_nat i) x w
  = Some (tt, mkWorld (<[array := <[i := x]> l]> (heap w)) (random_calls w)).
Proof.
  intros Hl Hi. unfold array_set. rewrite Hl, Nat2Z.id.
  destruct (Z.leb_spec 0 (Z.of_nat i)); [|lia].
  destruct (Z.ltb_spec (Z.of_nat i) (Z.of_nat (length l))); [done | lia].
Qed.

(** Line 56 on the store: the array is replaced by the swapped one, and no
    other array is touched. *)
Lemma swap_spec (array i j : nat) (w : world) (l : list string) :
  heap w !! array = Some l -> (i < length l)%nat -> (j < length l)%nat ->
  swap array (Z.of_nat i) (Z.of_nat j) w
  = Some (tt, mkWorld (<[array := swap_list l i j]> (heap w)) (random_calls w)).
Proof.
  intros Hl Hi Hj.
  destruct (lookup_lt_is_Some_2 l i Hi) as [y Hy].
  destruct (lookup_lt_is_Some_2 l j Hj) as [x Hx].
  unfold swap, bind, swap_list. rewrite Hx, Hy.
  rewrite (array_get_spec array j w l x Hl Hx).
  rewrite (array_get_spec array i w l y Hl Hy).
  rewrite (array_set_spec array i w l x Hl Hi).
  rewrite (array_set_spec array j _ (<[i := x]> l) y);
    simpl; [|by rewrite lookup_insert_eq | by rewrite length_insert].
  by rewrite insert_insert_eq.
Qed.

Section Shuffle.

Variable random : nat -> Q.
Hypothesis random_unit : forall n, (0 <= random n)%Q /\ (random n < 1)%Q.

Lemma drawn_le (calls last i : nat) : (drawn random calls last i <= i)%nat.
Proof.
  unfold drawn.
  destruct (random_unit (calls + (last - i))%nat) as [H0 H1].
  pose proof (random_index_range _ i H0 H1). lia.
Qed.

(** The loop of [shuffle] is the Fisher-Yates shuffle of the array it is
    given, with the indices drawn from [Math.random()]; it calls
    [Math.random()] once for each index from [i] down to 1. *)
Lemma shuffle_loop_spec (array i : nat) (w : world) (l : list string) :
  heap w !! array = Some l -> (i < length l)%nat ->
  shuffle_loop random array i w
  = Some (tt, mkWorld (<[array := fisher_yates (drawn random (random_calls w) i) i l]>
                         (heap w))
                      (random_calls w + i)).
Proof.
  revert w l. induction i as [|i IH]; intros w l Hl Hi; simpl.
  - unfold ret. rewrite insert_id by done. rewrite Nat.add_0_r. by destruct w.
  - unfold bind at 1. unfold Math_random at 1.
    destruct (random_unit (random_calls w)) as [H0 H1].
    pose proof (random_index_range _ (S i) H0 H1) as Hj.
    unfold bind at 1.
    replace (random_index (random (random_calls w)) (S i))
      with (Z.of_nat (drawn random (random_calls w) (S i) (S i)))
      by (unfold drawn; rewrite Nat.sub_diag, Nat.add_0_r; lia).
    change (Z.pos (Pos.of_succ_nat i)) with (Z.of_nat (S i)).
    pose proof (drawn_le (random_calls w) (S i) (S i)) as Hd.
    rewrite (swap_spec array (S i) _ _ l) by (simpl; done || lia).
    simpl.
    rewrite (IH _ (swap_list l (S i) (drawn random (random_calls w) (S i) (S i))));
      simpl; [|by rewrite lookup_insert_eq | rewrite swap_list_length; lia].
    rewrite insert_insert_eq. do 3 f_equal; [|lia].
    f_equal. apply fisher_yates_ext. intros k Hk. unfold drawn.
    do 3 f_equal. lia.
Qed.

Lemma shuffle_spec (array : nat) (w : world) (l : list string) :
  heap w !! array = Some l ->
  shuffle random array w
  = Some (array,
          mkWorld (<[array := fisher_yates (drawn random (random_calls w) (length l - 1))
                                (length l - 1) l]> (heap w))
                  (random_calls w + (length l - 1))).
Proof.
  intros Hl. unfold shuffle, bind at 1, array_length. rewrite Hl.
  destruct l as [|x l'] eqn:Hshape.
  - simpl. unfold bind, ret. simpl. rewrite insert_id by done.
    rewrite Nat.add_0_r. by destruct w.
  - rewrite <- Hshape in *. unfold bind.
    rewrite (shuffle_loop_spec array _ w l Hl) by (subst l; simpl; lia).
    reflexivity.
Qed.

End Shuffle.

Lemma fresh_not_allocated (w : world) (array : nat) (l : list string) :
  heap w !! array = Some l -> fresh (dom (heap w)) <> array.
Proof.
  intros Hl Heq. apply (is_fresh (dom (heap w))).
  rewrite Heq. apply elem_of_dom. by eexists.
Qed.

(** The copy made by the spread is a new array: the one it copies stays
    in the store as it is. *)
Lemma array_spread_spec (array : nat) (w : world) (l : list string) :
  heap w !! array = Some l ->
  array_spread array w
  = Some (fresh (dom (heap w)),
          mkWorld (<[fresh (dom (heap w)) := l]> (heap w)) (random_calls w)).
Proof. intros Hl. unfold array_spread. by rewrite Hl. Qed.

Lemma createBoard_loop_spec (shuffled : nat) (w : world) (l : list string) :
  heap w !! shuffled = Some l ->
  createBoard_loop shuffled 0 4 w
  = Some ([take 4 l; take 4 (drop 4 l); take 4 (drop 8 l); take 4 (drop 12 l)], w).
Proof.
  intros Hl. simpl. unfold bind, array_slice, ret. by repeat (rewrite Hl; simpl).
Qed.

(** The rows of a board cut from sixteen cells. *)
Lemma rows_of_sixteen {A} (l : list A) :
  length l = 16%nat ->
  let cards := [take 4 l; take 4 (drop 4 l); take 4 (drop 8 l); take 4 (drop 12 l)] in
  grid cards /\ concat cards = l /\
  forall r c, (r < 4)%nat -> (c < 4)%nat ->
              cards !! r ≫= (fun row => row !! c) = l !! (r * 4 + c)%nat.
Proof.
  intros Hlen.
  do 16 (destruct l as [|? l]; [discriminate|]).
  destruct l; [|discriminate]. simpl.
  split; [split; [reflexivity | repeat constructor]|].
  split; [reflexivity|].
  intros r c Hr Hc.
  do 4 (destruct r as [|r]; [do 4 (destruct c as [|c]; [reflexivity|]); lia|]).
  lia.
Qed.



Section CreateBoard.

Variable random : nat -> Q.
Hypothesis random_unit : forall n, (0 <= random n)%Q /\ (random n < 1)%Q.

(** [createBoard] copies the array behind [symbols], shuffles the copy
    and cuts it in four rows; what it leaves in the store is the
    shuffled copy, at an address that was free. *)
Lemma createBoard_spec (w : world) (l : list string) :
  heap w !! symbols = Some l ->
  let copy := fresh (dom (heap w)) in
  let shuffled :=
    fisher_yates (drawn random (random_calls w) (length l - 1)) (length l - 1) l in
  createBoard random w
  = Some ([take 4 shuffled; take 4 (drop 4 shuffled);
           take 4 (drop 8 shuffled); take 4 (drop 12 shuffled)],
          mkWorld (<[copy := shuffled]> (heap w)) (random_calls w + (length l - 1))).
Proof.
  intros Hl copy shuffled. unfold createBoard, bind.
  rewrite (array_spread_spec symbols w l Hl). fold copy.
  rewrite (shuffle_spec random random_unit copy _ l) by (simpl; apply lookup_insert_eq).
  cbn [heap random_calls]. rewrite insert_insert_eq. fold shuffled.
  by rewrite (createBoard_loop_spec copy _ shuffled) by apply lookup_insert_eq.
Qed.

Lemma createBoard_frame (w : world) (l : list string) :
  heap w !! symbols = Some l ->
  exists cards w',
    createBoard random w = Some (cards, w') /\ heap w' !! symbols = Some l.
Proof.
  intros Hl. do 2 eexists. split; [by apply createBoard_spec|].
  simpl. rewrite lookup_insert_ne; [done|]. by eapply fresh_not_allocated.
Qed.

Lemma boards_of_rounds_frame (n : nat) (w : world) (l : list string) :
  heap w !! symbols = Some l ->
  exists boards w',
    boards_of_rounds random n w = Some (boards, w') /\
    length boards = n /\ heap w' !! symbols = Some l.
Proof.
  revert w. induction n as [|n IH]; intros w Hl; simpl.
  - by exists [], w.
  - destruct (createBoard_frame w l Hl) as (cards & w1 & Hrun & Hl1).
    destruct (IH w1 Hl1) as (boards & w2 & Hrest & Hlen & Hl2).
    exists (cards :: boards), w2. unfold bind, ret. rewrite Hrun, Hrest.
    split; [done|]. split; [by rewrite <- Hlen | done].
Qed.

End CreateBoard.


Lemma midpoint_unit : forall n, (0 <= midpoint n)%Q /\ (midpoint n < 1)%Q.
Proof. intros n. split; reflexivity || discriminate. Defined.

Lemma module_world_symbols : heap module_world !! symbols = Some symbols_literal.
Proof. apply lookup_singleton_eq. Defined.


(** C9.  Whatever the number of rounds, and whatever [Math.random()]
    returns in [0, 1), every [createBoard] returns, and the array behind
    [symbols] holds the sixteen symbols in their written order afterwards:
    the shuffles work on copies. *)
Theorem symbols_never_mutated (random : nat -> Q) (n : nat) (w : world)
    (Hrandom : forall k, (0 <= random k)%Q /\ (random k < 1)%Q)
    (Hsymbols : heap w !! symbols = Some symbols_literal) :
  exists boards w',
    boards_of_rounds random n w = Some (boards, w') /\
    length boards = n /\
    heap w' !! symbols = Some symbols_literal.
Proof. by apply boards_of_rounds_frame. Qed.

Lemma symbols_never_mutated_witness :
  exists boards w',
    boards_of_rounds midpoint 3 module_world = Some (boards, w') /\
    heap w' !! symbols = Some symbols_literal.
Proof.
  destruct (symbols_never_mutated midpoint 3 module_world midpoint_unit
              module_world_symbols)
    as (boards & w' & Hrun & _ & Hkept).
  exists boards, w'. split; [exact Hrun | exact Hkept].
Defined.

(** The store does tell a copy from the array itself: [shuffle] handed
    [symbols] directly would reorder it. *)
Lemma shuffle_in_place_reorders :
  exists w', shuffle midpoint symbols module_world = Some (symbols, w') /\
             heap w' !! symbols <> Some symbols_literal.
Proof.
  eexists. split.
  - rewrite (shuffle_spec midpoint midpoint_unit symbols _ symbols_literal
               module_world_symbols).
    reflexivity.
  - cbn [heap]. rewrite lookup_insert_eq. vm_compute. discriminate.
Qed.

(** ** JSON text: the fuel of the parser *)

Lemma skip_ws_length (s : jsstring) : (length (skip_ws s) <= length s)%nat.
Proof.
  induction s as [|c s IH]; simpl; [done|].
  destruct (is_json_space c); simpl; lia.
Qed.

Lemma skip_ws_cons_length (s s1 : jsstring) (c : N) :
  skip_ws s = c :: s1 -> (length s1 < length s)%nat.
Proof.
  intros Hs. pose proof (skip_ws_length s) as Hlen. rewrite Hs in Hlen.
  simpl in Hlen. lia.
Qed.

Lemma take_digits_length (s : jsstring) (ds : list N) (rest : jsstring) :
  take_digits s = (ds, rest) -> (length rest + length ds = length s)%nat.
Proof.
  revert ds rest. induction s as [|c s IH]; intros ds rest; simpl.
  - by intros [= <- <-].
  - destruct (is_digit c).
    + destruct (take_digits s) as [ds' rest'] eqn:Htd. intros [= <- <-].
      specialize (IH ds' rest' eq_refl). simpl. lia.
    + by intros [= <- <-].
Qed.

Lemma strip_prefix_length (prefix s rest : jsstring) :
  strip_prefix prefix s = Some rest -> (length rest <= length s)%nat.
Proof.
  revert s. induction prefix as [|a prefix IH]; intros s; simpl.
  - by intros [= <-].
  - destruct s as [|c s]; [done|]. destruct (a =? c)%N; [|done].
    intros Hp. apply IH in Hp. simpl. lia.
Qed.

Lemma cons_unit_Some (c : N) (r : option (jsstring * jsstring)) (units rest : jsstring) :
  cons_unit c r = Some (units, rest) ->
  exists units', r = Some (units', rest) /\ units = c :: units'.
Proof. destruct r as [[u t]|]; simpl; [|done]. intros [= <- <-]. eauto. Qed.

Lemma parse_string_length (s units rest : jsstring) :
  parse_string s = Some (units, rest) -> (length rest < length s)%nat.
Proof.
  remember (length s) as n eqn:Hn. revert s units rest Hn.
  induction n as [n IH] using lt_wf_ind. intros s units rest -> Hp.
  destruct s as [|c s1]; [done|]. simpl in Hp.
  destruct (c =? 34)%N; [injection Hp as <- <-; simpl; lia|].
  destruct (c =? 92)%N.
  - destruct s1 as [|e s2]; [done|].
    destruct (e =? 117)%N.
    + destruct s2 as [|h1 [|h2 [|h3 [|h4 s3]]]]; try done.
      destruct (hex_value h1), (hex_value h2), (hex_value h3), (hex_value h4);
        try done.
      apply cons_unit_Some in Hp as (u & Hp & _).
      apply (IH (length s3)) in Hp; simpl; [lia | lia | done].
    + destruct (simple_escape e); [|done].
      apply cons_unit_Some in Hp as (u & Hp & _).
      apply (IH (length s2)) in Hp; simpl; [lia | lia | done].
  - destruct (c <? 32)%N; [done|].
    apply cons_unit_Some in Hp as (u & Hp & _).
    apply (IH (length s1)) in Hp; simpl; [lia | lia | done].
Qed.

Ltac digits_consumed :=
  repeat match goal with
    | H : take_digits _ = _ |- _ => apply take_digits_length in H
    end.

Lemma parse_fraction_length (s rest : jsstring) (ds : list N) :
  parse_fraction s = Some (ds, rest) -> (length rest <= length s)%nat.
Proof.
  unfold parse_fraction. intros Hp.
  repeat case_match; simplify_eq; digits_consumed; simpl in *; lia.
Qed.

Lemma parse_exponent_length (s rest : jsstring) (e : Z) :
  parse_exponent s = Some (e, rest) -> (length rest <= length s)%nat.
Proof.
  unfold parse_exponent. intros Hp.
  repeat case_match; simplify_eq; digits_consumed; simpl in *; lia.
Qed.

Lemma take_digits_digit (c : N) (t : jsstring) (ds : list N) (rest : jsstring) :
  is_digit c = true -> take_digits (c :: t) = (ds, rest) ->
  (length rest < length (c :: t))%nat.
Proof.
  intros Hd Htd. pose proof (take_digits_length _ _ _ Htd) as Hlen.
  simpl in Htd. rewrite Hd in Htd. destruct (take_digits t).
  injection Htd as <- <-. simpl in *. lia.
Qed.

Lemma parse_number_length (s rest : jsstring) (n : number) :
  parse_number s = Some (n, rest) -> (length rest < length s)%nat.
Proof.
  unfold parse_number. intros Hp.
  repeat case_match; simplify_eq;
    repeat match goal with
      | H : parse_fraction _ = Some _ |- _ => apply parse_fraction_length in H
      | H : parse_exponent _ = Some _ |- _ => apply parse_exponent_length in H
      | Hd : is_digit ?c = true, H : take_digits (?c :: _) = _ |- _ =>
          apply (take_digits_digit _ _ _ _ Hd) in H
      end; simpl in *; lia.
Qed.

(** Every successful reading consumes text. *)
Lemma parse_value_length (fuel : nat) :
  (forall s v rest, parse_value fuel s = Some (v, rest) -> (length rest < length s)%nat) /\
  (forall s acc v rest,
     parse_elements fuel s acc = Some (v, rest) -> (length rest < length s)%nat) /\
  (forall s acc v rest,
     parse_members fuel s acc = Some (v, rest) -> (length rest < length s)%nat).
Proof.
  induction fuel as [|fuel (IHv & IHe & IHm)]; [done|].
  split_and!.
  - intros s v rest Hp. simpl in Hp.
    destruct (skip_ws s) as [|c s1] eqn:Hs; [done|].
    apply skip_ws_cons_length in Hs.
    repeat case_match; simplify_eq;
      repeat match goal with
        | H : skip_ws _ = _ :: _ |- _ => apply skip_ws_cons_length in H
        | H : parse_elements _ _ _ = Some _ |- _ => apply IHe in H
        | H : parse_members _ _ _ = Some _ |- _ => apply IHm in H
        | H : parse_string _ = Some _ |- _ => apply parse_string_length in H
        | H : strip_prefix _ _ = Some _ |- _ => apply strip_prefix_length in H
        | H : parse_number _ = Some _ |- _ => apply parse_number_length in H
        end; simpl in *; lia.
  - intros s acc v rest Hp. simpl in Hp.
    destruct (parse_value fuel s) as [[v1 rest0]|] eqn:Hv; [|done].
    apply IHv in Hv.
    repeat case_match; simplify_eq;
      repeat match goal with
        | H : skip_ws _ = _ :: _ |- _ => apply skip_ws_cons_length in H
        | H : parse_elements _ _ _ = Some _ |- _ => apply IHe in H
        end; simpl in *; lia.
  - intros s acc v rest Hp. simpl in Hp.
    repeat case_match; simplify_eq;
      repeat match goal with
        | H : skip_ws _ = _ :: _ |- _ => apply skip_ws_cons_length in H
        | H : parse_value _ _ = Some _ |- _ => apply IHv in H
        | H : parse_members _ _ _ = Some _ |- _ => apply IHm in H
        | H : parse_string _ = Some _ |- _ => apply parse_string_length in H
        end; simpl in *; lia.
Qed.

(** More fuel does not change a successful reading. *)
Lemma parse_value_mono (fuel : nat) :
  (forall fuel' s r, (fuel <= fuel')%nat ->
     parse_value fuel s = Some r -> parse_value fuel' s = Some r) /\
  (forall fuel' s acc r, (fuel <= fuel')%nat ->
     parse_elements fuel s acc = Some r -> parse_elements fuel' s acc = Some r) /\
  (forall fuel' s acc r, (fuel <= fuel')%nat ->
     parse_members fuel s acc = Some r -> parse_members fuel' s acc = Some r).
Proof.
  induction fuel as [|fuel (IHv & IHe & IHm)]; [done|].
  split_and!.
  - intros [|fuel'] s r Hle Hp; [lia|]. simpl in Hp |- *.
    repeat (case_match; simplify_eq; try done);
      (apply IHe || apply IHm); (lia || done).
  - intros [|fuel'] s acc r Hle Hp; [lia|]. simpl in Hp |- *.
    destruct (parse_value fuel s) as [[v rest]|] eqn:Hv; [|done].
    rewrite (IHv fuel' s _ ltac:(lia) Hv).
    repeat (case_match; simplify_eq; try done). apply IHe; (lia || done).
  - intros [|fuel'] s acc r Hle Hp; [lia|]. simpl in Hp |- *.
    destruct (skip_ws s) as [|c s1]; [done|].
    destruct (c =? 34)%N; [|done].
    destruct (parse_string s1) as [[key s2]|]; [|done].
    destruct (skip_ws s2) as [|c2 s3]; [done|].
    destruct (c2 =? 58)%N; [|done].
    destruct (parse_value fuel s3) as [[v rest]|] eqn:Hv; [|done].
    rewrite (IHv fuel' s3 _ ltac:(lia) Hv).
    repeat (case_match; simplify_eq; try done). apply IHm; (lia || done).
Qed.

(** Above twice the length of the text, the fuel does not matter. *)
Lemma parse_value_fuel (fuel : nat) :
  (forall fuel' s, (2 * length s + 1 <= fuel)%nat -> (2 * length s + 1 <= fuel')%nat ->
     parse_value fuel s = parse_value fuel' s) /\
  (forall fuel' s acc, (2 * length s + 2 <= fuel)%nat -> (2 * length s + 2 <= fuel')%nat ->
     parse_elements fuel s acc = parse_elements fuel' s acc) /\
  (forall fuel' s acc, (2 * length s + 2 <= fuel)%nat -> (2 * length s + 2 <= fuel')%nat ->
     parse_members fuel s acc = parse_members fuel' s acc).
Proof.
  induction fuel as [|fuel (IHv & IHe & IHm)]; [split_and!; intros; lia|].
  split_and!.
  - intros [|fuel'] s Hf Hf'; [lia|]. simpl.
    destruct (skip_ws s) as [|c s1] eqn:Hs; [done|].
    apply skip_ws_cons_length in Hs.
    repeat (case_match; simplify_eq; try done);
      (apply IHe || apply IHm); simpl in *; lia.
  - intros [|fuel'] s acc Hf Hf'; [lia|]. simpl.
    rewrite (IHv fuel' s) by lia.
    destruct (parse_value fuel' s) as [[v rest]|] eqn:Hv; [|done].
    apply (proj1 (parse_value_length fuel')) in Hv.
    destruct (skip_ws rest) as [|c rest1] eqn:Hs; [done|].
    apply skip_ws_cons_length in Hs.
    repeat (case_match; simplify_eq; try done). apply IHe; simpl in *; lia.
  - intros [|fuel'] s acc Hf Hf'; [lia|]. simpl.
    destruct (skip_ws s) as [|c s1] eqn:Hs; [done|].
    apply skip_ws_cons_length in Hs.
    destruct (c =? 34)%N; [|done].
    destruct (parse_string s1) as [[key s2]|] eqn:Hk; [|done].
    apply parse_string_length in Hk.
    destruct (skip_ws s2) as [|c2 s3] eqn:Hs2; [done|].
    apply skip_ws_cons_length in Hs2.
    destruct (c2 =? 58)%N; [|done].
    rewrite (IHv fuel' s3) by lia.
    destruct (parse_value fuel' s3) as [[v rest]|] eqn:Hv; [|done].
    apply (proj1 (parse_value_length fuel')) in Hv.
    destruct (skip_ws rest) as [|c3 rest1] eqn:Hs3; [done|].
    apply skip_ws_cons_length in Hs3.
    repeat (case_match; simplify_eq; try done). apply IHm; simpl in *; lia.
Qed.

(** A reading that succeeds with some fuel succeeds with the fuel
    [JSON_parse] takes. *)
Lemma parse_value_enough (fuel : nat) (s : jsstring) (r : json * jsstring) :
  parse_value fuel s = Some r -> parse_value (2 * length s + 1) s = Some r.
Proof.
  intros Hp. destruct (Nat.le_gt_cases fuel (2 * length s + 1)) as [Hle|Hgt].
  - by apply (proj1 (parse_value_mono fuel)).
  - rewrite <- Hp. symmetry. apply (proj1 (parse_value_fuel fuel)); lia.
Qed.

(** [JSON_parse] throws exactly on the texts that are no JSON value,
    whatever the fuel. *)
Lemma JSON_parse_Throw (text : jsstring) :
  (exists message, JSON_parse text = Throw message) <-> malformed text.
Proof.
  unfold JSON_parse, malformed. split.
  - intros [message Hthrow] fuel v rest Hp Hws.
    apply parse_value_enough in Hp. rewrite Hp, Hws in Hthrow. discriminate.
  - intros Hbad.
    destruct (parse_value (2 * length text + 1) text) as [[v rest]|] eqn:Hp; [|eauto].
    destruct (skip_ws rest) eqn:Hws; [|eauto].
    exfalso. by eapply Hbad.
Qed.

Lemma JSON_parse_Return (text : jsstring) (v : json) (fuel : nat) (rest : jsstring) :
  parse_value fuel text = Some (v, rest) -> skip_ws rest = [] ->
  JSON_parse text = Return v.
Proof.
  intros Hp Hws. apply parse_value_enough in Hp. unfold JSON_parse.
  by rewrite Hp, Hws.
Qed.

(** ** The high-score file: reading *)



(** ** JSON text: numbers written and read back *)

Section Digits.

Local Open Scope N_scope.

Lemma digits_value_snoc (ds : list N) (d : N) :
  digits_value (ds ++ [d]) = digits_value ds * 10 + d.
Proof. unfold digits_value. by rewrite fold_left_app. Qed.

Lemma digits_from_app (fuel : nat) (n : N) (acc : list N) :
  digits_from fuel n acc = digits_from fuel n [] ++ acc.
Proof.
  revert n acc. induction fuel as [|fuel IH]; intros n acc; simpl; [done|].
  destruct (n / 10 =? 0); [done|].
  rewrite (IH _ (_ :: acc)), (IH _ [_]), <- app_assoc. reflexivity.
Qed.

Lemma digits_from_step (fuel : nat) (n : N) :
  digits_from (S fuel) n []
  = if n / 10 =? 0 then [n mod 10] else digits_from fuel (n / 10) [] ++ [n mod 10].
Proof. simpl. destruct (n / 10 =? 0); [done|]. apply digits_from_app. Qed.

Lemma tenth_small (fuel : nat) (n : N) :
  n < 2 ^ N.of_nat (S fuel) -> n / 10 < 2 ^ N.of_nat fuel.
Proof.
  intros Hn. rewrite Nat2N.inj_succ, N.pow_succ_r' in Hn.
  apply N.Div0.div_lt_upper_bound. lia.
Qed.

Lemma digits_from_value (fuel : nat) (n : N) :
  n < 2 ^ N.of_nat fuel -> digits_value (digits_from fuel n []) = n.
Proof.
  revert n. induction fuel as [|fuel IH]; intros n Hn.
  - simpl in *. unfold digits_value. simpl. lia.
  - rewrite digits_from_step. pose proof (N.div_mod' n 10) as Hdm.
    destruct (N.eqb_spec (n / 10) 0) as [Hz|Hnz].
    + unfold digits_value. simpl. lia.
    + rewrite digits_value_snoc, IH by (by apply tenth_small). lia.
Qed.

Lemma digits_from_digits (fuel : nat) (n : N) :
  Forall (fun d => d < 10) (digits_from fuel n []).
Proof.
  revert n. induction fuel as [|fuel IH]; intros n; [constructor|].
  rewrite digits_from_step.
  assert (n mod 10 < 10) by (by apply N.mod_lt).
  destruct (n / 10 =? 0); [by repeat constructor|].
  apply Forall_app. split; [apply IH | by repeat constructor].
Qed.

Lemma digits_from_head (fuel : nat) (n : N) :
  n <> 0 -> n < 2 ^ N.of_nat fuel ->
  exists d ds, digits_from fuel n [] = d :: ds /\ d <> 0.
Proof.
  revert n. induction fuel as [|fuel IH]; intros n Hnz Hn.
  - simpl in Hn. lia.
  - rewrite digits_from_step. pose proof (N.div_mod' n 10) as Hdm.
    destruct (N.eqb_spec (n / 10) 0) as [Hz|Hq].
    + exists (n mod 10), []. split; [done | lia].
    + destruct (IH (n / 10) Hq) as (d & ds & -> & Hd); [by apply tenth_small|].
      by exists d, (ds ++ [n mod 10]).
Qed.

Lemma digits_from_length (fuel : nat) (n : N) (k : nat) :
  n < 10 ^ N.of_nat (S k) -> (length (digits_from fuel n []) <= S k)%nat.
Proof.
  revert n k. induction fuel as [|fuel IH]; intros n k Hn; [simpl; lia|].
  rewrite digits_from_step.
  destruct (N.eqb_spec (n / 10) 0) as [Hz|Hq]; [simpl; lia|].
  rewrite length_app. simpl.
  destruct k as [|k].
  - exfalso. apply Hq. apply N.div_small. simpl in Hn. lia.
  - assert (length (digits_from fuel (n / 10) []) <= S k)%nat; [|lia].
    apply IH. apply N.Div0.div_lt_upper_bound.
    rewrite (Nat2N.inj_succ (S k)), N.pow_succ_r' in Hn. lia.
Qed.

Lemma decimal_digits_value (n : N) : digits_value (decimal_digits n) = n.
Proof.
  apply digits_from_value. rewrite Nat2N.inj_succ, N2Nat.id, N.pow_succ_r'.
  pose proof (N.size_gt n). lia.
Qed.

Lemma decimal_digits_head (n : N) :
  n <> 0 -> exists d ds, decimal_digits n = d :: ds /\ d <> 0.
Proof.
  intros Hnz. apply digits_from_head; [done|].
  rewrite Nat2N.inj_succ, N2Nat.id, N.pow_succ_r'.
  pose proof (N.size_gt n). lia.
Qed.

Lemma decimal_digits_digits (n : N) : Forall (fun d => d < 10) (decimal_digits n).
Proof. apply digits_from_digits. Qed.

Lemma decimal_digits_length (n : N) (k : nat) :
  n < 10 ^ N.of_nat (S k) -> (length (decimal_digits n) <= S k)%nat.
Proof. apply digits_from_length. Qed.

(** The digit characters are read back as the digits. *)
Lemma take_digits_chars (ds : list N) (rest : jsstring) :
  Forall (fun d => d < 10) ds ->
  match rest with c :: _ => is_digit c = false | [] => True end ->
  take_digits (map digit_char ds ++ rest) = (ds, rest).
Proof.
  intros Hds Hrest. induction Hds as [|d ds Hd _ IH]; cbn [take_digits app map].
  - destruct rest as [|c rest]; [done|]. cbn [take_digits]. by rewrite Hrest.
  - assert (is_digit (digit_char d) = true) as ->.
    { unfold is_digit, digit_char.
      destruct (N.leb_spec 48 (48 + d)); [|lia].
      destruct (N.leb_spec (48 + d) 57); [done | lia]. }
    rewrite IH. f_equal. f_equal. unfold digit_char. lia.
Qed.

(** Stripping trailing zeros and writing them back. *)
Lemma strip_zeros_length (m : list N) : (length (strip_zeros m) <= length m)%nat.
Proof.
  induction m as [|d m IH]; simpl; [done|].
  destruct (d =? 0); simpl; lia.
Qed.

Lemma strip_zeros_replicate (m : list N) :
  replicate (length m - length (strip_zeros m)) 0 ++ strip_zeros m = m.
Proof.
  induction m as [|d m IH]; simpl; [done|].
  destruct (N.eqb_spec d 0) as [->|Hd].
  - pose proof (strip_zeros_length m).
    replace (S (length m) - length (strip_zeros m))%nat
      with (S (length m - length (strip_zeros m))) by lia.
    simpl. by rewrite IH.
  - simpl. by rewrite Nat.sub_diag.
Qed.

Lemma significant_digits (all : list N) :
  let ds := rev (strip_zeros (rev all)) in
  map digit_char ds ++ replicate (length all - length ds) 48 = map digit_char all.
Proof.
  intros ds. pose proof (strip_zeros_replicate (rev all)) as Hm.
  apply (f_equal (@rev N)) in Hm. rewrite rev_app_distr, rev_involutive in Hm.
  fold ds in Hm. rewrite length_rev in Hm.
  replace (length (strip_zeros (rev all))) with (length ds) in Hm
    by (unfold ds; by rewrite length_rev).
  remember (length all - length ds)%nat as j eqn:Hj. clear Hj.
  rewrite <- Hm, map_app. f_equal. clear Hm.
  induction j as [|j IH]; [done|].
  rewrite (replicate_S_end j 0), rev_app_distr. simpl. by rewrite IH.
Qed.

End Digits.

Lemma parse_fraction_none (rest : jsstring) :
  number_ends rest -> parse_fraction rest = Some ([], rest).
Proof.
  destruct rest as [|c rest]; [done|]. intros (_ & Hpoint & _). simpl.
  destruct (N.eqb_spec c 46); [contradiction | done].
Qed.

Lemma parse_exponent_none (rest : jsstring) :
  number_ends rest -> parse_exponent rest = Some (0, rest).
Proof.
  destruct rest as [|c rest]; [done|]. intros (_ & _ & He & HE).
  unfold parse_exponent.
  destruct (N.eqb_spec c 101); [contradiction|].
  destruct (N.eqb_spec c 69); [contradiction | done].
Qed.

Lemma number_ends_no_digit (rest : jsstring) :
  number_ends rest -> match rest with c :: _ => is_digit c = false | [] => True end.
Proof. destruct rest; [done|]. by intros (? & _). Qed.

(** A non-zero integer below 10^21 in absolute value is written with all
    its digits and nothing else. *)
Lemma Number_toString_integer (z : Z) :
  z <> 0 -> Z.abs z < 10 ^ 21 ->
  Number_toString (mkNumber z 0)
  = (if z <? 0 then [45%N] else []) ++ map digit_char (decimal_digits (Z.abs_N z)).
Proof.
  intros Hnz Hsmall. unfold Number_toString. cbn [mantissa scale].
  destruct (Z.eqb_spec z 0); [contradiction|]. f_equal.
  set (all := decimal_digits (Z.abs_N z)).
  set (ds := rev (strip_zeros (rev all))).
  assert (length ds <= length all)%nat as Hk.
  { unfold ds. rewrite length_rev. etransitivity; [apply strip_zeros_length|].
    by rewrite length_rev. }
  assert (length all <= 21)%nat as Hn.
  { apply (decimal_digits_length _ 20). change (10 ^ N.of_nat 21)%N with (Z.to_N (10 ^ 21)).
    lia. }
  destruct (Z.leb_spec (Z.of_nat (length ds)) (Z.of_nat (length all) - Z.of_nat 0));
    [|lia].
  destruct (Z.leb_spec (Z.of_nat (length all) - Z.of_nat 0) 21); [|lia].
  cbn [andb].
  replace (Z.to_nat (Z.of_nat (length all) - Z.of_nat 0 - Z.of_nat (length ds)))
    with (length all - length ds)%nat by lia.
  apply significant_digits.
Qed.

(** An integer below 10^21 in absolute value, written and followed by
    something a number cannot go on with, is read back as itself. *)
Lemma parse_number_integer (z : Z) (rest : jsstring) :
  Z.abs z < 10 ^ 21 -> number_ends rest ->
  parse_number (Number_toString (mkNumber z 0) ++ rest) = Some (mkNumber z 0, rest).
Proof.
  intros Hsmall Hrest.
  destruct (Z.eq_dec z 0) as [->|Hnz].
  { change (Number_toString (mkNumber 0 0)) with [48%N].
    unfold parse_number. cbn [app].
    replace (48 =? 45)%N with false by reflexivity.
    replace (48 =? 48)%N with true by reflexivity. cbv iota.
    rewrite (parse_fraction_none rest Hrest), (parse_exponent_none rest Hrest).
    reflexivity. }
  rewrite Number_toString_integer by done.
  pose proof (decimal_digits_value (Z.abs_N z)) as Hvalue.
  pose proof (decimal_digits_digits (Z.abs_N z)) as Hdigits.
  destruct (decimal_digits_head (Z.abs_N z)) as (d & ds & Hall & Hd); [lia|].
  assert (take_digits (map digit_char (decimal_digits (Z.abs_N z)) ++ rest)
          = (decimal_digits (Z.abs_N z), rest)) as Htake
    by (apply take_digits_chars; [done | by apply number_ends_no_digit]).
  rewrite Hall in *. apply Forall_cons in Hdigits as [Hd10 _].
  assert ((digit_char d =? 45)%N = false) as H45
    by (apply N.eqb_neq; unfold digit_char; lia).
  assert ((digit_char d =? 48)%N = false) as H48
    by (apply N.eqb_neq; unfold digit_char; lia).
  assert (is_digit (digit_char d) = true) as Hdig.
  { unfold is_digit, digit_char.
    destruct (N.leb_spec 48 (48 + d)); [|lia].
    destruct (N.leb_spec (48 + d) 57); [done | lia]. }
  unfold parse_number.
  destruct (Z.ltb_spec z 0) as [Hneg|Hpos].
  - cbn [app map]. replace (45 =? 45)%N with true by reflexivity. cbv iota.
    rewrite H48, Hdig. change (digit_char d :: map digit_char ds ++ rest)
      with (map digit_char (d :: ds) ++ rest).
    rewrite Htake, (parse_fraction_none rest Hrest), (parse_exponent_none rest Hrest).
    unfold make_number. rewrite app_nil_r, Hvalue. cbn [length Z.of_nat Z.leb Z.compare].
    do 2 f_equal. change (10 ^ (0 - 0)) with 1. f_equal. lia.
  - cbn [app map]. rewrite H45, H48, Hdig.
    change (digit_char d :: map digit_char ds ++ rest)
      with (map digit_char (d :: ds) ++ rest).
    rewrite Htake, (parse_fraction_none rest Hrest), (parse_exponent_none rest Hrest).
    unfold make_number. rewrite app_nil_r, Hvalue. cbn [length Z.of_nat Z.leb Z.compare].
    do 2 f_equal. change (10 ^ (0 - 0)) with 1. f_equal. lia.
Qed.

(** ** JSON text: strings written and read back *)

Lemma hex_value_hex_char (d : N) : (d < 16)%N -> hex_value (hex_char d) = Some d.
Proof.
  intros Hd.
  assert (d = 0 \/ d = 1 \/ d = 2 \/ d = 3 \/ d = 4 \/ d = 5 \/ d = 6 \/ d = 7 \/
          d = 8 \/ d = 9 \/ d = 10 \/ d = 11 \/ d = 12 \/ d = 13 \/ d = 14 \/ d = 15)%N
    as Hcases by lia.
  repeat (destruct Hcases as [->|Hcases]; [reflexivity|]). by subst.
Qed.

Lemma hex_digits_value (c : N) :
  (c < 65536)%N ->
  (c / 4096 mod 16 * 4096 + c / 256 mod 16 * 256 + c / 16 mod 16 * 16 + c mod 16 = c)%N.
Proof.
  intros Hc.
  replace (c / 4096)%N with (c / 16 / 16 / 16)%N by (by rewrite !N.Div0.div_div).
  replace (c / 256)%N with (c / 16 / 16)%N by (by rewrite !N.Div0.div_div).
  pose proof (N.div_mod' c 16) as H1.
  pose proof (N.div_mod' (c / 16) 16) as H2.
  pose proof (N.div_mod' (c / 16 / 16) 16) as H3.
  assert (c / 16 / 16 / 16 < 16)%N as H4.
  { rewrite !N.Div0.div_div. apply N.Div0.div_lt_upper_bound. simpl. lia. }
  rewrite (N.mod_small (c / 16 / 16 / 16) 16) by done.
  lia.
Qed.

Lemma parse_string_unicode_escape (c : N) (s : jsstring) :
  (c < 65536)%N ->
  parse_string (unicode_escape c ++ s) = cons_unit c (parse_string s).
Proof.
  intros Hc. unfold unicode_escape. cbn [app parse_string].
  replace (92 =? 34)%N with false by reflexivity.
  replace (92 =? 92)%N with true by reflexivity.
  replace (117 =? 117)%N with true by reflexivity. cbv iota.
  rewrite !hex_value_hex_char by (by apply N.mod_lt).
  by rewrite hex_digits_value.
Qed.

Lemma parse_string_literal (c : N) (s : jsstring) :
  c <> 34%N -> c <> 92%N -> (32 <= c)%N ->
  parse_string (c :: s) = cons_unit c (parse_string s).
Proof.
  intros H34 H92 H32. cbn [parse_string].
  destruct (N.eqb_spec c 34); [contradiction|].
  destruct (N.eqb_spec c 92); [contradiction|].
  destruct (N.ltb_spec c 32); [lia | done].
Qed.

Lemma parse_string_quote_unit (c : N) (s : jsstring) :
  parse_string (quote_unit c ++ s) = cons_unit c (parse_string s).
Proof.
  unfold quote_unit.
  repeat (match goal with
          | |- context [(c =? ?k)%N] => destruct (N.eqb_spec c k) as [->|?]
          end; [reflexivity|]).
  destruct (N.ltb_spec c 32) as [Hlt|Hge].
  - apply parse_string_unicode_escape. lia.
  - by apply parse_string_literal.
Qed.

Lemma surrogate_range (c : N) :
  is_leading_surrogate c = true \/ is_trailing_surrogate c = true ->
  (0xD800 <= c <= 0xDFFF)%N.
Proof.
  unfold is_leading_surrogate, is_trailing_surrogate.
  intros [H|H]; apply andb_prop in H as [H1 H2];
    apply N.leb_le in H1, H2; lia.
Qed.

Lemma parse_string_surrogate_escape (c : N) (s : jsstring) :
  is_leading_surrogate c = true \/ is_trailing_surrogate c = true ->
  parse_string (unicode_escape c ++ s) = cons_unit c (parse_string s).
Proof.
  intros Hc%surrogate_range. apply parse_string_unicode_escape. lia.
Qed.

Lemma parse_string_surrogate_literal (c : N) (s : jsstring) :
  is_leading_surrogate c = true \/ is_trailing_surrogate c = true ->
  parse_string (c :: s) = cons_unit c (parse_string s).
Proof.
  intros Hc%surrogate_range. apply parse_string_literal; lia.
Qed.

(** A quoted string is read back, unit for unit, up to its closing
    quote. *)
Lemma parse_string_quote_units (s rest : jsstring) :
  parse_string (quote_units s ++ 34%N :: rest) = Some (s, rest).
Proof.
  remember (length s) as n eqn:Hn. revert s Hn.
  induction n as [n IH] using lt_wf_ind. intros s ->.
  destruct s as [|c s1]; [reflexivity|]. cbn [quote_units].
  destruct (is_leading_surrogate c) eqn:Hlead.
  - destruct s1 as [|d s2].
    + rewrite parse_string_surrogate_escape by auto. reflexivity.
    + destruct (is_trailing_surrogate d) eqn:Htrail.
      * cbn [app]. rewrite !parse_string_surrogate_literal by auto.
        rewrite (IH (length s2)) by (simpl; lia || done). reflexivity.
      * rewrite <- app_assoc, parse_string_surrogate_escape by auto.
        rewrite (IH (length (d :: s2))) by (simpl; lia || done). reflexivity.
  - destruct (is_trailing_surrogate c) eqn:Htrail.
    + rewrite <- app_assoc, parse_string_surrogate_escape by auto.
      rewrite (IH (length s1)) by (simpl; lia || done). reflexivity.
    + rewrite <- app_assoc, parse_string_quote_unit.
      rewrite (IH (length s1)) by (simpl; lia || done). reflexivity.
Qed.

Lemma parse_string_quote (s rest : jsstring) :
  exists text, quote s ++ rest = 34%N :: text /\ parse_string text = Some (s, rest).
Proof.
  exists (quote_units s ++ 34%N :: rest). split.
  - unfold quote. cbn [app]. by rewrite <- app_assoc.
  - apply parse_string_quote_units.
Qed.

(** ** JSON text: values written and read back *)

Lemma skip_ws_app (ws s : jsstring) :
  Forall (fun c => is_json_space c = true) ws -> skip_ws (ws ++ s) = skip_ws s.
Proof. induction 1 as [|c ws Hc _ IH]; simpl; [done|]. by rewrite Hc. Qed.

Lemma skip_ws_stop (c : N) (s : jsstring) :
  is_json_space c = false -> skip_ws (c :: s) = c :: s.
Proof. intros Hc. simpl. by rewrite Hc. Qed.

Lemma parse_value_skip_ws (fuel : nat) (ws s : jsstring) :
  Forall (fun c => is_json_space c = true) ws ->
  parse_value fuel (ws ++ s) = parse_value fuel s.
Proof. intros Hws. destruct fuel; simpl; [done|]. by rewrite skip_ws_app. Qed.

Lemma parse_value_string (fuel : nat) (s tail : jsstring) :
  parse_value (S fuel) (quote s ++ tail) = Some (JString s, tail).
Proof.
  destruct (parse_string_quote s tail) as (text & -> & Hparse).
  cbn [parse_value]. rewrite skip_ws_stop by reflexivity.
  replace (34 =? 91)%N with false by reflexivity.
  replace (34 =? 123)%N with false by reflexivity.
  replace (34 =? 34)%N with true by reflexivity. cbv iota.
  by rewrite Hparse.
Qed.

(** A written integer starts with a minus sign or a digit. *)
Lemma Number_toString_head (z : Z) :
  Z.abs z < 10 ^ 21 ->
  exists c text, Number_toString (mkNumber z 0) = c :: text /\
                 (c = 45%N \/ is_digit c = true).
Proof.
  intros Hsmall. destruct (Z.eq_dec z 0) as [->|Hnz].
  { exists 48%N, []. split; [reflexivity | by right]. }
  rewrite Number_toString_integer by done.
  destruct (z <? 0); [by eexists _, _; split; [reflexivity | left]|].
  destruct (decimal_digits_head (Z.abs_N z)) as (d & ds & Hall & Hd); [lia|].
  pose proof (decimal_digits_digits (Z.abs_N z)) as Hdigits.
  rewrite Hall in *. apply Forall_cons in Hdigits as [Hd10 _].
  eexists _, _. split; [reflexivity|]. right.
  unfold is_digit, digit_char.
  destruct (N.leb_spec 48 (48 + d)); [|lia].
  destruct (N.leb_spec (48 + d) 57); [done | lia].
Qed.

Lemma parse_value_integer (fuel : nat) (z : Z) (tail : jsstring) :
  Z.abs z < 10 ^ 21 -> number_ends tail ->
  parse_value (S fuel) (Number_toString (mkNumber z 0) ++ tail)
  = Some (JNumber (mkNumber z 0), tail).
Proof.
  intros Hsmall Htail.
  pose proof (parse_number_integer z tail Hsmall Htail) as Hparse.
  destruct (Number_toString_head z Hsmall) as (c & text & Htext & Hc).
  rewrite Htext in *. cbn [parse_value app].
  assert (is_json_space c = false /\ (c =? 91)%N = false /\ (c =? 123)%N = false /\
          (c =? 34)%N = false /\ (c =? 116)%N = false /\ (c =? 102)%N = false /\
          (c =? 110)%N = false) as (Hws & H1 & H2 & H3 & H4 & H5 & H6).
  { destruct Hc as [->|Hc]; [by repeat split|].
    unfold is_digit in Hc. apply andb_prop in Hc as [Hlo Hhi].
    apply N.leb_le in Hlo, Hhi. unfold is_json_space.
    split_and!; repeat (apply orb_false_intro); apply N.eqb_neq; lia. }
  rewrite skip_ws_stop by done. rewrite H1, H2, H3, H4, H5, H6.
  cbn [app] in Hparse. by rewrite Hparse.
Qed.

(** One member of an object, its value read by [parse_value]. *)
Lemma parse_members_member (fuel : nat) (ws key text tail : jsstring) (v : json)
    (acc : list (jsstring * json)) :
  Forall (fun c => is_json_space c = true) ws ->
  parse_value fuel (text ++ tail) = Some (v, tail) ->
  parse_members (S fuel) (ws ++ quote key ++ [58%N; 32%N] ++ text ++ tail) acc
  = match skip_ws tail with
    | c :: rest =>
        if (c =? 44)%N then parse_members fuel rest (define_property key v acc)
        else if (c =? 125)%N then Some (JObject (define_property key v acc), rest)
        else None
    | [] => None
    end.
Proof.
  intros Hws Hv.
  destruct (parse_string_quote key ([58%N; 32%N] ++ text ++ tail))
    as (quoted & Hquoted & Hparse).
  cbn [parse_members]. rewrite skip_ws_app, Hquoted by done.
  rewrite skip_ws_stop by reflexivity.
  replace (34 =? 34)%N with true by reflexivity. cbv iota.
  rewrite Hparse. cbn [app]. rewrite skip_ws_stop by reflexivity.
  replace (58 =? 58)%N with true by reflexivity. cbv iota.
  change (32%N :: text ++ tail) with ([32%N] ++ text ++ tail).
  rewrite (parse_value_skip_ws fuel [32%N]) by (by repeat constructor).
  by rewrite Hv.
Qed.

(** One element of an array, read by [parse_value]. *)
Lemma parse_elements_element (fuel : nat) (text tail : jsstring) (v : json)
    (acc : list json) :
  parse_value fuel (text ++ tail) = Some (v, tail) ->
  parse_elements (S fuel) (text ++ tail) acc
  = match skip_ws tail with
    | c :: rest =>
        if (c =? 44)%N then parse_elements fuel rest (v :: acc)
        else if (c =? 93)%N then Some (JArray (rev (v :: acc)), rest)
        else None
    | [] => None
    end.
Proof. intros Hv. cbn [parse_elements]. by rewrite Hv. Qed.

(** ** The high-score file: written and read back *)

(** The text of one record at a given indentation. *)
Lemma serialize_record (indent : jsstring) (r : ScoreRecord) (rest : jsstring) :
  serialize indent (json_of_record r) ++ rest
  = 123%N :: ([10%N] ++ indent ++ gap) ++ quote (str "name") ++ [58%N; 32%N]
      ++ quote (name r)
      ++ 44%N :: ([10%N] ++ indent ++ gap) ++ quote (str "score") ++ [58%N; 32%N]
      ++ Number_toString (mkNumber (score r) 0)
      ++ 44%N :: ([10%N] ++ indent ++ gap) ++ quote (str "date") ++ [58%N; 32%N]
      ++ quote (date r)
      ++ ([10%N] ++ indent) ++ 125%N :: rest.
Proof.
  unfold json_of_record. cbn [serialize map join].
  change (str "{") with [123%N]. change (str "}") with [125%N].
  change (str ": ") with [58%N; 32%N].
  rewrite <- !app_assoc. reflexivity.
Qed.

Lemma record_properties (n d : jsstring) (z : Z) :
  define_property (str "date") (JString d)
    (define_property (str "score") (JNumber (mkNumber z 0))
       (define_property (str "name") (JString n) []))
  = [(str "name", JString n); (str "score", JNumber (mkNumber z 0));
     (str "date", JString d)].
Proof. reflexivity. Qed.

Lemma indentation_space (indent : jsstring) :
  Forall (fun c => is_json_space c = true) indent ->
  Forall (fun c => is_json_space c = true) ([10%N] ++ indent ++ gap) /\
  Forall (fun c => is_json_space c = true) ([10%N] ++ indent).
Proof.
  intros Hindent. split.
  - apply Forall_app. split; [by repeat constructor|].
    apply Forall_app. split; [done | by repeat constructor].
  - apply Forall_app. split; [by repeat constructor | done].
Qed.

(** The brace of an object whose first key follows. *)
Lemma parse_value_object_open (fuel : nat) (ws key text : jsstring) :
  Forall (fun c => is_json_space c = true) ws ->
  parse_value (S fuel) (123%N :: ws ++ quote key ++ text)
  = parse_members fuel (ws ++ quote key ++ text) [].
Proof.
  intros Hws. cbn [parse_value]. rewrite skip_ws_stop by reflexivity.
  replace (123 =? 91)%N with false by reflexivity.
  replace (123 =? 123)%N with true by reflexivity. cbv iota.
  rewrite skip_ws_app by done. unfold quote at 1. cbn [app].
  rewrite skip_ws_stop by reflexivity.
  replace (34 =? 125)%N with false by reflexivity. reflexivity.
Qed.

(** The bracket of an array whose first element is an object. *)
Lemma parse_value_array_open (fuel : nat) (ws text : jsstring) :
  Forall (fun c => is_json_space c = true) ws ->
  parse_value (S fuel) (91%N :: ws ++ 123%N :: text)
  = parse_elements fuel (ws ++ 123%N :: text) [].
Proof.
  intros Hws. cbn [parse_value]. rewrite skip_ws_stop by reflexivity.
  replace (91 =? 91)%N with true by reflexivity. cbv iota.
  rewrite skip_ws_app by done. rewrite skip_ws_stop by reflexivity.
  replace (123 =? 93)%N with false by reflexivity. reflexivity.
Qed.

(** A record is read back from its text. *)
Lemma parse_value_record (fuel : nat) (indent : jsstring) (r : ScoreRecord)
    (rest : jsstring) :
  Forall (fun c => is_json_space c = true) indent ->
  Z.abs (score r) < 10 ^ 21 ->
  parse_value (5 + fuel) (serialize indent (json_of_record r) ++ rest)
  = Some (json_of_record r, rest).
Proof.
  intros Hindent Hscore.
  destruct (indentation_space indent Hindent) as [Hws Hback].
  rewrite serialize_record.
  change (5 + fuel)%nat with (S (S (S (S (S fuel))))).
  rewrite parse_value_object_open by done.
  rewrite (parse_members_member _ _ (str "name") _ _ (JString (name r)))
    by (done || apply parse_value_string).
  rewrite skip_ws_stop by reflexivity.
  replace (44 =? 44)%N with true by reflexivity. cbv iota.
  rewrite (parse_members_member _ _ (str "score") _ _ (JNumber (mkNumber (score r) 0)))
    by (done || (apply parse_value_integer; [done | by repeat split])).
  rewrite skip_ws_stop by reflexivity.
  replace (44 =? 44)%N with true by reflexivity. cbv iota.
  rewrite (parse_members_member _ _ (str "date") _ _ (JString (date r)))
    by (done || apply parse_value_string).
  rewrite skip_ws_app by done. rewrite skip_ws_stop by reflexivity.
  replace (125 =? 44)%N with false by reflexivity.
  replace (125 =? 125)%N with true by reflexivity. cbv iota.
  by rewrite record_properties.
Qed.

Lemma serialize_record_head (indent : jsstring) (r : ScoreRecord) (rest : jsstring) :
  exists text, serialize indent (json_of_record r) ++ rest = 123%N :: text.
Proof. rewrite serialize_record. by eexists. Qed.

Lemma leaderboard_text (r : ScoreRecord) (rs : list ScoreRecord) (rest : jsstring) :
  JSON_stringify (json_of_leaderboard (r :: rs)) ++ rest = 91%N :: records_text r rs rest.
Proof.
  unfold JSON_stringify, json_of_leaderboard. cbn [serialize map].
  change (str "[") with [91%N]. change (str "]") with [93%N].
  change ([] ++ gap) with gap.
  cbn [app]. f_equal.
  change (10%N :: gap ++ ?x) with (([10%N] ++ gap) ++ x).
  rewrite <- !app_assoc.
  change (json_of_record r :: map json_of_record rs)
    with (map json_of_record (r :: rs)).
  revert r. induction rs as [|r' rs IH]; intros r.
  - cbn [records_text map join]. by rewrite <- !app_assoc.
  - cbn [records_text]. rewrite <- IH. cbn [map join].
    rewrite <- !app_assoc. reflexivity.
Qed.

Lemma parse_elements_records (rs : list ScoreRecord) :
  forall (r : ScoreRecord) (acc : list json) (fuel : nat) (rest : jsstring),
    Forall (fun r => Z.abs (score r) < 10 ^ 21) (r :: rs) ->
    parse_elements (6 + length rs + fuel) (records_text r rs rest) acc
    = Some (JArray (rev acc ++ map json_of_record (r :: rs)), rest).
Proof.
  assert (Forall (fun c => is_json_space c = true) gap) as Hgap
    by (by repeat constructor).
  assert (Forall (fun c => is_json_space c = true) ([10%N] ++ gap)) as Hws
    by (by repeat constructor).
  induction rs as [|r' rs IH]; intros r acc fuel rest Hsmall;
    apply Forall_cons in Hsmall as [Hr Hrs]; cbn [records_text].
  - change (6 + length [] + fuel)%nat with (S (5 + fuel)).
    rewrite (app_assoc ([10%N] ++ gap)).
    rewrite (parse_elements_element _ _ _ (json_of_record r)).
    + change (skip_ws (10%N :: 93%N :: rest)) with (93%N :: rest).
      replace (93 =? 44)%N with false by reflexivity.
      replace (93 =? 93)%N with true by reflexivity. reflexivity.
    + rewrite <- app_assoc, parse_value_skip_ws by done.
      by apply parse_value_record.
  - change (6 + length (r' :: rs) + fuel)%nat with (S (6 + length rs + fuel)).
    rewrite (app_assoc ([10%N] ++ gap)).
    rewrite (parse_elements_element _ _ _ (json_of_record r)).
    + rewrite skip_ws_stop by reflexivity.
      replace (44 =? 44)%N with true by reflexivity. cbv iota.
      rewrite IH by done. cbn [rev map]. by rewrite <- app_assoc.
    + rewrite <- app_assoc, parse_value_skip_ws by done.
      change (6 + length rs + fuel)%nat with (5 + (1 + length rs + fuel))%nat.
      by apply parse_value_record.
Qed.

Lemma records_text_head (r : ScoreRecord) (rs : list ScoreRecord) (rest : jsstring) :
  exists text, skip_ws (records_text r rs rest) = 123%N :: text.
Proof.
  assert (exists tail, records_text r rs rest
                       = ([10%N] ++ gap) ++ serialize gap (json_of_record r) ++ tail)
    as [tail ->] by (destruct rs; by eexists).
  destruct (serialize_record_head gap r tail) as [text ->].
  rewrite skip_ws_app by (by repeat constructor).
  rewrite skip_ws_stop by reflexivity. by eexists.
Qed.

(** The text of a leaderboard is read back as the leaderboard. *)
Lemma JSON_parse_stringify (l : list ScoreRecord) :
  Forall (fun r => Z.abs (score r) < 10 ^ 21) l ->
  JSON_parse (JSON_stringify (json_of_leaderboard l)) = Return (json_of_leaderboard l).
Proof.
  intros Hsmall. destruct l as [|r rs]; [reflexivity|].
  apply (JSON_parse_Return _ _ (S (6 + length rs + 0)) []); [|reflexivity].
  rewrite <- (app_nil_r (JSON_stringify _)), leaderboard_text.
  cbn [parse_value]. rewrite skip_ws_stop by reflexivity.
  replace (91 =? 91)%N with true by reflexivity. cbv iota.
  destruct (records_text_head r rs []) as [text ->].
  replace (123 =? 93)%N with false by reflexivity. cbv iota.
  by rewrite parse_elements_records.
Qed.

Lemma record_of_json_of_record (r : ScoreRecord) :
  record_of_json (json_of_record r) = Some r.
Proof. by destruct r. Qed.

Lemma leaderboard_of_json_of_leaderboard (l : list ScoreRecord) :
  leaderboard_of_json (json_of_leaderboard l) = Some l.
Proof.
  unfold leaderboard_of_json, json_of_leaderboard.
  induction l as [|r l IH]; [done|].
  cbn [map records_of_json]. by rewrite record_of_json_of_record, IH.
Qed.

Lemma safe_integer_small (z : Z) : safe_integer z -> Z.abs z < 10 ^ 21.
Proof. unfold safe_integer. lia. Qed.

Lemma loadHighScores_persist (l : list ScoreRecord) :
  Forall (fun r => safe_integer (score r)) l ->
  loadHighScores (persist l) = Return (json_of_leaderboard l).
Proof.
  intros Hsafe. unfold loadHighScores, persist, writeFile. cbn [readFile].
  rewrite JSON_parse_stringify; [done|].
  eapply Forall_impl; [exact Hsafe|]. intros r. apply safe_integer_small.
Qed.

(** C8.  A leaderboard whose scores are integers that JS holds exactly,
    written to the file and loaded again, comes back as the array of the
    same records, each with its [name], [score] and [date] as they
    were. *)
Theorem persist_then_load (l : list ScoreRecord)
    (Hsafe : Forall (fun r => safe_integer (score r)) l) :
  loadHighScores (persist l) = Return (json_of_leaderboard l) /\
  leaderboard_of_json (json_of_leaderboard l) = Some l.
Proof.
  split; [by apply loadHighScores_persist | apply leaderboard_of_json_of_leaderboard].
Qed.

(** Saving a score on a file the program wrote: the file then holds the
    merged leaderboard. *)
Lemma saveHighScore_persist (now player : jsstring) (points : Z) (l : list ScoreRecord) :
  Forall (fun r => safe_integer (score r)) l ->
  saveHighScore now points player (persist l)
  = Some (persist (merge l (mkScoreRecord player points now))).
Proof.
  intros Hsafe. unfold saveHighScore.
  by rewrite loadHighScores_persist, leaderboard_of_json_of_leaderboard.
Qed.

Lemma persist_then_load_witness :
  loadHighScores (persist leaderboard_example)
  = Return (json_of_leaderboard leaderboard_example).
Proof.
  apply (persist_then_load leaderboard_example).
  repeat constructor; unfold safe_integer; simpl; lia.
Defined.


(** A text that is a JSON value is returned as parsed, whatever the value:
    the [catch] only covers the read and the parse. *)
Lemma loadHighScores_other_value :
  loadHighScores (Content (str "42")) = Return (JNumber (mkNumber 42 0)).
Proof. vm_compute. reflexivity. Qed.

(** The file the program writes first, and the one [reset] leaves. *)
Lemma loadHighScores_reset : loadHighScores resetHighScores = Return (JArray []).
Proof. vm_compute. reflexivity. Qed.

(* ===================================================================== *)
(** * Part III.  Further properties                                       *)
(* ===================================================================== *)

(** ** The leaderboard over several games *)

Lemma array_sort_sorted_id (l : list ScoreRecord) :
  StronglySorted (fun a b => score b <= score a) l -> array_sort by_score_desc l = l.
Proof.
  induction 1 as [|x l Hl IH Hx]; [done|]. simpl. rewrite IH.
  destruct l as [|y l']; [done|]. simpl.
  apply Forall_cons in Hx as [Hy _]. unfold by_score_desc.
  destruct (Z.ltb_spec 0 (score y - score x)); [lia | done].
Qed.

Lemma sort_insert_insert_last (x e : ScoreRecord) (l : list ScoreRecord) :
  sort_insert by_score_desc x (insert_last by_score_desc e l)
  = insert_last by_score_desc e (sort_insert by_score_desc x l).
Proof.
  induction l as [|y l IH]; simpl; unfold by_score_desc in *.
  - destruct (Z.ltb_spec 0 (score e - score x)); reflexivity.
  - destruct (Z.ltb_spec 0 (score e - score y)) as [Hey|Hey];
      destruct (Z.ltb_spec 0 (score y - score x)) as [Hyx|Hyx]; simpl;
      repeat match goal with
        | |- context [0 <? ?a - ?b] => destruct (Z.ltb_spec 0 (a - b)); try lia
        end; try reflexivity.
    by rewrite IH.
Qed.

Lemma array_sort_snoc (l : list ScoreRecord) (e : ScoreRecord) :
  array_sort by_score_desc (l ++ [e])
  = insert_last by_score_desc e (array_sort by_score_desc l).
Proof.
  induction l as [|x l IH]; [done|]. simpl.
  by rewrite IH, sort_insert_insert_last.
Qed.

Lemma take_insert_last (n : nat) (e : ScoreRecord) (s : list ScoreRecord) :
  take n (insert_last by_score_desc e (take n s))
  = take n (insert_last by_score_desc e s).
Proof.
  revert n. induction s as [|y s IH]; intros [|n]; try done. simpl.
  destruct (0 <? by_score_desc y e); simpl.
  - f_equal. destruct n as [|n]; [done|]. simpl. f_equal.
    rewrite take_take. f_equal. lia.
  - by rewrite IH.
Qed.

(** Merging into a truncated leaderboard or into the untruncated list of
    all the records gives the same five. *)
Lemma merge_truncated (l : list ScoreRecord) (e : ScoreRecord) :
  merge (take 5 (array_sort by_score_desc l)) e
  = take 5 (array_sort by_score_desc (l ++ [e])).
Proof.
  unfold merge, splice_from. rewrite !array_sort_snoc.
  rewrite array_sort_sorted_id
    by (apply StronglySorted_take, (array_sort_sorted score)).
  apply take_insert_last.
Qed.

Lemma fold_left_merge (entries : list ScoreRecord) :
  fold_left merge entries [] = take 5 (array_sort by_score_desc entries).
Proof.
  induction entries as [|e entries IH] using rev_ind; [done|].
  by rewrite fold_left_app, IH; simpl; rewrite merge_truncated.
Qed.

(** X1.  Whatever scores are merged one after the other into an empty
    leaderboard, the leaderboard is the first five of the stable
    descending sort of all of them: no record is lost to an earlier
    truncation. *)
Theorem best_five_of_all (entries : list ScoreRecord) :
  fold_left merge entries [] = take 5 (array_sort by_score_desc entries).
Proof. apply fold_left_merge. Qed.

(** X2.  With fewer than five records before, nothing is dropped: the
    merged list is a rearrangement of the old records and the entry. *)
Theorem merge_below_five (highScores : list ScoreRecord) (entry : ScoreRecord)
    (Hroom : (length highScores < 5)%nat) :
  merge highScores entry ≡ₚ highScores ++ [entry] /\
  length (merge highScores entry) = S (length highScores).
Proof.
  assert (merge highScores entry ≡ₚ highScores ++ [entry]) as Hperm.
  { unfold merge, splice_from. rewrite take_ge.
    - apply (array_sort_Permutation score).
    - rewrite (array_sort_Permutation score), length_app. simpl. lia. }
  split; [exact Hperm|]. rewrite Hperm, length_app. simpl. lia.
Qed.

Lemma merge_below_five_witness :
  length (merge (take 2 leaderboard_example) entry_example) = 3%nat.
Proof.
  apply (merge_below_five (take 2 leaderboard_example) entry_example).
  simpl. lia.
Defined.

Lemma insert_last_low (e : ScoreRecord) (l : list ScoreRecord) :
  Forall (fun r => score e <= score r) l ->
  insert_last by_score_desc e l = l ++ [e].
Proof.
  induction 1 as [|y l Hy _ IH]; [done|]. simpl. unfold by_score_desc at 1.
  destruct (Z.ltb_spec 0 (score e - score y)); [lia|]. by rewrite IH.
Qed.

(** X3.  A full, sorted leaderboard is left as it is by a score that does
    not beat its records, the fifth included: on a tie the older record
    stays. *)
Theorem merge_low_score (highScores : list ScoreRecord) (entry : ScoreRecord)
    (Hsorted : StronglySorted (fun a b => score b <= score a) highScores)
    (Hfull : length highScores = 5%nat)
    (Hlow : Forall (fun r => score entry <= score r) highScores) :
  merge highScores entry = highScores.
Proof.
  unfold merge, splice_from.
  rewrite array_sort_snoc, array_sort_sorted_id, insert_last_low by done.
  rewrite take_app_le by lia. apply take_ge. lia.
Qed.

Lemma merge_low_score_witness :
  merge leaderboard_example (mkScoreRecord (str "Gus") 50 (str "2024-01-07T00:00:00.000Z"))
  = leaderboard_example.
Proof.
  apply merge_low_score.
  - repeat constructor; simpl; lia.
  - reflexivity.
  - repeat constructor; simpl; lia.
Defined.

Lemma insert_last_high (e : ScoreRecord) (l : list ScoreRecord) :
  Forall (fun r => score r < score e) l ->
  insert_last by_score_desc e l = e :: l.
Proof.
  destruct 1 as [|y l Hy _]; [done|]. simpl. unfold by_score_desc.
  destruct (Z.ltb_spec 0 (score e - score y)); [done | lia].
Qed.

(** X4.  A score above all the recorded ones comes first, followed by the
    four best of the old records. *)
Theorem merge_new_best (highScores : list ScoreRecord) (entry : ScoreRecord)
    (Hbest : Forall (fun r => score r < score entry) highScores) :
  merge highScores entry = entry :: take 4 (array_sort by_score_desc highScores).
Proof.
  unfold merge, splice_from. rewrite array_sort_snoc, insert_last_high; [done|].
  by rewrite (array_sort_Permutation score).
Qed.

Lemma merge_new_best_witness :
  merge leaderboard_example (mkScoreRecord (str "Gus") 95 (str "2024-01-07T00:00:00.000Z"))
  = mkScoreRecord (str "Gus") 95 (str "2024-01-07T00:00:00.000Z")
    :: take 4 (array_sort by_score_desc leaderboard_example).
Proof.
  apply merge_new_best. repeat constructor; simpl; lia.
Defined.

Lemma filter_take_prefix {A} (P : A -> Prop) `{forall x, Decision (P x)}
    (n : nat) (l : list A) :
  filter P (take n l) `prefix_of` filter P l.
Proof.
  exists (filter P (drop n l)). by rewrite <- filter_app, take_drop.
Qed.

(** X5.  Among the records of one score the merged list keeps the order of
    the old list, the new entry last: what it shows of them is the
    beginning of what there was. *)
Theorem merge_ties_in_order (highScores : list ScoreRecord) (entry : ScoreRecord)
    (k : Z) :
  filter (fun r => score r = k) (merge highScores entry)
  `prefix_of` filter (fun r => score r = k) (highScores ++ [entry]).
Proof.
  unfold merge, splice_from.
  rewrite <- (array_sort_stable score k (highScores ++ [entry])).
  apply filter_take_prefix.
Qed.

(** ** The high-score file over several games *)

Lemma merge_Forall (P : ScoreRecord -> Prop) (l : list ScoreRecord) (e : ScoreRecord) :
  Forall P l -> P e -> Forall P (merge l e).
Proof.
  intros Hl He. unfold merge, splice_from. apply Forall_take.
  rewrite (array_sort_Permutation score). apply Forall_app. by repeat constructor.
Qed.

Lemma fold_left_merge_Forall (P : ScoreRecord -> Prop) (entries l : list ScoreRecord) :
  Forall P l -> Forall P entries -> Forall P (fold_left merge entries l).
Proof.
  intros Hl Hentries. revert l Hl.
  induction Hentries as [|e entries He _ IH]; intros l Hl; [done|].
  simpl. apply IH. by apply merge_Forall.
Qed.

Lemma loadHighScores_unreadable (file : file_state) :
  file = Absent \/ (exists data, file = Content data /\ malformed data) ->
  loadHighScores file = Return (JArray []).
Proof.
  intros [->|(data & -> & Hbad)]; [reflexivity|].
  apply JSON_parse_Throw in Hbad as [message Hthrow].
  unfold loadHighScores. simpl. by rewrite Hthrow.
Qed.

(** X6.  Saving a score on a file that the program wrote succeeds, and
    loading the new file returns the merged leaderboard: the old records
    and the new one, sorted, five at most. *)
Theorem save_then_load (now player : jsstring) (points : Z) (l : list ScoreRecord)
    (Hsafe : Forall (fun r => safe_integer (score r)) l)
    (Hpoints : safe_integer points) :
  exists file',
    saveHighScore now points player (persist l) = Some file' /\
    loadHighScores file'
    = Return (json_of_leaderboard (merge l (mkScoreRecord player points now))).
Proof.
  eexists. split; [by apply saveHighScore_persist|].
  apply loadHighScores_persist. by apply merge_Forall.
Qed.

Lemma save_then_load_witness :
  exists file',
    saveHighScore (str "2024-01-06T00:00:00.000Z") 75 (str "Flo")
      (persist leaderboard_example) = Some file' /\
    loadHighScores file' = Return (json_of_leaderboard (merge leaderboard_example entry_example)).
Proof.
  apply (save_then_load (str "2024-01-06T00:00:00.000Z") (str "Flo") 75
           leaderboard_example).
  - repeat constructor; unfold safe_integer; simpl; lia.
  - unfold safe_integer. simpl. lia.
Defined.

(** X7.  On a file that is absent, or whose text is no JSON value, saving a
    score writes a leaderboard of that one record: what the unreadable
    file held is replaced, not repaired. *)
Theorem save_on_unreadable (now player : jsstring) (points : Z) (file : file_state)
    (Hbad : file = Absent \/ exists data, file = Content data /\ malformed data) :
  saveHighScore now points player file
  = Some (persist [mkScoreRecord player points now]).
Proof.
  unfold saveHighScore. by rewrite (loadHighScores_unreadable file Hbad).
Qed.

Lemma save_on_unreadable_witness :
  saveHighScore (str "2024-01-06T00:00:00.000Z") 75 (str "Flo") (Content (str "[1, 2"))
  = Some (persist [entry_example]).
Proof.
  apply (save_on_unreadable (str "2024-01-06T00:00:00.000Z") (str "Flo") 75
           (Content (str "[1, 2"))).
  right. eexists. split; [reflexivity|].
  apply JSON_parse_Throw. eexists. vm_compute. reflexivity.
Defined.

Lemma save_all_persist (entries l : list ScoreRecord) :
  Forall (fun r => safe_integer (score r)) l ->
  Forall (fun r => safe_integer (score r)) entries ->
  save_all entries (persist l) = Some (persist (fold_left merge entries l)).
Proof.
  intros Hl Hentries. revert l Hl.
  induction Hentries as [|e entries He _ IH]; intros l Hl; [done|].
  simpl. rewrite saveHighScore_persist by done.
  replace (mkScoreRecord (name e) (score e) (date e)) with e by (by destruct e).
  apply IH. by apply merge_Forall.
Qed.

(** X8.  After a reset, whatever number of scores is saved, the file holds
    the five best of all of them, equal scores in the order of their
    saves. *)
Theorem save_all_best_five (entries : list ScoreRecord)
    (Hsafe : Forall (fun r => safe_integer (score r)) entries) :
  save_all entries resetHighScores
  = Some (persist (take 5 (array_sort by_score_desc entries))).
Proof.
  change resetHighScores with (persist []).
  rewrite save_all_persist by done. by rewrite fold_left_merge.
Qed.

Lemma save_all_best_five_witness :
  save_all (leaderboard_example ++ [entry_example]) resetHighScores
  = Some (persist (take 5 (array_sort by_score_desc (leaderboard_example ++ [entry_example])))).
Proof.
  apply save_all_best_five.
  repeat constructor; unfold safe_integer; simpl; lia.
Defined.

(** ** [shuffle] on any array *)



(** ** The prompts *)

Lemma parseCoordinates_coordinate_text (r c : Z) :
  0 <= r <= 3 -> 0 <= c <= 3 ->
  parseCoordinates (coordinate_text r c) = Return (Num r, Num c).
Proof.
  intros Hr Hc.
  assert (r = 0 \/ r = 1 \/ r = 2 \/ r = 3) as Hr' by lia.
  assert (c = 0 \/ c = 1 \/ c = 2 \/ c = 3) as Hc' by lia.
  destruct Hr' as [->|[->|[->| ->]]]; destruct Hc' as [->|[->|[->| ->]]];
    vm_compute; reflexivity.
Qed.

Lemma parseCoordinates_text (input : jsstring) (row col : value) :
  parseCoordinates input = Return (row, col) ->
  exists r c, 0 <= r <= 3 /\ 0 <= c <= 3 /\ input = coordinate_text r c /\
              row = Num r /\ col = Num c.
Proof.
  intros Hp. pose proof Hp as Hp'. unfold parseCoordinates in Hp'.
  destruct (regexp_test coordinates_regexp input) eqn:Hre; [|done].
  apply regexp_test_coordinates in Hre as (a & b & Ha & Hb & Hin).
  destruct (coordinate_text_inv input a b Ha Hb Hin) as (r & c & Hr & Hc & Htext & Hq).
  rewrite Hq in Hp. simplify_eq. by exists r, c.
Qed.

Lemma get_grid {A} (g : list (list A)) (v : value) :
  grid g -> in_range v -> exists cells, get g v = Some cells /\ length cells = 4%nat.
Proof.
  intros [Hlen Hrows] Hv.
  destruct (index_of_in_range v Hv) as (i & Hi & Hlt & _).
  unfold get. rewrite Hi.
  destruct (lookup_lt_is_Some_2 g i) as [cells Hcells]; [lia|].
  exists cells. split; [done|].
  by apply (Forall_lookup_1 _ _ _ _ Hrows Hcells).
Qed.

Lemma validate_first_revealed_at (mask : list (list bool)) (input : jsstring)
    (row col : value) :
  grid mask -> parseCoordinates input = Return (row, col) ->
  validate_first mask input
  = if revealed_at mask row col then Invalid "Card already revealed!" else Valid.
Proof.
  intros Hgrid Hp. destruct (in_range_parseCoordinates _ _ _ Hp) as [Hrow _].
  destruct (get_grid mask row Hgrid Hrow) as (cells & Hget & _).
  unfold validate_first, revealed_at. rewrite Hp, Hget.
  by destruct (default false (get cells col)).
Qed.

(** X10.  What the first prompt answers on a mask of four rows of four
    flags: a line is accepted exactly when it is [d,d] with both digits
    in 1..4 and names a card that lies face down; it is answered "Card
    already revealed!" when it names a card face up; and the message on
    the format is kept for the lines that are not such a pair: no error
    of a read outside the mask ends in the [catch]. *)
Theorem validate_first_answers (mask : list (list bool)) (input : jsstring)
    (Hgrid : grid mask) :
  match validate_first mask input with
  | Valid =>
      exists r c, 0 <= r <= 3 /\ 0 <= c <= 3 /\ input = coordinate_text r c /\
                  revealed_at mask (Num r) (Num c) = false
  | Invalid message =>
      (message = "Card already revealed!"%string /\
       exists r c, 0 <= r <= 3 /\ 0 <= c <= 3 /\ input = coordinate_text r c /\
                   revealed_at mask (Num r) (Num c) = true)
      \/
      (message = "Invalid format. Use coordinates (e.g., 1,2)."%string /\
       ~ exists r c, 0 <= r <= 3 /\ 0 <= c <= 3 /\ input = coordinate_text r c)
  end.
Proof.
  destruct (parseCoordinates input) as [[row col]|message] eqn:Hp.
  - rewrite (validate_first_revealed_at mask input row col Hgrid Hp).
    destruct (parseCoordinates_text input row col Hp)
      as (r & c & Hr & Hc & Htext & -> & ->).
    destruct (revealed_at mask (Num r) (Num c)) eqn:Hflag.
    + left. split; [done|]. by exists r, c.
    + by exists r, c.
  - unfold validate_first. rewrite Hp. right. split; [done|].
    intros (r & c & Hr & Hc & ->).
    by rewrite parseCoordinates_coordinate_text in Hp.
Qed.

Lemma validate_first_answers_witness :
  exists r c, 0 <= r <= 3 /\ 0 <= c <= 3 /\ str "2,3" = coordinate_text r c /\
              revealed_at (revealed sample_turn) (Num r) (Num c) = false.
Proof.
  apply (validate_first_answers (revealed sample_turn) (str "2,3")).
  split; [reflexivity|]. repeat constructor.
Defined.

Lemma validate_second_first (st : RoundState) (row1 col1 : value) (input : jsstring) :
  well_formed st -> control_at st = SecondPrompt row1 col1 ->
  validate_second (revealed st) row1 col1 input = Valid <->
  validate_first (revealed st) input = Valid.
Proof.
  intros Hwf Hctl.
  destruct Hwf as (_ & Hgrid & Hinv). rewrite Hctl in Hinv.
  destruct Hinv as (_ & Hrow1 & Hcol1 & Hup).
  unfold validate_second, validate_first.
  destruct (parseCoordinates input) as [[row col]|message] eqn:Hp; [|done].
  destruct (in_range_parseCoordinates _ _ _ Hp) as [Hrow Hcol].
  destruct (get_grid (revealed st) row Hgrid Hrow) as (cells & Hget & _).
  rewrite Hget.
  destruct (default false (get cells col)) eqn:Hflag; [done|]. simpl.
  rewrite !strict_eq_in_range by done.
  destruct (decide (row = row1)) as [->|Hne].
  - destruct (decide (col = col1)) as [->|Hne].
    + unfold revealed_at in Hup. rewrite Hget, Hflag in Hup. done.
    + by rewrite (bool_decide_false (col = col1)), andb_false_r.
  - by rewrite (bool_decide_false (row = row1)).
Qed.

(** X11.  At the second prompt of a round the test
    [row === row1 && col === col1] never decides: the first card lies face
    up, so a line is accepted at the second prompt exactly when the first
    prompt would accept it on the same mask. *)
Theorem second_prompt_as_first (st : RoundState) (row1 col1 : value) (input : jsstring)
    (Hwf : well_formed st)
    (Hctl : control_at st = SecondPrompt row1 col1) :
  validate_second (revealed st) row1 col1 input = Valid <->
  validate_first (revealed st) input = Valid.
Proof. by apply validate_second_first. Qed.

Lemma second_prompt_as_first_witness :
  validate_second (revealed sample_turn) (Num 0) (Num 0) (str "2,3") = Valid <->
  validate_first (revealed sample_turn) (str "2,3") = Valid.
Proof.
  apply (second_prompt_as_first sample_turn (Num 0) (Num 0) (str "2,3")).
  - exact sample_turn_well_formed.
  - reflexivity.
Defined.

(** ** The states of a round *)

Lemma grid_cells {A} (g : list (list A)) :
  grid g ->
  exists a00 a01 a02 a03 a10 a11 a12 a13 a20 a21 a22 a23 a30 a31 a32 a33,
    g = [[a00; a01; a02; a03]; [a10; a11; a12; a13];
         [a20; a21; a22; a23]; [a30; a31; a32; a33]].
Proof.
  intros [Hlen Hrows].
  destruct g as [|r0 [|r1 [|r2 [|r3 [|]]]]]; try done.
  apply Forall_cons in Hrows as [H0 Hrows]. apply Forall_cons in Hrows as [H1 Hrows].
  apply Forall_cons in Hrows as [H2 Hrows]. apply Forall_cons in Hrows as [H3 _].
  destruct r0 as [|? [|? [|? [|? [|]]]]]; try done.
  destruct r1 as [|? [|? [|? [|? [|]]]]]; try done.
  destruct r2 as [|? [|? [|? [|? [|]]]]]; try done.
  destruct r3 as [|? [|? [|? [|? [|]]]]]; try done.
  by do 16 eexists.
Qed.

Lemma in_range_Num (z : Z) : 0 <= z <= 3 -> in_range (Num z).
Proof. intros Hz. by exists z. Qed.

Lemma in_range_cases (v : value) :
  in_range v -> v = Num 0 \/ v = Num 1 \/ v = Num 2 \/ v = Num 3.
Proof.
  intros (z & -> & Hz).
  assert (z = 0 \/ z = 1 \/ z = 2 \/ z = 3) as [->|[->|[->| ->]]] by lia; auto.
Qed.

(** The four things a line does to a round: nothing (a rejected line, or
    the round is over), the first card of a turn, the second card of a
    matching turn, the second card of a turn without a match. *)
Lemma step_cases (st st' : RoundState) (input : jsstring) :
  well_formed st -> step st input = Some st' ->
  st' = st
  \/ (control_at st = FirstPrompt /\
      exists row1 col1 mask1,
        in_range row1 /\ in_range col1 /\
        revealed_at (revealed st) row1 col1 = false /\
        set_flag (revealed st) row1 col1 true = Some mask1 /\ grid mask1 /\
        st' = mkRound (board st) mask1 (moves st) (matches st) (SecondPrompt row1 col1))
  \/ (exists row1 col1 row2 col2 mask2 s1 s2,
        control_at st = SecondPrompt row1 col1 /\
        in_range row2 /\ in_range col2 /\ (row2, col2) <> (row1, col1) /\
        revealed_at (revealed st) row2 col2 = false /\
        set_flag (revealed st) row2 col2 true = Some mask2 /\ grid mask2 /\
        symbol_at (board st) row1 col1 = Some (Some s1) /\
        symbol_at (board st) row2 col2 = Some (Some s2) /\
        ((s1 = s2 /\
          st' = mkRound (board st) mask2 (moves st + 1) (matches st + 1)
                  (if matches st + 1 <? 8 then FirstPrompt else Finished))
         \/
         (s1 <> s2 /\
          exists mask3 mask4,
            set_flag mask2 row1 col1 false = Some mask3 /\
            set_flag mask3 row2 col2 false = Some mask4 /\ grid mask4 /\
            st' = mkRound (board st) mask4 (moves st + 1) (matches st) FirstPrompt))).
Proof.
  intros Hwf Hstep. destruct (control_at st) as [|row1 col1|] eqn:Hc.
  - destruct (validate_first (revealed st) input) as [|message] eqn:Hv.
    + right. left. split; [done|].
      destruct (step_accepted_first st input) as
        (r1 & c1 & mask1 & _ & Hr1 & Hc1 & Hdown & Hset & Hgrid & Hs); try done.
      { by destruct Hwf as (_ & ? & _). }
      rewrite Hs in Hstep. simplify_eq. by exists r1, c1, mask1.
    + left. rewrite (step_rejected_first st input message Hc Hv) in Hstep. congruence.
  - destruct (validate_second (revealed st) row1 col1 input) as [|message] eqn:Hv.
    + right. right.
      destruct (step_accepted_second st row1 col1 input Hwf Hc Hv)
        as (r2 & c2 & mask2 & s1 & s2 & _ & Hr2 & Hc2 & Hne & Hdown & Hset & Hgrid
            & Hs1 & Hs2 & Hcases).
      exists row1, col1, r2, c2, mask2, s1, s2. split_and!; try done.
      destruct Hcases as [[Heq Hs]|[Hdiff (mask3 & mask4 & Hset3 & Hset4 & Hgrid4 & Hs)]];
        rewrite Hs in Hstep; simplify_eq.
      * by left.
      * right. split; [done|]. by exists mask3, mask4.
    + left. rewrite (step_rejected_second st row1 col1 input message Hc Hv) in Hstep.
      congruence.
  - left. unfold step in Hstep. rewrite Hc in Hstep. congruence.
Qed.

Lemma run_invariant (P : RoundState -> Prop) :
  (forall st input st', well_formed st -> P st -> step st input = Some st' -> P st') ->
  forall inputs st st', well_formed st -> P st -> run st inputs = Some st' -> P st'.
Proof.
  intros Hstep. induction inputs as [|input inputs IH]; simpl; intros st st' Hwf HP Hrun.
  - congruence.
  - destruct (step st input) as [st1|] eqn:Hs; [|done].
    destruct (well_formed_step st input Hwf) as (st1' & Hs1 & Hwf1).
    rewrite Hs in Hs1. simplify_eq. apply (IH st1' st'); try done.
    by apply (Hstep st input).
Qed.

Lemma reached_well_formed (cards : list (list string)) (st : RoundState) :
  reached cards st -> well_formed st.
Proof.
  intros [Hgrid [inputs Hrun]].
  destruct (well_formed_run (start cards) inputs (start_well_formed cards Hgrid))
    as (st' & Hrun' & Hwf).
  rewrite Hrun in Hrun'. by simplify_eq.
Qed.

Lemma reached_invariant (P : RoundState -> Prop) (cards : list (list string))
    (st : RoundState) :
  P (start cards) ->
  (forall st input st', well_formed st -> P st -> step st input = Some st' -> P st') ->
  reached cards st -> P st.
Proof.
  intros Hstart Hstep [Hgrid [inputs Hrun]].
  apply (run_invariant P Hstep inputs (start cards) st); try done.
  by apply start_well_formed.
Qed.

Lemma sample_board_grid : grid sample_board.
Proof. split; [reflexivity|]. repeat constructor. Defined.

Lemma sample_turn_is_reached : reached sample_board sample_turn.
Proof.
  split; [exact sample_board_grid|].
  exists (map str ["1,2"; "1,4"; "1,1"]%string). reflexivity.
Defined.

Lemma reached_counters (cards : list (list string)) (st : RoundState) :
  reached cards st ->
  board st = cards /\ 0 <= matches st <= moves st /\ matches st <= 8.
Proof.
  apply (reached_invariant
           (fun st => board st = cards /\ 0 <= matches st <= moves st /\ matches st <= 8)).
  - simpl. split; [done|]. lia.
  - clear st. intros st input st' Hwf (Hboard & Hcount & Hmax) Hstep.
    destruct Hwf as (Hb & Hg & Hinv).
    destruct (step_cases st st' input (conj Hb (conj Hg Hinv)) Hstep)
      as [->|[(Hc & r1 & c1 & mask1 & _ & _ & _ & _ & _ & ->)
             |(r1 & c1 & r2 & c2 & mask2 & s1 & s2 & Hc & _ & _ & _ & _ & _ & _ & _ & _
               & [[_ ->]|[_ (mask3 & mask4 & _ & _ & _ & ->)]])]];
      simpl; try (split; [done|]; lia).
    rewrite Hc in Hinv. split; [done|]. lia.
Qed.

(** X12.  In every state of a round the board is the one the round
    started on, the matches are counted between 0 and 8 and never exceed
    the moves, and the round is over exactly when the matches are 8. *)
Theorem round_counters (cards : list (list string)) (st : RoundState)
    (Hreached : reached cards st) :
  board st = cards /\ 0 <= matches st <= moves st /\ matches st <= 8 /\
  (control_at st = Finished <-> matches st = 8).
Proof.
  destruct (reached_counters cards st Hreached) as (Hboard & Hcount & Hmax).
  destruct (reached_well_formed cards st Hreached) as (_ & _ & Hinv).
  split_and!; try done; try lia.
  destruct (control_at st); split; intros; try done; lia.
Qed.

Lemma round_counters_witness :
  board sample_turn = sample_board /\ 0 <= matches sample_turn <= moves sample_turn /\
  matches sample_turn <= 8 /\
  (control_at sample_turn = Finished <-> matches sample_turn = 8).
Proof. exact (round_counters sample_board sample_turn sample_turn_is_reached). Defined.

Lemma count_true_insert (l : list bool) (j : nat) (b x : bool) :
  l !! j = Some x ->
  (length (filter (fun b => b = true) (<[j := b]> l)) + (if x then 1 else 0)
   = length (filter (fun b => b = true) l) + (if b then 1 else 0))%nat.
Proof.
  revert j. induction l as [|y l IH]; intros [|j] Hj; simplify_eq/=.
  - rewrite !filter_cons. destruct x, b; simpl; lia.
  - rewrite !filter_cons. specialize (IH j Hj).
    destruct (decide (y = true)); simpl; lia.
Qed.

Lemma face_up_insert (mask : list (list bool)) (i : nat) (cells cells' : list bool) :
  mask !! i = Some cells ->
  (face_up (<[i := cells']> mask) + length (filter (fun b => b = true) cells)
   = face_up mask + length (filter (fun b => b = true) cells'))%nat.
Proof.
  unfold face_up. revert i.
  induction mask as [|r mask IH]; intros [|i] Hi; simplify_eq/=.
  - rewrite !filter_app, !length_app. lia.
  - rewrite !filter_app, !length_app. specialize (IH i Hi). lia.
Qed.

(** Writing a flag changes the number of cards face up by what the flag
    was and what it becomes. *)
Lemma face_up_set_flag (mask mask' : list (list bool)) (row col : value) (b : bool) :
  grid mask -> in_range row -> in_range col ->
  set_flag mask row col b = Some mask' ->
  (face_up mask' + (if revealed_at mask row col then 1 else 0)
   = face_up mask + (if b then 1 else 0))%nat.
Proof.
  intros [Hlen Hrows] Hrow Hcol Hset.
  destruct (index_of_in_range row Hrow) as (i & Hi & Hilt & _).
  destruct (index_of_in_range col Hcol) as (j & Hj & Hjlt & _).
  unfold set_flag in Hset. rewrite Hi, Hj in Hset.
  destruct (mask !! i) as [cells|] eqn:Hcells; [|done]. simplify_eq.
  assert (length cells = 4%nat) as Hfour
    by apply (Forall_lookup_1 _ _ _ _ Hrows Hcells).
  destruct (lookup_lt_is_Some_2 cells j) as [x Hx]; [lia|].
  unfold revealed_at, get. rewrite Hi, Hcells, Hj, Hx. simpl.
  unfold put. destruct (Nat.ltb_spec j (length cells)); [|lia].
  pose proof (face_up_insert mask i cells (<[j := b]> cells) Hcells).
  pose proof (count_true_insert cells j b x Hx). lia.
Qed.

Lemma reached_face_up (cards : list (list string)) (st : RoundState) :
  reached cards st ->
  Z.of_nat (face_up (revealed st)) = 2 * matches st + card_in_hand st.
Proof.
  intros Hreached. revert Hreached.
  apply (reached_invariant
           (fun st => Z.of_nat (face_up (revealed st)) = 2 * matches st + card_in_hand st)).
  - reflexivity.
  - clear st. intros st input st' Hwf Hcount Hstep.
    pose proof Hwf as (_ & Hgrid & Hinv).
    destruct (step_cases st st' input Hwf Hstep)
      as [->|[(Hc & r1 & c1 & mask1 & Hr1 & Hc1 & Hdown & Hset & _ & ->)
             |(r1 & c1 & r2 & c2 & mask2 & s1 & s2 & Hc & Hr2 & Hc2 & Hne & Hdown & Hset
               & Hgrid2 & _ & _ & Hcases)]]; [done| |].
    + pose proof (face_up_set_flag _ _ _ _ _ Hgrid Hr1 Hc1 Hset) as Hup.
      rewrite Hdown in Hup. unfold card_in_hand in *. rewrite Hc in Hcount. simpl. lia.
    + rewrite Hc in Hinv. destruct Hinv as (_ & Hr1 & Hc1 & Hup1).
      pose proof (face_up_set_flag _ _ _ _ _ Hgrid Hr2 Hc2 Hset) as Hup.
      rewrite Hdown in Hup. unfold card_in_hand in *. rewrite Hc in Hcount.
      destruct Hcases as [[_ ->]|[_ (mask3 & mask4 & Hset3 & Hset4 & _ & ->)]]; simpl.
      * destruct (matches st + 1 <? 8); lia.
      * destruct (set_flag_grid mask2 r1 c1 false Hgrid2 Hr1 Hc1) as (m3 & Hm3 & Hgrid3).
        rewrite Hset3 in Hm3. simplify_eq.
        pose proof (face_up_set_flag _ _ _ _ _ Hgrid2 Hr1 Hc1 Hset3) as Hup3.
        pose proof (face_up_set_flag _ _ _ _ _ Hgrid3 Hr2 Hc2 Hset4) as Hup4.
        rewrite (revealed_at_set_flag _ _ _ _ _ _ _ Hr2 Hc2 Hr1 Hc1 Hset) in Hup3.
        rewrite (bool_decide_false ((r1, c1) = (r2, c2))) in Hup3 by congruence.
        rewrite Hup1 in Hup3.
        rewrite (revealed_at_set_flag _ _ _ _ _ _ _ Hr1 Hc1 Hr2 Hc2 Hset3) in Hup4.
        rewrite (bool_decide_false ((r2, c2) = (r1, c1))) in Hup4 by congruence.
        rewrite (revealed_at_set_flag _ _ _ _ _ _ _ Hr2 Hc2 Hr2 Hc2 Hset) in Hup4.
        rewrite bool_decide_true in Hup4 by done.
        lia.
Qed.

(** X13.  The cards face up are counted by the matches: two for each
    match, and one more while the first card of a turn waits for the
    second. *)
Theorem face_up_counted (cards : list (list string)) (st : RoundState)
    (Hreached : reached cards st) :
  Z.of_nat (face_up (revealed st)) = 2 * matches st + card_in_hand st.
Proof. by apply (reached_face_up cards). Qed.

Lemma face_up_counted_witness :
  Z.of_nat (face_up (revealed sample_turn))
  = 2 * matches sample_turn + card_in_hand sample_turn.
Proof. exact (face_up_counted sample_board sample_turn sample_turn_is_reached). Defined.

(** ** The end of a round *)

Lemma filter_full {A} (P : A -> Prop) `{forall x, Decision (P x)} (l : list A) :
  length (filter P l) = length l -> Forall P l.
Proof.
  induction l as [|x l IH]; [done|]. rewrite filter_cons.
  pose proof (length_filter P l).
  destruct (decide (P x)); simpl; intros Hlen; [|lia].
  constructor; [done|]. apply IH. lia.
Qed.

Lemma face_up_full (mask : list (list bool)) (row col : value) :
  grid mask -> face_up mask = 16%nat -> in_range row -> in_range col ->
  revealed_at mask row col = true.
Proof.
  intros Hgrid Hfull Hrow Hcol.
  destruct (grid_cells mask Hgrid)
    as (a00 & a01 & a02 & a03 & a10 & a11 & a12 & a13
        & a20 & a21 & a22 & a23 & a30 & a31 & a32 & a33 & ->).
  unfold face_up in Hfull. apply (filter_full (fun b => b = true)) in Hfull.
  simpl in Hfull. repeat (apply Forall_cons in Hfull as [? Hfull]). subst.
  destruct (in_range_cases row Hrow) as [->|[->|[->| ->]]];
    destruct (in_range_cases col Hcol) as [->|[->|[->| ->]]]; reflexivity.
Qed.

Lemma sample_end_is_reached : reached sample_board sample_end.
Proof.
  split; [exact sample_board_grid|]. exists sample_game. reflexivity.
Defined.

(** X14.  When a round is over every card lies face up; it took 8 moves
    at least, so that the score is between 10 and 60, and fits a JSON
    number. *)
Theorem finished_round (cards : list (list string)) (st : RoundState)
    (Hreached : reached cards st)
    (Hend : control_at st = Finished) :
  (forall row col, in_range row -> in_range col ->
                   revealed_at (revealed st) row col = true) /\
  8 <= moves st /\ 10 <= final_score st <= 60 /\ safe_integer (final_score st).
Proof.
  destruct (reached_counters cards st Hreached) as (_ & Hcount & Hmax).
  pose proof (reached_face_up cards st Hreached) as Hup.
  destruct (reached_well_formed cards st Hreached) as (_ & Hgrid & Hinv).
  unfold card_in_hand in Hup. rewrite Hend in Hinv, Hup.
  assert (8 <= moves st) as Hmoves by lia.
  split; [|split; [done|]].
  - intros row col Hrow Hcol. apply face_up_full; try done. lia.
  - unfold final_score, computeScore, safe_integer. lia.
Qed.

Lemma finished_round_witness :
  8 <= moves sample_end /\ 10 <= final_score sample_end <= 60 /\
  safe_integer (final_score sample_end).
Proof.
  destruct (finished_round sample_board sample_end sample_end_is_reached eq_refl)
    as [_ Hscore].
  exact Hscore.
Defined.

Lemma grid_all_or_hidden (mask : list (list bool)) :
  grid mask ->
  (exists r c, 0 <= r <= 3 /\ 0 <= c <= 3 /\ revealed_at mask (Num r) (Num c) = false)
  \/ face_up mask = 16%nat.
Proof.
  intros Hgrid.
  destruct (grid_cells mask Hgrid)
    as (a00 & a01 & a02 & a03 & a10 & a11 & a12 & a13
        & a20 & a21 & a22 & a23 & a30 & a31 & a32 & a33 & ->).
  destruct a00; [|left; exists 0, 0; split; [lia|split; [lia|reflexivity]]].
  destruct a01; [|left; exists 0, 1; split; [lia|split; [lia|reflexivity]]].
  destruct a02; [|left; exists 0, 2; split; [lia|split; [lia|reflexivity]]].
  destruct a03; [|left; exists 0, 3; split; [lia|split; [lia|reflexivity]]].
  destruct a10; [|left; exists 1, 0; split; [lia|split; [lia|reflexivity]]].
  destruct a11; [|left; exists 1, 1; split; [lia|split; [lia|reflexivity]]].
  destruct a12; [|left; exists 1, 2; split; [lia|split; [lia|reflexivity]]].
  destruct a13; [|left; exists 1, 3; split; [lia|split; [lia|reflexivity]]].
  destruct a20; [|left; exists 2, 0; split; [lia|split; [lia|reflexivity]]].
  destruct a21; [|left; exists 2, 1; split; [lia|split; [lia|reflexivity]]].
  destruct a22; [|left; exists 2, 2; split; [lia|split; [lia|reflexivity]]].
  destruct a23; [|left; exists 2, 3; split; [lia|split; [lia|reflexivity]]].
  destruct a30; [|left; exists 3, 0; split; [lia|split; [lia|reflexivity]]].
  destruct a31; [|left; exists 3, 1; split; [lia|split; [lia|reflexivity]]].
  destruct a32; [|left; exists 3, 2; split; [lia|split; [lia|reflexivity]]].
  destruct a33; [|left; exists 3, 3; split; [lia|split; [lia|reflexivity]]].
  by right.
Qed.

(** X15.  A round that is not over is never stuck: some card lies face
    down, and the line that names it is accepted at the prompt the round
    is waiting at, first or second. *)
Theorem some_line_accepted (cards : list (list string)) (st : RoundState)
    (Hreached : reached cards st)
    (Hopen : control_at st <> Finished) :
  exists r c st',
    0 <= r <= 3 /\ 0 <= c <= 3 /\
    revealed_at (revealed st) (Num r) (Num c) = false /\
    step st (coordinate_text r c) = Some st' /\ st' <> st.
Proof.
  pose proof (reached_face_up cards st Hreached) as Hup.
  pose proof (reached_well_formed cards st Hreached) as Hwf.
  pose proof Hwf as (_ & Hgrid & Hinv).
  assert (face_up (revealed st) <> 16%nat) as Hsome.
  { unfold card_in_hand in Hup. destruct (control_at st); [lia|lia|done]. }
  destruct (grid_all_or_hidden (revealed st) Hgrid)
    as [(r & c & Hr & Hc & Hdown)|Hfull]; [|done].
  pose proof (parseCoordinates_coordinate_text r c Hr Hc) as Hp.
  pose proof (validate_first_revealed_at (revealed st) _ _ _ Hgrid Hp) as Hv.
  rewrite Hdown in Hv.
  destruct (control_at st) as [|row1 col1|] eqn:Hctl; [| |done].
  - destruct (step_accepted_first st (coordinate_text r c) Hgrid Hctl Hv)
      as (r1 & c1 & mask1 & _ & _ & _ & _ & _ & _ & Hstep).
    exists r, c. eexists. split_and!; try done; try lia.
    intros Heq. apply (f_equal control_at) in Heq. simpl in Heq. congruence.
  - apply (validate_second_first st row1 col1 _ Hwf Hctl) in Hv.
    destruct (step_accepted_second st row1 col1 (coordinate_text r c) Hwf Hctl Hv)
      as (r2 & c2 & mask2 & s1 & s2 & _ & _ & _ & _ & _ & _ & _ & _ & _
          & [[_ Hstep]|[_ (mask3 & mask4 & _ & _ & _ & Hstep)]]);
      exists r, c; eexists; (split_and!; try done; try lia);
      intros Heq; apply (f_equal moves) in Heq; simpl in Heq; lia.
Qed.

Lemma some_line_accepted_witness :
  exists r c st',
    0 <= r <= 3 /\ 0 <= c <= 3 /\
    revealed_at (revealed sample_turn) (Num r) (Num c) = false /\
    step sample_turn (coordinate_text r c) = Some st' /\ st' <> sample_turn.
Proof.
  apply (some_line_accepted sample_board sample_turn sample_turn_is_reached).
  discriminate.
Defined.

(** ** A turn without a match *)

Lemma grid_ext (mask mask' : list (list bool)) :
  grid mask -> grid mask' ->
  (forall row col, in_range row -> in_range col ->
                   revealed_at mask row col = revealed_at mask' row col) ->
  mask = mask'.
Proof.
  intros Hgrid Hgrid' Hcells.
  destruct (grid_cells mask Hgrid)
    as (a00 & a01 & a02 & a03 & a10 & a11 & a12 & a13
        & a20 & a21 & a22 & a23 & a30 & a31 & a32 & a33 & ->).
  destruct (grid_cells mask' Hgrid')
    as (b00 & b01 & b02 & b03 & b10 & b11 & b12 & b13
        & b20 & b21 & b22 & b23 & b30 & b31 & b32 & b33 & ->).
  assert (forall r c, 0 <= r <= 3 -> 0 <= c <= 3 ->
            revealed_at [[a00; a01; a02; a03]; [a10; a11; a12; a13];
                         [a20; a21; a22; a23]; [a30; a31; a32; a33]] (Num r) (Num c)
            = revealed_at [[b00; b01; b02; b03]; [b10; b11; b12; b13];
                           [b20; b21; b22; b23]; [b30; b31; b32; b33]] (Num r) (Num c))
    as H by (intros r c Hr Hc; apply Hcells; by apply in_range_Num).
  pose proof (H 0 0 ltac:(lia) ltac:(lia)) as H00.
  pose proof (H 0 1 ltac:(lia) ltac:(lia)) as H01.
  pose proof (H 0 2 ltac:(lia) ltac:(lia)) as H02.
  pose proof (H 0 3 ltac:(lia) ltac:(lia)) as H03.
  pose proof (H 1 0 ltac:(lia) ltac:(lia)) as H10.
  pose proof (H 1 1 ltac:(lia) ltac:(lia)) as H11.
  pose proof (H 1 2 ltac:(lia) ltac:(lia)) as H12.
  pose proof (H 1 3 ltac:(lia) ltac:(lia)) as H13.
  pose proof (H 2 0 ltac:(lia) ltac:(lia)) as H20.
  pose proof (H 2 1 ltac:(lia) ltac:(lia)) as H21.
  pose proof (H 2 2 ltac:(lia) ltac:(lia)) as H22.
  pose proof (H 2 3 ltac:(lia) ltac:(lia)) as H23.
  pose proof (H 3 0 ltac:(lia) ltac:(lia)) as H30.
  pose proof (H 3 1 ltac:(lia) ltac:(lia)) as H31.
  pose proof (H 3 2 ltac:(lia) ltac:(lia)) as H32.
  pose proof (H 3 3 ltac:(lia) ltac:(lia)) as H33.
  clear H Hcells Hgrid Hgrid'. cbv in *. congruence.
Qed.

(** X16.  A turn whose two cards do not match leaves the round exactly as
    it was before the turn, but for the move it counts: the mask is the old
    one, flag for flag. *)
Theorem mismatch_restores (st st2 : RoundState) (input1 input2 : jsstring)
    (Hwf : well_formed st)
    (Hctl : control_at st = FirstPrompt)
    (Hrun : run st [input1; input2] = Some st2)
    (Hmove : moves st2 = moves st + 1)
    (Hmiss : matches st2 = matches st) :
  st2 = mkRound (board st) (revealed st) (moves st + 1) (matches st) FirstPrompt.
Proof.
  simpl in Hrun.
  destruct (step st input1) as [st1|] eqn:Hstep1; [|done].
  destruct (step st1 input2) as [st2'|] eqn:Hstep2; [|done]. simplify_eq.
  destruct (well_formed_step st input1 Hwf) as (st1' & Hs & Hwf1).
  rewrite Hstep1 in Hs. simplify_eq.
  pose proof Hwf as (_ & Hgrid & _).
  destruct (step_cases st st1' input1 Hwf Hstep1)
    as [->|[(_ & r1 & c1 & mask1 & Hr1 & Hc1 & Hdown1 & Hset1 & Hgrid1 & ->)
           |(r1 & c1 & r2 & c2 & mask2 & s1 & s2 & Hc & _)]]; [| |congruence].
  - destruct (step_cases st st2 input2 Hwf Hstep2)
      as [->|[(_ & r1 & c1 & mask1 & _ & _ & _ & _ & _ & ->)
             |(r1 & c1 & r2 & c2 & mask2 & s1 & s2 & Hc & _)]];
      [lia|simpl in Hmove; lia|congruence].
  - destruct (step_cases _ st2 input2 Hwf1 Hstep2)
      as [->|[(Hc & _)
             |(r1' & c1' & r2 & c2 & mask2 & s1 & s2 & Hc & Hr2 & Hc2 & Hne & Hdown2
               & Hset2 & Hgrid2 & _ & _
               & [[_ ->]|[_ (mask3 & mask4 & Hset3 & Hset4 & Hgrid4 & ->)]])]];
      simpl in *; [lia|done|lia|].
    simplify_eq. f_equal.
    destruct (set_flag_grid mask2 r1' c1' false Hgrid2 Hr1 Hc1) as (m3 & Hm3 & Hgrid3).
    rewrite Hset3 in Hm3. simplify_eq.
    apply grid_ext; try done. intros row col Hrow Hcol.
    rewrite (revealed_at_set_flag _ _ _ _ _ _ _ Hr2 Hc2 Hrow Hcol Hset4).
    rewrite (revealed_at_set_flag _ _ _ _ _ _ _ Hr1 Hc1 Hr2 Hc2 Hset1) in Hdown2.
    rewrite (bool_decide_false ((r2, c2) = (r1', c1'))) in Hdown2 by done.
    case_bool_decide as Hsecond; [by simplify_eq|].
    rewrite (revealed_at_set_flag _ _ _ _ _ _ _ Hr1 Hc1 Hrow Hcol Hset3).
    case_bool_decide as Hfirst; [by simplify_eq|].
    rewrite (revealed_at_set_flag _ _ _ _ _ _ _ Hr2 Hc2 Hrow Hcol Hset2).
    rewrite (bool_decide_false _ Hsecond).
    rewrite (revealed_at_set_flag _ _ _ _ _ _ _ Hr1 Hc1 Hrow Hcol Hset1).
    by rewrite (bool_decide_false _ Hfirst).
Qed.

Lemma sample_first_well_formed : well_formed sample_first.
Proof.
  split; [exact sample_board_grid|]. split.
  - split; [reflexivity|]. repeat constructor.
  - simpl. lia.
Defined.

Lemma mismatch_restores_witness :
  exists st2,
    run sample_first (map str ["1,1"; "2,1"]%string) = Some st2 /\
    st2 = mkRound sample_board (revealed sample_first) 2 1 FirstPrompt.
Proof.
  eexists. split; [reflexivity|].
  apply (mismatch_restores sample_first _ (str "1,1") (str "2,1"));
    [exact sample_first_well_formed | reflexivity ..].
Defined.

Lemma sample_first_to_turn : run sample_first [str "1,1"] = Some sample_turn.
Proof. reflexivity. Defined.

(** X23.  Whatever is typed, the counters of a round never go back and
    its board is never written: the moves and the matches only grow, so
    the score to come can only go down. *)
Theorem counters_never_go_back (st st' : RoundState) (inputs : list jsstring)
    (Hwf : well_formed st)
    (Hrun : run st inputs = Some st') :
  moves st <= moves st' /\ matches st <= matches st' /\
  final_score st' <= final_score st /\ board st' = board st.
Proof.
  assert (moves st <= moves st' /\ matches st <= matches st' /\ board st' = board st)
    as (Hmoves & Hmatches & Hboard).
  { apply (run_invariant
             (fun s => moves st <= moves s /\ matches st <= matches s /\ board s = board st)
             ) with (inputs := inputs) (st := st); try done; try lia.
    intros s input s' Hwfs (Hm & Hk & Hb) Hstep.
    destruct (step_cases s s' input Hwfs Hstep)
      as [->|[(_ & r1 & c1 & mask1 & _ & _ & _ & _ & _ & ->)
             |(r1 & c1 & r2 & c2 & mask2 & s1 & s2 & _ & _ & _ & _ & _ & _ & _ & _ & _
               & [[_ ->]|[_ (mask3 & mask4 & _ & _ & _ & ->)]])]];
      simpl; (split; [lia|split; [lia|done]]). }
  split_and!; try done. unfold final_score. by apply computeScore_antitone.
Qed.

Lemma counters_never_go_back_witness :
  moves sample_first <= moves sample_turn /\ matches sample_first <= matches sample_turn /\
  final_score sample_turn <= final_score sample_first /\
  board sample_turn = board sample_first.
Proof.
  exact (counters_never_go_back sample_first sample_turn [str "1,1"]
           sample_first_well_formed sample_first_to_turn).
Defined.

(** ** Matched cards *)

Lemma fresh_mask_down (row col : value) :
  in_range row -> in_range col -> revealed_at fresh_mask row col = false.
Proof.
  intros Hrow Hcol.
  destruct (in_range_cases row Hrow) as [->|[->|[->| ->]]];
    destruct (in_range_cases col Hcol) as [->|[->|[->| ->]]]; reflexivity.
Qed.

Lemma paired_step (st st' : RoundState) (input : jsstring) :
  well_formed st -> paired st -> step st input = Some st' -> paired st'.
Proof.
  intros Hwf Hpaired Hstep row col Hrow Hcol [Hup Hother].
  pose proof Hwf as (_ & Hgrid & Hinv).
  assert (settled st row col ->
          exists row' col',
            in_range row' /\ in_range col' /\ (row', col') <> (row, col) /\
            settled st' row' col' /\
            symbol_at (board st) row' col' = symbol_at (board st) row col) as Hold.
  { intros Hsettled.
    destruct (Hpaired row col Hrow Hcol Hsettled)
      as (row' & col' & Hrow' & Hcol' & Hne & Hsettled' & Hsame).
    exists row', col'. split_and!; try done.
    by apply (settled_step st st' input). }
  destruct (step_cases st st' input Hwf Hstep)
    as [->|[(Hc & r1 & c1 & mask1 & Hr1 & Hc1 & Hdown & Hset & _ & ->)
           |(r1 & c1 & r2 & c2 & mask2 & s1 & s2 & Hc & Hr2 & Hc2 & Hne & Hdown & Hset
             & Hgrid2 & Hs1 & Hs2 & Hcases)]].
  - by apply Hpaired.
  - simpl in *. apply Hold.
    rewrite (revealed_at_set_flag _ _ _ _ _ _ _ Hr1 Hc1 Hrow Hcol Hset) in Hup.
    rewrite (bool_decide_false _ Hother) in Hup.
    split; [done|]. by rewrite Hc.
  - rewrite Hc in Hinv. destruct Hinv as (_ & Hr1 & Hc1 & Hup1).
    destruct Hcases as [[Heq ->]|[_ (mask3 & mask4 & Hset3 & Hset4 & _ & ->)]];
      simpl in *.
    + assert (forall row col, revealed_at mask2 row col = true ->
                settled (mkRound (board st) mask2 (moves st + 1) (matches st + 1)
                           (if matches st + 1 <? 8 then FirstPrompt else Finished))
                  row col) as Hsettled.
      { intros row0 col0 H0. split; [done|]. simpl.
        by destruct (matches st + 1 <? 8). }
      destruct (decide ((row, col) = (r2, c2))) as [Hsecond|Hsecond].
      * simplify_eq. exists r1, c1. split_and!; try done.
        -- apply Hsettled.
           rewrite (revealed_at_set_flag _ _ _ _ _ _ _ Hr2 Hc2 Hr1 Hc1 Hset).
           rewrite bool_decide_false by congruence. done.
        -- by rewrite Hs1, Hs2.
      * destruct (decide ((row, col) = (r1, c1))) as [Hfirst|Hfirst].
        -- simplify_eq. exists r2, c2. split_and!; try done.
           ++ apply Hsettled.
              rewrite (revealed_at_set_flag _ _ _ _ _ _ _ Hr2 Hc2 Hr2 Hc2 Hset).
              by rewrite bool_decide_true.
           ++ by rewrite Hs1, Hs2.
        -- apply Hold.
           rewrite (revealed_at_set_flag _ _ _ _ _ _ _ Hr2 Hc2 Hrow Hcol Hset) in Hup.
           rewrite (bool_decide_false _ Hsecond) in Hup.
           split; [done|]. by rewrite Hc.
    + destruct (set_flag_grid mask2 r1 c1 false Hgrid2 Hr1 Hc1) as (m3 & Hm3 & Hgrid3).
      rewrite Hset3 in Hm3. simplify_eq.
      rewrite (revealed_at_set_flag _ _ _ _ _ _ _ Hr2 Hc2 Hrow Hcol Hset4) in Hup.
      case_bool_decide as Hsecond; [done|].
      rewrite (revealed_at_set_flag _ _ _ _ _ _ _ Hr1 Hc1 Hrow Hcol Hset3) in Hup.
      case_bool_decide as Hfirst; [done|].
      rewrite (revealed_at_set_flag _ _ _ _ _ _ _ Hr2 Hc2 Hrow Hcol Hset) in Hup.
      rewrite (bool_decide_false _ Hsecond) in Hup.
      apply Hold. split; [done|]. by rewrite Hc.
Qed.

(** X17.  The cards that stay face up are matched ones: at every moment
    of a round a card that lies face up, other than the first card of the
    turn under way, has a partner of the same symbol among these cards. *)
Theorem face_up_cards_paired (cards : list (list string)) (st : RoundState)
    (Hreached : reached cards st) :
  paired st.
Proof.
  revert Hreached. apply (reached_invariant paired).
  - intros row col Hrow Hcol [Hup _]. simpl in Hup.
    by rewrite fresh_mask_down in Hup.
  - intros st0 input st' Hwf Hpaired Hstep. by apply (paired_step st0 st' input).
Qed.

Lemma face_up_cards_paired_witness : paired sample_turn.
Proof. exact (face_up_cards_paired sample_board sample_turn sample_turn_is_reached). Defined.

(** ** A round on a generated board *)

(** X18.  [createBoard] and the loop of [playGame] fit: whatever
    [Math.random()] returns in [0, 1) and whatever lines are typed, the
    board is generated and the round on it goes on without an error, on
    that board and with two masks of four rows of four. *)
Theorem round_on_generated_board (random : nat -> Q) (w : world)
    (inputs : list jsstring)
    (Hrandom : forall n, (0 <= random n)%Q /\ (random n < 1)%Q)
    (Hsymbols : heap w !! symbols = Some symbols_literal) :
  exists cards w' st,
    createBoard random w = Some (cards, w') /\
    run (start cards) inputs = Some st /\
    well_formed st /\ board st = cards.
Proof.
  pose proof (createBoard_spec random Hrandom w symbols_literal Hsymbols) as Hrun.
  cbv zeta in Hrun. change (length symbols_literal - 1)%nat with 15%nat in Hrun.
  set (shuffled := fisher_yates (drawn random (random_calls w) 15) 15 symbols_literal)
    in *.
  assert (length shuffled = 16%nat) as Hlen
    by (unfold shuffled; by rewrite fisher_yates_length).
  destruct (rows_of_sixteen shuffled Hlen) as (Hgrid & _ & _).
  destruct (well_formed_run _ inputs (start_well_formed _ Hgrid)) as (st & Hst & Hwf).
  do 3 eexists. split; [exact Hrun|]. split; [exact Hst|]. split; [exact Hwf|].
  apply (reached_counters _ st). split; [exact Hgrid|]. by exists inputs.
Qed.

Lemma round_on_generated_board_witness :
  exists cards w' st,
    createBoard midpoint module_world = Some (cards, w') /\
    run (start cards) sample_game = Some st /\
    well_formed st /\ board st = cards.
Proof.
  exact (round_on_generated_board midpoint module_world sample_game midpoint_unit
           module_world_symbols).
Defined.

(** ** The screen *)

Lemma display_cell_agree (chalk : Chalk) (board1 board2 : list (list string))
    (mask : list (list bool)) (i j : nat) :
  grid board1 -> grid board2 -> grid mask -> (i < 4)%nat -> (j < 4)%nat ->
  (revealed_at mask (Num (Z.of_nat i)) (Num (Z.of_nat j)) = true ->
   symbol_at board1 (Num (Z.of_nat i)) (Num (Z.of_nat j))
   = symbol_at board2 (Num (Z.of_nat i)) (Num (Z.of_nat j))) ->
  exists cell,
    display_cell chalk board1 mask i j = Some cell /\
    display_cell chalk board2 mask i j = Some cell.
Proof.
  intros [Hlen1 Hrows1] [Hlen2 Hrows2] [Hlen Hrows] Hi Hj Hagree.
  unfold display_cell.
  destruct (lookup_lt_is_Some_2 mask i) as [flags Hflags]; [lia|].
  destruct (lookup_lt_is_Some_2 board1 i) as [cells1 Hcells1]; [lia|].
  destruct (lookup_lt_is_Some_2 board2 i) as [cells2 Hcells2]; [lia|].
  rewrite Hflags, Hcells1, Hcells2.
  revert Hagree. unfold revealed_at, symbol_at, get, index_of.
  destruct (Z.leb_spec 0 (Z.of_nat i)); [|lia].
  destruct (Z.leb_spec 0 (Z.of_nat j)); [|lia].
  rewrite !Nat2Z.id, Hflags, Hcells1, Hcells2.
  destruct (default false (flags !! j)); [|by eexists].
  intros Hagree. specialize (Hagree eq_refl). simplify_eq.
  rewrite Hagree. by eexists.
Qed.

Lemma displayBoard_cells_agree (chalk : Chalk) (board1 board2 : list (list string))
    (mask : list (list bool)) (i : nat) (row : jsstring) :
  grid board1 -> grid board2 -> grid mask -> (i < 4)%nat ->
  (forall j, (j < 4)%nat ->
     revealed_at mask (Num (Z.of_nat i)) (Num (Z.of_nat j)) = true ->
     symbol_at board1 (Num (Z.of_nat i)) (Num (Z.of_nat j))
     = symbol_at board2 (Num (Z.of_nat i)) (Num (Z.of_nat j))) ->
  exists line,
    displayBoard_cells chalk board1 mask i 0 4 row = Some line /\
    displayBoard_cells chalk board2 mask i 0 4 row = Some line.
Proof.
  intros H1 H2 Hmask Hi Hagree.
  destruct (display_cell_agree chalk board1 board2 mask i 0 H1 H2 Hmask Hi)
    as (cell0 & Ha0 & Hb0); [lia|apply Hagree; lia|].
  destruct (display_cell_agree chalk board1 board2 mask i 1 H1 H2 Hmask Hi)
    as (cell1 & Ha1 & Hb1); [lia|apply Hagree; lia|].
  destruct (display_cell_agree chalk board1 board2 mask i 2 H1 H2 Hmask Hi)
    as (cell2 & Ha2 & Hb2); [lia|apply Hagree; lia|].
  destruct (display_cell_agree chalk board1 board2 mask i 3 H1 H2 Hmask Hi)
    as (cell3 & Ha3 & Hb3); [lia|apply Hagree; lia|].
  cbn [displayBoard_cells].
  rewrite Ha0, Hb0. cbn [displayBoard_cells].
  rewrite Ha1, Hb1. cbn [displayBoard_cells].
  rewrite Ha2, Hb2. cbn [displayBoard_cells].
  rewrite Ha3, Hb3. by eexists.
Qed.

(** X19.  [displayBoard] shows nothing of the cards that lie face down:
    on two boards that agree on the cards face up it logs the same five
    lines, and it raises no error on a board and a mask of four rows of
    four. *)
Theorem displayBoard_hides (chalk : Chalk) (board1 board2 : list (list string))
    (mask : list (list bool))
    (Hboard1 : grid board1) (Hboard2 : grid board2) (Hmask : grid mask)
    (Hagree : forall row col, in_range row -> in_range col ->
                revealed_at mask row col = true ->
                symbol_at board1 row col = symbol_at board2 row col) :
  exists lines,
    displayBoard chalk board1 mask = Some lines /\
    displayBoard chalk board2 mask = Some lines /\
    length lines = 5%nat.
Proof.
  assert (forall i, (i < 4)%nat -> forall row,
            exists line,
              displayBoard_cells chalk board1 mask i 0 4 row = Some line /\
              displayBoard_cells chalk board2 mask i 0 4 row = Some line) as Hrow.
  { intros i Hi row. apply displayBoard_cells_agree; try done.
    intros j Hj. apply Hagree; apply in_range_Num; lia. }
  unfold displayBoard. cbn [displayBoard_rows].
  destruct (Hrow 0%nat ltac:(lia) (Number_toString (mkNumber (Z.of_nat 0 + 1) 0) ++ str " "))
    as (line0 & Ha0 & Hb0).
  destruct (Hrow 1%nat ltac:(lia) (Number_toString (mkNumber (Z.of_nat 1 + 1) 0) ++ str " "))
    as (line1 & Ha1 & Hb1).
  destruct (Hrow 2%nat ltac:(lia) (Number_toString (mkNumber (Z.of_nat 2 + 1) 0) ++ str " "))
    as (line2 & Ha2 & Hb2).
  destruct (Hrow 3%nat ltac:(lia) (Number_toString (mkNumber (Z.of_nat 3 + 1) 0) ++ str " "))
    as (line3 & Ha3 & Hb3).
  rewrite Ha0, Hb0, Ha1, Hb1, Ha2, Hb2, Ha3, Hb3.
  by eexists.
Qed.

Lemma other_board_grid : grid other_board.
Proof. split; [reflexivity|]. repeat constructor. Defined.

Lemma displayBoard_hides_witness :
  exists lines,
    displayBoard plain sample_board (revealed sample_turn) = Some lines /\
    displayBoard plain other_board (revealed sample_turn) = Some lines /\
    length lines = 5%nat.
Proof.
  apply (displayBoard_hides plain sample_board other_board (revealed sample_turn)
           sample_board_grid other_board_grid).
  - split; [reflexivity|]. repeat constructor.
  - intros row col Hrow Hcol.
    destruct (in_range_cases row Hrow) as [->|[->|[->| ->]]];
      destruct (in_range_cases col Hcol) as [->|[->|[->| ->]]];
      (reflexivity || discriminate).
Defined.

(** ** The list of high scores *)

Lemma merge_nonempty (highScores : list ScoreRecord) (entry : ScoreRecord) :
  (1 <= length (merge highScores entry))%nat.
Proof.
  unfold merge, splice_from.
  rewrite length_take, (array_sort_Permutation score), length_app.
  cbn [length]. lia.
Qed.

Lemma showHighScores_persist (chalk : Chalk) (l : list ScoreRecord) :
  Forall (fun r => safe_integer (score r)) l -> (1 <= length l)%nat ->
  showHighScores chalk (persist l)
  = Some (chalk_blue chalk (str "High Scores:") :: imap entry_line l).
Proof.
  intros Hsafe Hlen. unfold showHighScores.
  rewrite loadHighScores_persist, leaderboard_of_json_of_leaderboard by done.
  rewrite bool_decide_false by lia. done.
Qed.

(** X20.  After a score is saved on a file that the program wrote, the
    list of high scores is never the line "No high scores yet.": it is the
    heading and one line for each record of the merged leaderboard, numbered
    from 1 in its order, the new one among them or dropped as the sixth:
    two lines at least, six at most. *)
Theorem showHighScores_after_save (chalk : Chalk) (now player : jsstring) (points : Z)
    (l : list ScoreRecord)
    (Hsafe : Forall (fun r => safe_integer (score r)) l)
    (Hpoints : safe_integer points) :
  exists file' lines,
    saveHighScore now points player (persist l) = Some file' /\
    showHighScores chalk file' = Some lines /\
    lines = chalk_blue chalk (str "High Scores:")
            :: imap entry_line (merge l (mkScoreRecord player points now)) /\
    (2 <= length lines <= 6)%nat.
Proof.
  pose proof (merge_nonempty l (mkScoreRecord player points now)) as Hone.
  pose proof (merge_length l (mkScoreRecord player points now)) as Hfive.
  do 2 eexists. split; [by apply saveHighScore_persist|].
  split; [apply showHighScores_persist; [by apply merge_Forall | done]|].
  split; [done|]. simpl. rewrite length_imap. lia.
Qed.

Lemma showHighScores_after_save_witness :
  exists file' lines,
    saveHighScore (str "2024-01-06T00:00:00.000Z") 75 (str "Flo")
      (persist leaderboard_example) = Some file' /\
    showHighScores plain file' = Some lines /\
    lines = str "High Scores:" :: imap entry_line (merge leaderboard_example entry_example) /\
    (2 <= length lines <= 6)%nat.
Proof.
  apply (showHighScores_after_save plain (str "2024-01-06T00:00:00.000Z") (str "Flo") 75
           leaderboard_example).
  - repeat constructor; unfold safe_integer; simpl; lia.
  - unfold safe_integer. simpl. lia.
Defined.

(** X21.  With no file, with a file whose text is no JSON value, and after
    a reset, the list of high scores is the one line "No high scores
    yet.". *)
Theorem showHighScores_nothing_saved (chalk : Chalk) (file : file_state)
    (Hnone : file = Absent \/ (exists data, file = Content data /\ malformed data)
             \/ file = resetHighScores) :
  showHighScores chalk file = Some [chalk_yellow chalk (str "No high scores yet.")].
Proof.
  unfold showHighScores.
  destruct Hnone as [Habsent|[Hbad| ->]].
  - by rewrite (loadHighScores_unreadable file (or_introl Habsent)).
  - by rewrite (loadHighScores_unreadable file (or_intror Hbad)).
  - by rewrite loadHighScores_reset.
Qed.

Lemma showHighScores_nothing_saved_witness :
  showHighScores plain resetHighScores = Some [str "No high scores yet."].
Proof.
  apply (showHighScores_nothing_saved plain resetHighScores).
  right. right. reflexivity.
Defined.

(** ** From the round to the file *)

(** X22.  The end of [playGame]: the score of a finished round is saved
    on a file that the program wrote, the record is the first of the new
    leaderboard when the scores before were all below 60 and the round took
    8 moves, and loading the file returns the new leaderboard. *)
Theorem finished_round_saved (cards : list (list string)) (st : RoundState)
    (now player : jsstring) (l : list ScoreRecord)
    (Hreached : reached cards st)
    (Hend : control_at st = Finished)
    (Hsafe : Forall (fun r => safe_integer (score r)) l) :
  let entry := mkScoreRecord player (final_score st) now in
  exists file',
    saveHighScore now (final_score st) player (persist l) = Some file' /\
    loadHighScores file' = Return (json_of_leaderboard (merge l entry)) /\
    (moves st = 8 -> Forall (fun r => score r < 60) l ->
     merge l entry = entry :: take 4 (array_sort by_score_desc l)).
Proof.
  intros entry.
  destruct (reached_counters cards st Hreached) as (_ & Hcount & Hmax).
  destruct (reached_well_formed cards st Hreached) as (_ & _ & Hinv).
  rewrite Hend in Hinv.
  assert (safe_integer (final_score st)) as Hscore
    by (unfold final_score, computeScore, safe_integer; lia).
  eexists. split; [by apply saveHighScore_persist|].
  split; [apply loadHighScores_persist; by apply merge_Forall|].
  intros Hmoves Hbelow.
  unfold merge, splice_from. rewrite array_sort_snoc, insert_last_high; [done|].
  rewrite (array_sort_Permutation score). simpl.
  unfold final_score, computeScore. rewrite Hmoves. exact Hbelow.
Qed.

Lemma finished_round_saved_witness :
  exists file',
    saveHighScore (str "2024-01-06T00:00:00.000Z") (final_score sample_end) (str "Flo")
      (persist []) = Some file' /\
    loadHighScores file'
    = Return (json_of_leaderboard
                (merge [] (mkScoreRecord (str "Flo") (final_score sample_end)
                             (str "2024-01-06T00:00:00.000Z")))).
Proof.
  destruct (finished_round_saved sample_board sample_end
              (str "2024-01-06T00:00:00.000Z") (str "Flo") []
              sample_end_is_reached eq_refl (Forall_nil_2 _))
    as (file' & Hsave & Hload & _).
  exists file'. split; [exact Hsave | exact Hload].
Defined.
